(** * The chant player: cue sequence, playback scheduler, highlight synchroniser

    A shallow embedding of [src/modules/AudioEngine.js]: the class
    [AudioEngine] (sequence builder and scheduler) and the class
    [LyricsTextManager] (highlighting).

    JavaScript numbers are IEEE 754 binary64 values and are modelled by the
    primitive type [float].  Loop counters and array indices, which stay far
    below 2^53, are modelled by [nat] and injected with [Js.of_nat] where the
    source multiplies them with a number. *)

From Stdlib Require Import Floats ZArith Uint63 Sorted.
From stdpp Require Import base option list gmap strings.

Local Open Scope string_scope.

(** ** JavaScript numbers *)

Module Js.

Definition NaN : float := PrimFloat.nan.

(** A non-negative integer counter as a number. *)
Definition of_nat (n : nat) : float :=
  PrimFloat.of_uint63 (Uint63.of_Z (Z.of_nat n)).

(** [ToBoolean] on a number: [0], [-0] and [NaN] are falsy. *)
Definition truthy (x : float) : bool :=
  negb (PrimFloat.is_zero x || PrimFloat.is_nan x).

(** A field that may still be [undefined] ([None]). *)
Definition truthy_opt (o : option float) : bool :=
  match o with
  | Some x => truthy x
  | None => false
  end.

(** [ToNumber(undefined)] is [NaN]. *)
Definition to_number (o : option float) : float :=
  match o with
  | Some x => x
  | None => NaN
  end.

Definition is_neg_zero (x : float) : bool :=
  match PrimFloat.classify x with
  | NZero => true
  | _ => false
  end.

(** [Math.max(a, b)]: [NaN] if either is, and [+0] above [-0]. *)
Definition max (a b : float) : float :=
  if PrimFloat.is_nan a || PrimFloat.is_nan b then NaN
  else if PrimFloat.ltb a b then b
  else if PrimFloat.ltb b a then a
  else if is_neg_zero a then b else a.

End Js.

(** ** Characters of the loaded text ([parseTextToLines]) *)

Record CharData := {
  char : N;
  index : nat;
  lineIndex : nat;
  positionInLine : nat;
  isPunctuation : bool;
  isSpace : bool
}.

(** ** The cue sequence ([createPlaybackSequence]) *)

Inductive Description :=
| StartBowlDescription            (* '开始颂钵' *)
| MuyuDescription (n : nat).      (* `木鱼 ${muyuIndex + 1}` *)

Record PlayEvent := {
  type : string;
  delay : float;
  characterIndex : option nat;
  description : Description;
  noWait : bool;
  isStartBowl : bool;
  isMuyu : bool
}.

Definition startBowl : PlayEvent := {|
  type := "bowl";
  delay := 0;
  characterIndex := None;
  description := StartBowlDescription;
  noWait := false;
  isStartBowl := true;
  isMuyu := false
|}.

Definition muyuCue (muyuIndex : nat) (baseInterval : float) (i : nat) : PlayEvent := {|
  type := "muyu";
  delay := (Js.of_nat muyuIndex * baseInterval)%float;
  characterIndex := Some i;
  description := MuyuDescription (muyuIndex + 1);
  noWait := true;
  isStartBowl := false;
  isMuyu := true
|}.

(** [!charData || (!charData.isPunctuation && !charData.isSpace)] *)
Definition receivesCue (charData : option CharData) : bool :=
  match charData with
  | None => true
  | Some c => negb (isPunctuation c) && negb (isSpace c)
  end.

(** The [for (let i = 0; i < textLength; i++)] loop; [remaining] is
    [textLength - i].  [getCharacterData] is [None] while the engine has no
    such method. *)
Fixpoint muyuSequence (getCharacterData : option (nat -> option CharData))
    (baseInterval : float) (remaining i muyuIndex : nat) : list PlayEvent :=
  match remaining with
  | O => []
  | S remaining' =>
      let charData :=
        match getCharacterData with
        | Some get => get i
        | None => None
        end in
      if receivesCue charData
      then muyuCue muyuIndex baseInterval i
             :: muyuSequence getCharacterData baseInterval remaining' (S i) (S muyuIndex)
      else muyuSequence getCharacterData baseInterval remaining' (S i) muyuIndex
  end.

Definition createPlaybackSequence (getCharacterData : option (nat -> option CharData))
    (playbackSpeed : float) (textLength : nat) : list PlayEvent :=
  let baseInterval := (1000 / playbackSpeed)%float in
  startBowl :: muyuSequence getCharacterData baseInterval textLength 0 0.

(** The method [startPlayback] installs:
    [(index) => characters && characters[index] ? characters[index] : null]. *)
Definition characterLookup (characters : list CharData) : nat -> option CharData :=
  fun index => characters !! index.

(** ** The engine object ([AudioEngine]) *)

(** [audioFiles] keeps the keys whose audio element was preloaded.
    [muyuStartTime] is [None] while the field is [undefined] (the constructor
    does not create it).  [textManager] holds the [characters] of the text
    manager handed to [startPlayback]; [getCharacterData] is installed together
    with it and reads the same array. *)
Record Engine := {
  audioFiles : gset string;
  isPlaying : bool;
  isPaused : bool;
  isLooping : bool;
  playbackSpeed : float;
  currentSequence : option (list PlayEvent);
  sequenceIndex : nat;
  sequenceStartTime : float;
  muyuStartTime : option float;
  textManager : option (list CharData)
}.

(** [new AudioEngine()], with the files that [preloadAudioFiles] loaded. *)
Definition newEngine (loaded : gset string) : Engine := {|
  audioFiles := loaded;
  isPlaying := false;
  isPaused := false;
  isLooping := false;
  playbackSpeed := 1;
  currentSequence := None;
  sequenceIndex := 0;
  sequenceStartTime := 0;
  muyuStartTime := None;
  textManager := None
|}.

Definition setPlaying (b : bool) (e : Engine) : Engine :=
  {| audioFiles := audioFiles e; isPlaying := b; isPaused := isPaused e;
     isLooping := isLooping e; playbackSpeed := playbackSpeed e;
     currentSequence := currentSequence e; sequenceIndex := sequenceIndex e;
     sequenceStartTime := sequenceStartTime e; muyuStartTime := muyuStartTime e;
     textManager := textManager e |}.

Definition setPaused (b : bool) (e : Engine) : Engine :=
  {| audioFiles := audioFiles e; isPlaying := isPlaying e; isPaused := b;
     isLooping := isLooping e; playbackSpeed := playbackSpeed e;
     currentSequence := currentSequence e; sequenceIndex := sequenceIndex e;
     sequenceStartTime := sequenceStartTime e; muyuStartTime := muyuStartTime e;
     textManager := textManager e |}.

Definition setIsLooping (b : bool) (e : Engine) : Engine :=
  {| audioFiles := audioFiles e; isPlaying := isPlaying e; isPaused := isPaused e;
     isLooping := b; playbackSpeed := playbackSpeed e;
     currentSequence := currentSequence e; sequenceIndex := sequenceIndex e;
     sequenceStartTime := sequenceStartTime e; muyuStartTime := muyuStartTime e;
     textManager := textManager e |}.

Definition setSpeed (s : float) (e : Engine) : Engine :=
  {| audioFiles := audioFiles e; isPlaying := isPlaying e; isPaused := isPaused e;
     isLooping := isLooping e; playbackSpeed := s;
     currentSequence := currentSequence e; sequenceIndex := sequenceIndex e;
     sequenceStartTime := sequenceStartTime e; muyuStartTime := muyuStartTime e;
     textManager := textManager e |}.

Definition setSequence (s : option (list PlayEvent)) (e : Engine) : Engine :=
  {| audioFiles := audioFiles e; isPlaying := isPlaying e; isPaused := isPaused e;
     isLooping := isLooping e; playbackSpeed := playbackSpeed e;
     currentSequence := s; sequenceIndex := sequenceIndex e;
     sequenceStartTime := sequenceStartTime e; muyuStartTime := muyuStartTime e;
     textManager := textManager e |}.

Definition setSequenceIndex (n : nat) (e : Engine) : Engine :=
  {| audioFiles := audioFiles e; isPlaying := isPlaying e; isPaused := isPaused e;
     isLooping := isLooping e; playbackSpeed := playbackSpeed e;
     currentSequence := currentSequence e; sequenceIndex := n;
     sequenceStartTime := sequenceStartTime e; muyuStartTime := muyuStartTime e;
     textManager := textManager e |}.

Definition setSequenceStartTime (t : float) (e : Engine) : Engine :=
  {| audioFiles := audioFiles e; isPlaying := isPlaying e; isPaused := isPaused e;
     isLooping := isLooping e; playbackSpeed := playbackSpeed e;
     currentSequence := currentSequence e; sequenceIndex := sequenceIndex e;
     sequenceStartTime := t; muyuStartTime := muyuStartTime e;
     textManager := textManager e |}.

Definition setMuyuStartTime (t : float) (e : Engine) : Engine :=
  {| audioFiles := audioFiles e; isPlaying := isPlaying e; isPaused := isPaused e;
     isLooping := isLooping e; playbackSpeed := playbackSpeed e;
     currentSequence := currentSequence e; sequenceIndex := sequenceIndex e;
     sequenceStartTime := sequenceStartTime e; muyuStartTime := Some t;
     textManager := textManager e |}.

Definition setTextManager (characters : list CharData) (e : Engine) : Engine :=
  {| audioFiles := audioFiles e; isPlaying := isPlaying e; isPaused := isPaused e;
     isLooping := isLooping e; playbackSpeed := playbackSpeed e;
     currentSequence := currentSequence e; sequenceIndex := sequenceIndex e;
     sequenceStartTime := sequenceStartTime e; muyuStartTime := muyuStartTime e;
     textManager := Some characters |}.

Definition clearAudioFiles (e : Engine) : Engine :=
  {| audioFiles := ∅; isPlaying := isPlaying e; isPaused := isPaused e;
     isLooping := isLooping e; playbackSpeed := playbackSpeed e;
     currentSequence := currentSequence e; sequenceIndex := sequenceIndex e;
     sequenceStartTime := sequenceStartTime e; muyuStartTime := muyuStartTime e;
     textManager := textManager e |}.

(** ** What an observer sees *)

Inductive JsError :=
| AbortError                     (* play() interrupted by pause() *)
| NotAllowedError                (* play() refused by the browser *)
| AudioNotFound (key : string)   (* `音频文件未找到: ${audioKey}` *)
| EmptyText                      (* '无效的文本管理器或空文本' *)
| TypeError.                     (* a property read on null *)

(** [error.name === 'AbortError'] *)
Definition isAbort (err : JsError) : bool :=
  match err with
  | AbortError => true
  | _ => false
  end.

(** How the first phase ended: the [ended] event arrived, the play promise was
    aborted by a stop, [playAudio] returned at once, or the sequence has no
    start cue. *)
Inductive Settled := Ended | Interrupted | Skipped | NoStartCue.

Inductive Warning :=
| AlreadyPlaying                    (* '播放已在进行中' *)
| SpeedOutOfRange (speed : float)   (* '播放速度超出范围 (0.1-10.0):' *)
| NothingToToggle.                  (* '无法切换播放状态：需要先开始播放' *)

(** Callbacks of the host ([onPlayStateChange], [onSequenceProgress],
    [onSequenceComplete], [onError]), calls into the text manager, calls into
    the audio elements, and marks of the scheduler's own progress.  The host
    installs the four callbacks before any playback
    ([UIController.setupCallbacks]), so the guards [if (this.onError)] and the
    like of the notifying methods succeed. *)
Inductive Event :=
| PlayStateChange (playing paused : bool)
| SequenceProgress (index : nat) (event : PlayEvent) (total : nat)
| SequenceComplete
| ErrorRaised (err : JsError)
| Thrown (err : JsError)                 (* the call rejected towards its caller *)
| HighlightCharacter (charIndex : nat)
| ResetPosition
| ClearHighlight
| AudioPlay (key : string) (noWait : bool) (* audio.play() returned its promise *)
| AudioPlayRejected (key : string) (err : JsError) (* that promise rejected, fire and forget *)
| AudioHalted                            (* every audio element paused and rewound *)
| ConsoleWarn (warning : Warning)        (* console.warn *)
| StartCueSettled (how : Settled)        (* the first phase is over *)
| AnchorRecorded (t : float)             (* muyuStartTime = Date.now() *)
| Dispatch (i : nat)                     (* periodic cue i handed to playAudio *)
| RestartScheduled (ms : nat).           (* setTimeout(..., 1000) *)

(** What the environment decides during one run of the event loop: the
    readings of [Date.now()] and the fate of [audio.play()]. *)
Inductive PlayOutcome :=
| PlayThrows (err : JsError)             (* the try block raised synchronously *)
| PlayStarted (fate : option JsError).   (* a promise; [Some err] when it rejects *)

Record Env := {
  callNow : float;                (* Date.now() in a public method *)
  timerNow : float;               (* Date.now() in a timer callback of checkAndWait *)
  anchorNow : float;              (* Date.now() for muyuStartTime *)
  headNow : nat -> float;         (* currentTime of the iteration for cue i *)
  waitStart : nat -> float;       (* startTime of waitWithPauseSupport for cue i *)
  firstCheck : nat -> float;      (* Date.now() of its first, synchronous checkAndWait *)
  playStart : PlayOutcome;        (* audio.play() of the start cue *)
  plays : nat -> PlayOutcome;     (* audio.play() of cue i *)
  settle : option JsError         (* how an awaited play promise settled *)
}.

(** Where a suspended asynchronous call waits.  [MuyuPoll] and [SeqPoll] have a
    [setTimeout(checkAndWait, ...)] pending; the [Await] points wait for the
    play promise or for the element's [ended] event. *)
Inductive Pc :=
| BowlAwaitPlay (key : string)
| BowlAwaitEnded (key : string)
| MuyuPoll (muyuEvents : list PlayEvent) (i : nat) (startTime delay : float)
| SeqPoll (currentEvent : PlayEvent) (startTime delay : float)
| SeqAwaitPlay (currentEvent : PlayEvent)
| SeqAwaitEnded (currentEvent : PlayEvent)
| RestartTimer
| Finished.

(** The engine while one piece of synchronous code runs: the object, the
    events raised so far and the timers created. *)
Record World := {
  eng : Engine;
  out : list Event;
  spawned : list Pc
}.

Definition emit (ev : Event) (w : World) : World :=
  {| eng := eng w; out := out w ++ [ev]; spawned := spawned w |}.

Definition update (f : Engine -> Engine) (w : World) : World :=
  {| eng := f (eng w); out := out w; spawned := spawned w |}.

Definition spawn (pc : Pc) (w : World) : World :=
  {| eng := eng w; out := out w; spawned := spawned w ++ [pc] |}.

Inductive Completion :=
| Normal
| Throw (err : JsError).

(** ** Methods of the engine *)

Definition notifyPlayStateChange (playing : bool) (w : World) : World :=
  emit (PlayStateChange playing (isPaused (eng w))) w.

Definition notifySequenceComplete (w : World) : World :=
  emit SequenceComplete w.

Definition handleError (err : JsError) (w : World) : World :=
  emit (ErrorRaised err) w.

(** [notifySequenceProgress(index, event)]; reading [currentSequence.length]
    raises when the sequence has been cleared. *)
Definition notifySequenceProgress (index : nat) (event : PlayEvent) (w : World)
    : World * Completion :=
  let w1 :=
    match characterIndex event, textManager (eng w) with
    | Some c, Some _ => emit (HighlightCharacter c) w
    | _, _ => w
    end in
  match currentSequence (eng w1) with
  | Some sequence => (emit (SequenceProgress index event (length sequence)) w1, Normal)
  | None => (w1, Throw TypeError)
  end.

(** The [catch] block of [playAudio]. *)
Definition playAudioCatch (err : JsError) (w : World) : World * Completion :=
  if isAbort err && negb (isPlaying (eng w)) then (w, Normal)
  else (handleError err w, Throw err).

(** [playAudio(audioKey, true)]: the rejection handler of the play promise
    only writes to the console. *)
Definition playAudioNoWait (o : PlayOutcome) (audioKey : string) (w : World)
    : World * Completion :=
  if negb (isPlaying (eng w)) then (w, Normal)
  else if decide (audioKey ∈ audioFiles (eng w)) then
    match o with
    | PlayThrows err => playAudioCatch err w
    | PlayStarted None => (emit (AudioPlay audioKey true) w, Normal)
    | PlayStarted (Some err) =>
        (emit (AudioPlayRejected audioKey err) (emit (AudioPlay audioKey true) w), Normal)
    end
  else (handleError (AudioNotFound audioKey) w, Throw (AudioNotFound audioKey)).

(** [playAudio(audioKey, false)] up to [await playPromise]; [None] when the
    call is suspended there. *)
Definition playAudioStart (o : PlayOutcome) (audioKey : string) (w : World)
    : World * option Completion :=
  if negb (isPlaying (eng w)) then (w, Some Normal)
  else if decide (audioKey ∈ audioFiles (eng w)) then
    match o with
    | PlayThrows err =>
        let '(w1, c) := playAudioCatch err w in (w1, Some c)
    | PlayStarted _ => (emit (AudioPlay audioKey false) w, None)
    end
  else (handleError (AudioNotFound audioKey) w, Some (Throw (AudioNotFound audioKey))).

Definition stopPlayback (w : World) : World :=
  let w1 :=
    update (fun e => setSequenceIndex 0 (setSequence None (setPaused false (setPlaying false e)))) w in
  let w2 := emit AudioHalted w1 in
  let w3 :=
    match textManager (eng w2) with
    | Some _ => emit ResetPosition w2
    | None => w2
    end in
  notifyPlayStateChange false w3.

(** The [catch] of [startPlaybackSequence], of [resumePlayback] and of the
    restart timer: [handleError(error); stopPlayback()]. *)
Definition failPlayback (err : JsError) (w : World) : World :=
  stopPlayback (handleError err w).

Definition completePlayback (w : World) : World :=
  match isLooping (eng w), textManager (eng w) with
  | true, Some _ =>
      spawn RestartTimer (emit (RestartScheduled 1000) (emit ResetPosition w))
  | _, _ =>
      notifySequenceComplete
        (notifyPlayStateChange false
           (update (fun e => setPaused false (setPlaying false e)) w))
  end.

(** [checkAndWait] inside [waitWithPauseSupport(delay)]: [true] when it
    resolves, [false] when it sets the next timer (after 100 ms while paused,
    after [Math.min(remainingDelay, 100)] otherwise). *)
Definition checkAndWait (e : Engine) (startTime delay now : float) : bool :=
  if negb (isPlaying e) then true
  else if isPaused e then false
  else
    let elapsed := (now - startTime)%float in
    let remainingDelay := (delay - elapsed)%float in
    (remainingDelay <=? 0)%float.

Inductive LoopStep := Continue | Return.

(** The [catch] block in the loop of [executeMuyuSequence]. *)
Definition muyuCatch (err : JsError) (w : World) : World * LoopStep :=
  if isAbort err && negb (isPlaying (eng w)) then (w, Return)
  else (w, Continue).

(** One iteration of [executeMuyuSequence] from the check behind its wait. *)
Definition muyuAfterWait (env : Env) (i : nat) (event : PlayEvent) (w : World)
    : World * LoopStep :=
  if negb (isPlaying (eng w)) || isPaused (eng w) then (w, Return)
  else
    match playAudioNoWait (plays env i) (type event) (emit (Dispatch i) w) with
    | (w1, Normal) =>
        match notifySequenceProgress i event w1 with
        | (w2, Normal) => (w2, Continue)
        | (w2, Throw err) => muyuCatch err w2
        end
    | (w1, Throw err) => muyuCatch err w1
    end.

(** [executeMuyuSequence(muyuEvents)] from the head of iteration [i] until it
    is suspended in a wait or returns; [rest] is [muyuEvents.slice(i)]. *)
Fixpoint executeMuyuFrom (env : Env) (muyuEvents rest : list PlayEvent) (i : nat)
    (w : World) : World * Pc :=
  match rest with
  | [] => (completePlayback w, Finished)
  | event :: rest' =>
      if negb (isPlaying (eng w)) || isPaused (eng w) then (w, Finished)
      else
        let currentTime := headNow env i in
        let elapsedTime := (currentTime - Js.to_number (muyuStartTime (eng w)))%float in
        let waitTime := Js.max 0 (delay event - elapsedTime)%float in
        if (0 <? waitTime)%float
           && negb (checkAndWait (eng w) (waitStart env i) waitTime (firstCheck env i))
        then (w, MuyuPoll muyuEvents i (waitStart env i) waitTime)
        else
          match muyuAfterWait env i event w with
          | (w1, Continue) => executeMuyuFrom env muyuEvents rest' (S i) w1
          | (w1, Return) => (w1, Finished)
          end
  end.

Definition executeMuyuSequence (env : Env) (muyuEvents : list PlayEvent) (w : World)
    : World * Pc :=
  executeMuyuFrom env muyuEvents muyuEvents 0 w.

(** The second phase of [executeSequenceInPhases]. *)
Definition muyuPhase (env : Env) (w : World) : World * Pc :=
  match currentSequence (eng w) with
  | None => (failPlayback TypeError w, Finished)
  | Some sequence =>
      match List.filter isMuyu sequence with
      | [] => (w, Finished)
      | muyuEvents =>
          executeMuyuSequence env muyuEvents
            (emit (AnchorRecorded (anchorNow env))
               (update (setMuyuStartTime (anchorNow env)) w))
      end
  end.

Definition executeSequenceInPhases (env : Env) (w : World) : World * Pc :=
  match currentSequence (eng w) with
  | None => (failPlayback TypeError w, Finished)
  | Some sequence =>
      match List.find isStartBowl sequence with
      | Some bowlEvent =>
          match playAudioStart (playStart env) (type bowlEvent) w with
          | (w1, None) => (w1, BowlAwaitPlay (type bowlEvent))
          | (w1, Some Normal) => muyuPhase env (emit (StartCueSettled Skipped) w1)
          | (w1, Some (Throw err)) => (failPlayback err w1, Finished)
          end
      | None => muyuPhase env (emit (StartCueSettled NoStartCue) w)
      end
  end.

Definition startPlaybackSequence (env : Env) (sequence : list PlayEvent) (w : World)
    : World * Pc :=
  if isPlaying (eng w) then (emit (ConsoleWarn AlreadyPlaying) w, Finished)
  else
    let w1 :=
      update (fun e =>
        setSequenceStartTime (callNow env)
          (setPaused false (setPlaying true (setSequenceIndex 0
             (setSequence (Some sequence) e))))) w in
    executeSequenceInPhases env (notifyPlayStateChange true w1).

(** [createPlaybackSequence(textLength)] as a method: it reads
    [this.getCharacterData] and [this.playbackSpeed]. *)
Definition createPlaybackSequenceOf (e : Engine) (textLength : nat) : list PlayEvent :=
  createPlaybackSequence (characterLookup <$> textManager e) (playbackSpeed e) textLength.

(** [startPlayback(textManager)]; the argument is the manager's [characters],
    [None] for a missing manager. *)
Definition startPlayback (env : Env) (manager : option (list CharData)) (w : World)
    : World * Pc * Completion :=
  match manager with
  | None | Some [] => (handleError EmptyText w, Finished, Throw EmptyText)
  | Some characters =>
      let w1 := update (setTextManager characters) w in
      let sequence := createPlaybackSequenceOf (eng w1) (length characters) in
      (startPlaybackSequence env sequence w1, Normal)
  end.

(** *** The older executor, [executeSequence], which [resumePlayback] calls *)

(** [this.currentSequence.slice(this.sequenceIndex)]; empty exactly when
    [!this.currentSequence || this.sequenceIndex >= this.currentSequence.length]. *)
Definition remainingSequence (e : Engine) : list PlayEvent :=
  match currentSequence e with
  | Some sequence => drop (sequenceIndex e) sequence
  | None => []
  end.

(** After [playAudio]: notify, [this.sequenceIndex++]; [None] when the
    recursive call follows, [Some pc] when the call chain ends or is
    suspended. *)
Definition seqAdvance (currentEvent : PlayEvent) (w : World) : World * option Pc :=
  match notifySequenceProgress (sequenceIndex (eng w)) currentEvent w with
  | (w1, Normal) => (update (fun e => setSequenceIndex (S (sequenceIndex e)) e) w1, None)
  | (w1, Throw err) => (failPlayback err w1, Some Finished)
  end.

(** [executeSequence] from the check behind its wait. *)
Definition seqAfterWait (env : Env) (currentEvent : PlayEvent) (w : World)
    : World * option Pc :=
  if negb (isPlaying (eng w)) || isPaused (eng w) then (w, Some Finished)
  else if noWait currentEvent then
    match playAudioNoWait (plays env (sequenceIndex (eng w))) (type currentEvent) w with
    | (w1, Normal) => seqAdvance currentEvent w1
    | (w1, Throw err) => (failPlayback err w1, Some Finished)
    end
  else
    match playAudioStart (plays env (sequenceIndex (eng w))) (type currentEvent) w with
    | (w1, None) => (w1, Some (SeqAwaitPlay currentEvent))
    | (w1, Some Normal) => seqAdvance currentEvent w1
    | (w1, Some (Throw err)) => (failPlayback err w1, Some Finished)
    end.

(** The recursion of [executeSequence]; [rest] is [remainingSequence]. *)
Fixpoint executeSequenceFrom (env : Env) (rest : list PlayEvent) (w : World)
    : World * Pc :=
  match rest with
  | [] => (completePlayback w, Finished)
  | currentEvent :: rest' =>
      let currentTime := headNow env (sequenceIndex (eng w)) in
      let elapsedTime := (currentTime - sequenceStartTime (eng w))%float in
      let waitTime := Js.max 0 (delay currentEvent - elapsedTime)%float in
      let startTime := waitStart env (sequenceIndex (eng w)) in
      if (0 <? waitTime)%float
         && negb (checkAndWait (eng w) startTime waitTime (firstCheck env (sequenceIndex (eng w))))
      then (w, SeqPoll currentEvent startTime waitTime)
      else
        match seqAfterWait env currentEvent w with
        | (w1, None) => executeSequenceFrom env rest' w1
        | (w1, Some pc) => (w1, pc)
        end
  end.

Definition executeSequence (env : Env) (w : World) : World * Pc :=
  executeSequenceFrom env (remainingSequence (eng w)) w.

(** [executeSequence] resumed behind its wait or behind [playAudio]. *)
Definition seqResume (env : Env) (step : World * option Pc) : World * Pc :=
  match step with
  | (w1, None) => executeSequence env w1
  | (w1, Some pc) => (w1, pc)
  end.

(** *** The public methods *)

Definition pausePlayback (w : World) : World :=
  if isPlaying (eng w) && negb (isPaused (eng w))
  then notifyPlayStateChange false (update (setPaused true) w)
  else w.

Definition resumePlayback (env : Env) (w : World) : World * Pc :=
  if isPlaying (eng w) && isPaused (eng w)
  then executeSequence env (notifyPlayStateChange true (update (setPaused false) w))
  else (w, Finished).

Definition resetPlayback (w : World) : World :=
  let w1 := stopPlayback w in
  match textManager (eng w1) with
  | Some _ => emit ResetPosition (emit ClearHighlight w1)
  | None => w1
  end.

Definition togglePlayback (env : Env) (w : World) : World * Pc :=
  if negb (isPlaying (eng w)) then (emit (ConsoleWarn NothingToToggle) w, Finished)
  else if isPaused (eng w) then resumePlayback env w
  else (pausePlayback w, Finished).

(** [adjustPlaybackSpeed(oldSpeed, newSpeed)], [now] being its [Date.now()]. *)
Definition adjustPlaybackSpeed (now oldSpeed newSpeed : float) (e : Engine) : Engine :=
  if negb (isPlaying e) then e
  else if negb (Js.truthy_opt (muyuStartTime e)) then e
  else
    let currentTime := now in
    let elapsedTime := (currentTime - Js.to_number (muyuStartTime e))%float in
    let speedRatio := (oldSpeed / newSpeed)%float in
    let adjustedElapsedTime := (elapsedTime * speedRatio)%float in
    setMuyuStartTime (currentTime - adjustedElapsedTime)%float e.

(** The bounds of [setPlaybackSpeed]: the doubles nearest to 0.1 and 10.0. *)
Definition minSpeed : float := 0x1.999999999999ap-4.
Definition maxSpeed : float := 10.

Definition setLooping (b : bool) (w : World) : World :=
  update (setIsLooping b) w.

Definition setPlaybackSpeed (now speed : float) (w : World) : World :=
  if (speed <? minSpeed)%float || (maxSpeed <? speed)%float
  then emit (ConsoleWarn (SpeedOutOfRange speed)) w
  else
    let oldSpeed := playbackSpeed (eng w) in
    let w1 := update (setSpeed speed) w in
    if isPlaying (eng w1)
    then update (adjustPlaybackSpeed now oldSpeed speed) w1
    else w1.

Definition dispose (w : World) : World :=
  update clearAudioFiles (stopPlayback w).

(** ** The event loop *)

(** A suspended call is resumed by its timer, by the settlement of the play
    promise or by the [ended] event. *)
Definition wake (env : Env) (pc : Pc) (w : World) : World * Pc :=
  match pc with
  | BowlAwaitPlay key =>
      match settle env with
      | None => (w, BowlAwaitEnded key)
      | Some err =>
          match playAudioCatch err w with
          | (w1, Normal) => muyuPhase env (emit (StartCueSettled Interrupted) w1)
          | (w1, Throw err') => (failPlayback err' w1, Finished)
          end
      end
  | BowlAwaitEnded _ => muyuPhase env (emit (StartCueSettled Ended) w)
  | MuyuPoll muyuEvents i startTime delay =>
      if checkAndWait (eng w) startTime delay (timerNow env) then
        match drop i muyuEvents with
        | event :: rest' =>
            match muyuAfterWait env i event w with
            | (w1, Continue) => executeMuyuFrom env muyuEvents rest' (S i) w1
            | (w1, Return) => (w1, Finished)
            end
        | [] => (w, Finished)
        end
      else (w, pc)
  | SeqPoll currentEvent startTime delay =>
      if checkAndWait (eng w) startTime delay (timerNow env)
      then seqResume env (seqAfterWait env currentEvent w)
      else (w, pc)
  | SeqAwaitPlay currentEvent =>
      match settle env with
      | None => (w, SeqAwaitEnded currentEvent)
      | Some err =>
          match playAudioCatch err w with
          | (w1, Normal) => seqResume env (seqAdvance currentEvent w1)
          | (w1, Throw err') => (failPlayback err' w1, Finished)
          end
      end
  | SeqAwaitEnded currentEvent => seqResume env (seqAdvance currentEvent w)
  | RestartTimer =>
      match startPlayback env (textManager (eng w)) w with
      | (w1, pc1, Normal) => (w1, pc1)
      | (w1, _, Throw err) => (failPlayback err w1, Finished)
      end
  | Finished => (w, Finished)
  end.

Inductive Api :=
| StartPlayback (manager : option (list CharData))
| StartPlaybackSequence (sequence : list PlayEvent)
| PausePlayback
| ResumePlayback
| StopPlayback
| ResetPlayback
| TogglePlayback
| SetLooping (b : bool)
| SetPlaybackSpeed (speed : float)
| Dispose.

Definition call (env : Env) (api : Api) (w : World) : World * Pc :=
  match api with
  | StartPlayback manager =>
      match startPlayback env manager w with
      | (w1, pc, Normal) => (w1, pc)
      | (w1, pc, Throw err) => (emit (Thrown err) w1, pc)
      end
  | StartPlaybackSequence sequence => startPlaybackSequence env sequence w
  | PausePlayback => (pausePlayback w, Finished)
  | ResumePlayback => resumePlayback env w
  | StopPlayback => (stopPlayback w, Finished)
  | ResetPlayback => (resetPlayback w, Finished)
  | TogglePlayback => togglePlayback env w
  | SetLooping b => (setLooping b w, Finished)
  | SetPlaybackSpeed speed => (setPlaybackSpeed (callNow env) speed w, Finished)
  | Dispose => (dispose w, Finished)
  end.

(** Every call of a public method and every timer is an activation with a
    number of its own; the trace tags each event with the activation that
    raised it. *)
Record Config := {
  engine : Engine;
  tasks : list Pc;
  trace : list (nat * Event)
}.

Inductive Action :=
| Call (api : Api)
| Wake (tid : nat).

Definition tag (tid : nat) (events : list Event) : list (nat * Event) :=
  map (pair tid) events.

Definition enter (e : Engine) : World :=
  {| eng := e; out := []; spawned := [] |}.

Definition step (c : Config) (input : Action * Env) : Config :=
  match input with
  | (Call api, env) =>
      let tid := length (tasks c) in
      let '(w, pc) := call env api (enter (engine c)) in
      {| engine := eng w;
         tasks := tasks c ++ pc :: spawned w;
         trace := trace c ++ tag tid (out w) |}
  | (Wake tid, env) =>
      match tasks c !! tid with
      | Some pc =>
          let '(w, pc') := wake env pc (enter (engine c)) in
          {| engine := eng w;
             tasks := <[tid := pc']> (tasks c) ++ spawned w;
             trace := trace c ++ tag tid (out w) |}
      | None => c
      end
  end.

Definition run (inputs : list (Action * Env)) (c : Config) : Config :=
  foldl step c inputs.

Definition initial (loaded : gset string) : Config :=
  {| engine := newEngine loaded; tasks := []; trace := [] |}.

(** The events of one activation, in order. *)
Definition eventsOf (tid : nat) (t : list (nat * Event)) : list Event :=
  omap (fun entry => if decide (entry.1 = tid) then Some entry.2 else None) t.

(** ** The text manager ([LyricsTextManager]) *)

(** The part of [this.config] that scrolling reads. *)
Record DisplayConfig := {
  currentLinePosition : Z;
  lineHeight : Z
}.

(** [charElements] are the character spans that [renderLyrics] created, by
    their [data-char-index], each with its class list; [lineElements] are the
    [.lyrics-line] elements in document order.  [linesContainer] holds the
    offset of its [translateY] and is [None] while the container is missing.
    [scrolled] lists the lines that [scrollToCurrentLine] was called for. *)
Record TextManager := {
  characters : list CharData;
  currentCharIndex : nat;
  currentLineIndex : nat;
  isHighlightEnabled : bool;
  config : DisplayConfig;
  charElements : gmap nat (gset string);
  lineElements : list (gset string);
  linesContainer : option Z;
  scrolled : list nat
}.

Definition setCharElements (els : gmap nat (gset string)) (m : TextManager) : TextManager :=
  {| characters := characters m; currentCharIndex := currentCharIndex m;
     currentLineIndex := currentLineIndex m; isHighlightEnabled := isHighlightEnabled m;
     config := config m; charElements := els; lineElements := lineElements m;
     linesContainer := linesContainer m; scrolled := scrolled m |}.

Definition setLineElements (els : list (gset string)) (m : TextManager) : TextManager :=
  {| characters := characters m; currentCharIndex := currentCharIndex m;
     currentLineIndex := currentLineIndex m; isHighlightEnabled := isHighlightEnabled m;
     config := config m; charElements := charElements m; lineElements := els;
     linesContainer := linesContainer m; scrolled := scrolled m |}.

Definition setCurrentCharIndex (n : nat) (m : TextManager) : TextManager :=
  {| characters := characters m; currentCharIndex := n;
     currentLineIndex := currentLineIndex m; isHighlightEnabled := isHighlightEnabled m;
     config := config m; charElements := charElements m; lineElements := lineElements m;
     linesContainer := linesContainer m; scrolled := scrolled m |}.

Definition setCurrentLineIndex (n : nat) (m : TextManager) : TextManager :=
  {| characters := characters m; currentCharIndex := currentCharIndex m;
     currentLineIndex := n; isHighlightEnabled := isHighlightEnabled m;
     config := config m; charElements := charElements m; lineElements := lineElements m;
     linesContainer := linesContainer m; scrolled := scrolled m |}.

Definition setHighlightFlag (b : bool) (m : TextManager) : TextManager :=
  {| characters := characters m; currentCharIndex := currentCharIndex m;
     currentLineIndex := currentLineIndex m; isHighlightEnabled := b;
     config := config m; charElements := charElements m; lineElements := lineElements m;
     linesContainer := linesContainer m; scrolled := scrolled m |}.

Definition setScroll (offset : option Z) (log : list nat) (m : TextManager) : TextManager :=
  {| characters := characters m; currentCharIndex := currentCharIndex m;
     currentLineIndex := currentLineIndex m; isHighlightEnabled := isHighlightEnabled m;
     config := config m; charElements := charElements m; lineElements := lineElements m;
     linesContainer := offset; scrolled := log |}.

(** [classList.add] and [classList.remove] *)
Definition classAdd (c : string) (classes : gset string) : gset string :=
  classes ∪ {[c]}.

Definition classRemove (c : string) (classes : gset string) : gset string :=
  classes ∖ {[c]}.

(** [querySelectorAll('.highlighted')] reaches every element below the
    display element. *)
Definition clearHighlight (m : TextManager) : TextManager :=
  setLineElements (classRemove "highlighted" <$> lineElements m)
    (setCharElements (classRemove "highlighted" <$> charElements m) m).

Definition scrollToCurrentLine (m : TextManager) : TextManager :=
  let log := (scrolled m ++ [currentLineIndex m])%list in
  match linesContainer m with
  | None => setScroll None log m
  | Some _ =>
      let targetPosition := (Z.of_nat (currentLineIndex m) - currentLinePosition (config m))%Z in
      let scrollOffset := (Z.max 0 targetPosition * lineHeight (config m))%Z in
      setScroll (Some scrollOffset) log m
  end.

(** The body of the [forEach] of [updateLineStates]. *)
Definition lineState (current index : nat) (classes : gset string) : gset string :=
  let cleared := classRemove "prev" (classRemove "next" (classRemove "current" classes)) in
  if decide (index = current) then classAdd "current" cleared
  else if decide (index = current + 1) then classAdd "next" cleared
  else if decide (S index = current) then classAdd "prev" cleared
  else cleared.

Definition updateLineStates (m : TextManager) : TextManager :=
  setLineElements (imap (lineState (currentLineIndex m)) (lineElements m)) m.

(** The body of the loop that marks the characters before the current one. *)
Definition markCompleted (els : gmap nat (gset string)) (i : nat) : gmap nat (gset string) :=
  alter (fun classes => classRemove "highlighted" (classAdd "completed" classes)) i els.

Definition highlightCharacter (charIndex : Z) (m : TextManager) : TextManager :=
  if negb (isHighlightEnabled m) || (charIndex <? 0)%Z
     || (Z.of_nat (length (characters m)) <=? charIndex)%Z
  then m
  else
    let m1 := clearHighlight m in
    match characters m1 !! Z.to_nat charIndex with
    | None => m1                       (* not reached: the index is in range *)
    | Some charData =>
        let newLineIndex := lineIndex charData in
        let m2 := setCurrentCharIndex (Z.to_nat charIndex) m1 in
        let m3 :=
          if decide (newLineIndex = currentLineIndex m2) then m2
          else scrollToCurrentLine (setCurrentLineIndex newLineIndex m2) in
        let m4 :=
          setCharElements (alter (classAdd "highlighted") (Z.to_nat charIndex) (charElements m3)) m3 in
        let m5 :=
          setCharElements (foldl markCompleted (charElements m4) (seq 0 (Z.to_nat charIndex))) m4 in
        updateLineStates m5
    end.

Definition jumpToPosition (charIndex : Z) (m : TextManager) : TextManager :=
  if (0 <=? charIndex)%Z && (charIndex <? Z.of_nat (length (characters m)))%Z
  then highlightCharacter charIndex m
  else m.

Definition setHighlightEnabled (enabled : bool) (m : TextManager) : TextManager :=
  let m1 := setHighlightFlag enabled m in
  if enabled then m1 else clearHighlight m1.

(** Every loaded character has its span: the state after [renderLyrics]. *)
Definition rendered (m : TextManager) : Prop :=
  ∀ i : nat, i < length (characters m) → is_Some (charElements m !! i).

Definition hasClass (c : string) (m : TextManager) (i : nat) : Prop :=
  ∃ classes : gset string, charElements m !! i = Some classes ∧ c ∈ classes.

Local Close Scope string_scope.

(** ** Vocabulary of the statements *)

(** A verbal unit: neither punctuation nor space. *)
Definition isVerbal (c : CharData) : bool :=
  negb (isPunctuation c) && negb (isSpace c).

(** The positions of the verbal units of a text, in text order; [i] is the
    position of the first character of [chars]. *)
Fixpoint verbalFrom (i : nat) (chars : list CharData) : list nat :=
  match chars with
  | [] => []
  | c :: chars' =>
      if isVerbal c then i :: verbalFrom (S i) chars' else verbalFrom (S i) chars'
  end.

Definition verbalIndices (chars : list CharData) : list nat :=
  verbalFrom 0 chars.

(** ** Scenarios *)

(** An engine in its periodic phase, anchored at [anchor], at speed 1. *)
Definition playingSince (anchor : float) : Engine :=
  setMuyuStartTime anchor (setPlaying true (newEngine ∅)).

(** A run of the event loop in which every clock reading is [t] and the audio
    elements play without failure. *)
Definition quietEnv (t : float) : Env := {|
  callNow := t; timerNow := t; anchorNow := t;
  headNow := fun _ => t; waitStart := fun _ => t; firstCheck := fun _ => t;
  playStart := PlayStarted None; plays := fun _ => PlayStarted None;
  settle := None
|}.

(** Three characters on two lines, rendered, nothing marked yet. *)
Definition sampleChar (i line : nat) : CharData := {|
  char := 0; index := i; lineIndex := line; positionInLine := 0;
  isPunctuation := false; isSpace := false
|}.

Definition sampleManager : TextManager := {|
  characters := [sampleChar 0 0; sampleChar 1 0; sampleChar 2 1];
  currentCharIndex := 0;
  currentLineIndex := 0;
  isHighlightEnabled := true;
  config := {| currentLinePosition := 4; lineHeight := 55 |};
  charElements := {[ 0 := ∅; 1 := ∅; 2 := ∅ ]};
  lineElements := [∅; ∅];
  linesContainer := Some 0%Z;
  scrolled := []
|}.

(** A punctuation mark, as a text manager that keeps them would hand it over. *)
Definition punctuationMark (i line : nat) : CharData := {|
  char := 0; index := i; lineIndex := line; positionInLine := 0;
  isPunctuation := true; isSpace := false
|}.

(** Both audio files loaded, a text of three characters. *)
Definition bothFiles : gset string := {[ "muyu"%string; "bowl"%string ]}.

Definition sampleText : list CharData :=
  [sampleChar 0 0; sampleChar 1 0; sampleChar 2 1].

Definition sampleSequence : list PlayEvent :=
  createPlaybackSequence (Some (characterLookup sampleText)) 1 (length sampleText).

(** Playback of [sampleText] was started at 1000 ms; the start cue sounds. *)
Definition startCueSounding : Config :=
  run [(Call (StartPlayback (Some sampleText)), quietEnv 1000);
       (Wake 0, quietEnv 1010)] (initial bothFiles).

(** As [quietEnv], but [audio.play()] of cue [k] has the outcome [failure]. *)
Definition failingEnv (t : float) (k : nat) (failure : PlayOutcome) : Env := {|
  callNow := t; timerNow := t; anchorNow := t;
  headNow := fun _ => t; waitStart := fun _ => t; firstCheck := fun _ => t;
  playStart := PlayStarted None;
  plays := fun j => if Nat.eqb j k then failure else PlayStarted None;
  settle := None
|}.

(** The start cue ends at 3000 ms; timers run at 3100, 4000 and 5000 ms. *)
Definition wakesAt (k : nat) (failure : PlayOutcome) : list Env :=
  [failingEnv 3000 k failure; failingEnv 3100 k failure;
   failingEnv 4000 k failure; failingEnv 5000 k failure].

(** The play promise of cue 1 rejects. *)
Definition sampleWakes : list Env := wakesAt 1 (PlayStarted (Some NotAllowedError)).


(** The same readings, with every cue sounding. *)
Definition quietWakes : list Env :=
  [quietEnv 3000; quietEnv 3100; quietEnv 4000; quietEnv 5000].

(** The start cue of [startCueSounding] has ended at 3000 ms: cue 0 is out,
    the loop waits for cue 1. *)
Definition waitingForCue1 : list (Action * Env) :=
  [(Call (StartPlayback (Some sampleText)), quietEnv 1000);
   (Wake 0, quietEnv 1010); (Wake 0, quietEnv 3000)].

(** What one call does to the class list of the span of character [i]. *)
Definition highlightedClasses (n i : nat) (classes : gset string) : gset string :=
  if decide (i < n)
  then classRemove "highlighted" (classAdd "completed" (classRemove "highlighted" classes))
  else if decide (i = n) then classAdd "highlighted" (classRemove "highlighted" classes)
  else classRemove "highlighted" classes.

(** ** The order of the events of one activation *)

(** The periodic cues that an activation handed to the player, in order. *)
Definition dispatched (events : list Event) : list nat :=
  omap (fun ev => match ev with Dispatch i => Some i | _ => None end) events.

(** What an activation has done so far: whether it started the blocking
    playback of a start cue, how its first phase ended, whether it recorded
    the anchor, and how many periodic cues it dispatched. *)
Record Stage := {
  startPlayed : bool;
  settledAs : option Settled;
  anchored : bool;
  cues : nat
}.

Definition firstStage : Stage :=
  {| startPlayed := false; settledAs := None; anchored := false; cues := 0 |}.

(** The first phase ends by [Ended] or [Interrupted] exactly when the start
    cue was played. *)
Definition afterPlayback (how : Settled) : bool :=
  match how with
  | Ended | Interrupted => true
  | Skipped | NoStartCue => false
  end.

(** Periodic cues follow a start cue that ended, or a sequence without one. *)
Definition mayDispatch (how : option Settled) : bool :=
  match how with
  | Some Ended | Some NoStartCue => true
  | _ => false
  end.

(** The order that the scheduler has to keep: an event is accepted only in a
    stage that allows it. *)
Definition stageStep (s : Stage) (ev : Event) : option Stage :=
  match ev with
  | AudioPlay _ false =>
      match settledAs s with
      | Some _ => None
      | None =>
          Some {| startPlayed := true; settledAs := None;
                  anchored := anchored s; cues := cues s |}
      end
  | StartCueSettled how =>
      match settledAs s with
      | Some _ => None
      | None =>
          if negb (anchored s) && Nat.eqb (cues s) 0
             && Bool.eqb (afterPlayback how) (startPlayed s)
          then Some {| startPlayed := startPlayed s; settledAs := Some how;
                       anchored := false; cues := 0 |}
          else None
      end
  | AnchorRecorded _ =>
      match settledAs s with
      | Some _ =>
          if negb (anchored s) && Nat.eqb (cues s) 0
          then Some {| startPlayed := startPlayed s; settledAs := settledAs s;
                       anchored := true; cues := 0 |}
          else None
      | None => None
      end
  | Dispatch i =>
      if anchored s && mayDispatch (settledAs s) && Nat.eqb i (cues s)
      then Some {| startPlayed := startPlayed s; settledAs := settledAs s;
                   anchored := true; cues := S (cues s) |}
      else None
  | _ => Some s
  end.

Definition advance (s : option Stage) (events : list Event) : option Stage :=
  foldl (fun os ev => os ≫= fun s => stageStep s ev) s events.

(** The stage after the events [before] of an activation and the events that
    the running code has raised since. *)
Definition track (before : list Event) (w : World) : option Stage :=
  advance (Some firstStage) (before ++ out w).

(** The stage that a suspended activation must be in. *)
Definition fits (pc : Pc) (s : Stage) : Prop :=
  match pc with
  | BowlAwaitPlay _ | BowlAwaitEnded _ =>
      startPlayed s = true ∧ settledAs s = None ∧ anchored s = false ∧ cues s = 0
  | MuyuPoll muyuEvents i _ _ =>
      anchored s = true ∧ mayDispatch (settledAs s) = true ∧ cues s = i
      ∧ i < length muyuEvents
  | RestartTimer => s = firstStage
  | SeqPoll _ _ _ | SeqAwaitPlay _ | SeqAwaitEnded _ =>
      settledAs s = None ∧ anchored s = false ∧ cues s = 0
  | Finished => True
  end.

(** Events that every stage accepts and that change no stage. *)
Definition quietEvent (ev : Event) : bool :=
  match ev with
  | AudioPlay _ false | StartCueSettled _ | AnchorRecorded _ | Dispatch _ => false
  | _ => true
  end.

(** Only [completePlayback] creates a timer, the one of the restart. *)
Definition timersOnly (w : World) : Prop :=
  Forall (fun pc => pc = RestartTimer) (spawned w).

(** Code that raises quiet events only. *)
Definition quietly (w w' : World) : Prop :=
  (∀ before, track before w' = track before w) ∧ (timersOnly w → timersOnly w').

(** The stage of an activation inside its periodic loop, before cue [i]. *)
Definition loopStage (s : Stage) (i : nat) : Prop :=
  anchored s = true ∧ is_Some (settledAs s) ∧ cues s = i.

Definition legacyStage (s : Stage) : Prop :=
  settledAs s = None ∧ anchored s = false ∧ cues s = 0.

Definition legacyPc (pc : Pc) : Prop :=
  match pc with
  | SeqPoll _ _ _ | SeqAwaitPlay _ | SeqAwaitEnded _ | Finished => True
  | _ => False
  end.

Definition summarises (s : Stage) (events : list Event) : Prop :=
  dispatched events = seq 0 (cues s)
  ∧ (anchored s = true ↔ ∃ t, AnchorRecorded t ∈ events)
  ∧ (∀ how, settledAs s = Some how ↔ StartCueSettled how ∈ events)
  ∧ (startPlayed s = true ↔ ∃ key, AudioPlay key false ∈ events)
  ∧ (∀ how, settledAs s = Some how → afterPlayback how = startPlayed s)
  ∧ (anchored s = false → cues s = 0).

(** The events of activation [tid] so far are in order and end in stage [s]. *)
Definition accepted (c : Config) (tid : nat) (s : Stage) : Prop :=
  advance (Some firstStage) (eventsOf tid (trace c)) = Some s.

Definition Inv (c : Config) : Prop :=
  (∀ tid ev, (tid, ev) ∈ trace c → tid < length (tasks c))
  ∧ (∀ tid pc, tasks c !! tid = Some pc → ∃ s, accepted c tid s ∧ fits pc s).

(** The indices that [onSequenceProgress] was called with, and the characters
    that [highlightCharacter] was called for, in order. *)
Definition progressed (events : list Event) : list nat :=
  omap (fun ev => match ev with SequenceProgress i _ _ => Some i | _ => None end) events.

Definition highlightedChars (events : list Event) : list nat :=
  omap (fun ev => match ev with HighlightCharacter c => Some c | _ => None end) events.

(** The errors that [onError] was called with, in order. *)
Definition raisedErrors (events : list Event) : list JsError :=
  omap (fun ev => match ev with ErrorRaised err => Some err | _ => None end) events.

Definition raise (events : list Event) (w : World) : World :=
  {| eng := eng w; out := out w ++ events; spawned := spawned w |}.












(** The fields that the periodic loop leaves alone. *)
Definition sameSetup (e e' : Engine) : Prop :=
  textManager e' = textManager e ∧ audioFiles e' = audioFiles e
  ∧ isLooping e' = isLooping e.

(** The schedule that only resumes activation [tid]. *)
Definition wakes (tid : nat) (envs : list Env) : list (Action * Env) :=
  map (pair (Wake tid)) envs.


(** ** Loading a text ([LyricsTextManager.loadText], [parseTextToLines]) *)

Fixpoint dropWhile {A : Type} (p : A -> bool) (l : list A) : list A :=
  match l with
  | [] => []
  | x :: l' => if p x then dropWhile p l' else l
  end.

(** A JavaScript string is the sequence of its UTF-16 code units. *)
Module JsString.

Definition lineFeed : N := 10.
Definition carriageReturn : N := 13.

(** The code units that [trim] strips: WhiteSpace and LineTerminator. *)
Definition isWhiteSpace (c : N) : bool :=
  ((9 <=? c) && (c <=? 13) || (c =? 32) || (c =? 160) || (c =? 0x1680)
   || (0x2000 <=? c) && (c <=? 0x200a) || (c =? 0x2028) || (c =? 0x2029)
   || (c =? 0x202f) || (c =? 0x205f) || (c =? 0x3000) || (c =? 0xfeff))%N.

Definition trim (s : list N) : list N :=
  reverse (dropWhile isWhiteSpace (reverse (dropWhile isWhiteSpace s))).

(** [s.replace(/\r\n/g, '\n')] *)
Fixpoint replaceCRLF (s : list N) : list N :=
  match s with
  | [] => []
  | c :: rest =>
      match rest with
      | d :: rest' =>
          if ((c =? carriageReturn) && (d =? lineFeed))%N
          then lineFeed :: replaceCRLF rest'
          else c :: replaceCRLF rest
      | [] => [c]
      end
  end.

(** [s.replace(/\r/g, '\n')] *)
Definition replaceCR (s : list N) : list N :=
  map (fun c => if (c =? carriageReturn)%N then lineFeed else c) s.

(** [s.split(sep)] for a separator of one code unit; the empty string gives
    one empty piece. *)
Fixpoint split (sep : N) (s : list N) : list (list N) :=
  match s with
  | [] => [[]]
  | c :: rest =>
      if (c =? sep)%N then [] :: split sep rest
      else match split sep rest with
           | piece :: pieces => (c :: piece) :: pieces
           | [] => [[c]]
           end
  end.

Definition nonEmpty (s : list N) : bool :=
  negb (Nat.eqb (length s) 0).

(** [s.substring(start, end)] for non-negative integers: both are clamped
    to the length and swapped when [start] is the larger. *)
Definition substring (start finish : nat) (s : list N) : list N :=
  let a := Nat.min start (length s) in
  let b := Nat.min finish (length s) in
  take (Nat.max a b - Nat.min a b) (drop (Nat.min a b) s).

End JsString.

(** The character class of the two regular expressions: 。！？；：，、（）【】《》
    and the straight double and single quotation marks, each of which the
    source lists twice. *)
Definition punctuationUnits : list N :=
  [0x3002; 0xff01; 0xff1f; 0xff1b; 0xff1a; 0xff0c; 0x3001; 0x22; 0x22; 0x27; 0x27;
   0xff08; 0xff09; 0x3010; 0x3011; 0x300a; 0x300b]%N.

Definition punctuationUnit (c : N) : bool :=
  existsb (N.eqb c) punctuationUnits.

(** [isPunctuation(char)]: the regular expression is tested on a string. *)
Definition isPunctuationChar (char : list N) : bool :=
  existsb punctuationUnit char.

(** One entry of [this.lines]. *)
Module Line.
Record t := {
  text : list N;
  characters : list CharData;
  startCharIndex : nat;
  endCharIndex : nat
}.
End Line.

(** The fields of the class beside those of [TextManager], which stay in
    [base]. *)
Record LyricsTextManager := {
  base : TextManager;
  currentText : list N;
  lines : list Line.t
}.

Definition setBase (b : TextManager) (m : LyricsTextManager) : LyricsTextManager :=
  {| base := b; currentText := currentText m; lines := lines m |}.

Definition setCharacters (chars : list CharData) (m : TextManager) : TextManager :=
  {| characters := chars; currentCharIndex := currentCharIndex m;
     currentLineIndex := currentLineIndex m; isHighlightEnabled := isHighlightEnabled m;
     config := config m; charElements := charElements m; lineElements := lineElements m;
     linesContainer := linesContainer m; scrolled := scrolled m |}.

(** The chain of [replace], [split], [map] and [filter] at the head of
    [parseTextToLines]. *)
Definition originalLines (currentText : list N) : list (list N) :=
  List.filter JsString.nonEmpty
    (map (List.filter (fun c => negb (punctuationUnit c)))
       (List.filter JsString.nonEmpty
          (map JsString.trim
             (JsString.split JsString.lineFeed
                (JsString.replaceCR (JsString.replaceCRLF currentText)))))).

(** The body of the inner [for] loop: [lineChars], [this.characters] and
    [charIndex] while line [lineIndex] is read. *)
Definition pushCharacter (lineIndex : nat) (st : list CharData * list CharData * nat)
    (ch : N) : list CharData * list CharData * nat :=
  let '(lineChars, chars, charIndex) := st in
  let charData := {|
    char := ch; index := charIndex; lineIndex := lineIndex;
    positionInLine := length lineChars;
    isPunctuation := false; isSpace := false
  |} in
  (lineChars ++ [charData], chars ++ [charData], S charIndex).

(** The body of [originalLines.forEach]: [this.lines], [this.characters] and
    [charIndex]. *)
Definition pushLine (st : list Line.t * list CharData * nat) (lineText : list N)
    : list Line.t * list CharData * nat :=
  let '(lines, chars, charIndex) := st in
  let '(lineChars, chars', charIndex') :=
    foldl (pushCharacter (length lines)) ([], chars, charIndex) lineText in
  (lines ++ [{| Line.text := lineText;
                Line.characters := lineChars;
                Line.startCharIndex := from_option index 0 (head lineChars);
                Line.endCharIndex := from_option index 0 (last lineChars) |}],
   chars', charIndex').

Definition parseTextToLines (m : LyricsTextManager) : LyricsTextManager :=
  match currentText m with
  | [] => {| base := setCharacters [] (base m); currentText := []; lines := [] |}
  | _ =>
      match originalLines (currentText m) with
      | [] => {| base := setCharacters [] (base m); currentText := currentText m;
                 lines := [] |}
      | texts =>
          let '(lines, chars, _) := foldl pushLine ([], [], 0) texts in
          {| base := setCharacters chars (base m); currentText := currentText m;
             lines := lines |}
      end
  end.

(** ** Rendering and resetting ([renderLyrics], [resetPosition]) *)

(** The display element exists (the controller hands over
    [document.getElementById('text-display')]).  A container that
    [initializeLyricsDisplay] has just created is empty and carries no
    [transform], which shows as the offset 0. *)
Definition initializeLyricsDisplay (m : TextManager) : TextManager :=
  setScroll (Some 0%Z) (scrolled m) (setLineElements [] (setCharElements ∅ m)).

(** The classes of the span that [renderLyrics] creates for a character. *)
Definition spanClasses (c : CharData) : gset string :=
  {[ "lyrics-character"%string ]}
  ∪ (if isPunctuation c then {[ "punctuation"%string ]} else ∅)
  ∪ (if isSpace c then {[ "space"%string ]} else ∅).

(** [querySelector('[data-char-index=...]')] finds the first span in document
    order: a later span with the same index stays out of reach. *)
Definition appendSpan (els : gmap nat (gset string)) (c : CharData)
    : gmap nat (gset string) :=
  match els !! index c with
  | Some _ => els
  | None => <[index c := spanClasses c]> els
  end.

(** [applyCurrentFontSize] only touches the class list of the display
    element, which is not part of [TextManager]. *)
Definition renderLyrics (m : LyricsTextManager) : LyricsTextManager :=
  let b :=
    match linesContainer (base m) with
    | Some _ => base m
    | None => initializeLyricsDisplay (base m)
    end in
  match lines m with
  | [] =>
      setBase (setLineElements [{[ "lyrics-line"%string ]}] (setCharElements ∅ b)) m
  | _ =>
      let spans := foldl appendSpan ∅ (concat (map Line.characters (lines m))) in
      let lineDivs := map (fun _ => {[ "lyrics-line"%string ]} : gset string) (lines m) in
      setBase (updateLineStates (setLineElements lineDivs (setCharElements spans b))) m
  end.

(** [resetPosition] up to its [setTimeout]; the [transition] of the container
    is a matter of style only. *)
Definition resetPosition (m : TextManager) : TextManager :=
  let m1 := clearHighlight (setCurrentLineIndex 0 (setCurrentCharIndex 0 m)) in
  let m2 :=
    setLineElements (classRemove "completed" <$> lineElements m1)
      (setCharElements (classRemove "completed" <$> charElements m1) m1) in
  let m3 :=
    match linesContainer m2 with
    | Some _ => setScroll (Some 0%Z) (scrolled m2) m2
    | None => m2
    end in
  updateLineStates m3.

(** The callback of the [setTimeout(..., 50)] of [resetPosition]. *)
Definition resetPositionLater (m : TextManager) : TextManager :=
  match linesContainer m with
  | Some _ => setScroll (Some 0%Z) (scrolled m) m
  | None => m
  end.

(** [clear()] *)
Definition clear (m : LyricsTextManager) : LyricsTextManager :=
  let b := setCurrentLineIndex 0 (setCurrentCharIndex 0 (setCharacters [] (base m))) in
  {| base :=
       match linesContainer b with
       | Some _ => setLineElements [] (setCharElements ∅ b)
       | None => b
       end;
     currentText := [];
     lines := [] |}.

(** The three lines of [showTestContent]. *)
Definition showTestContent (m : TextManager) : TextManager :=
  match linesContainer m with
  | Some _ =>
      setLineElements
        [{[ "lyrics-line"%string; "current"%string ]};
         {[ "lyrics-line"%string; "next"%string ]};
         {[ "lyrics-line"%string ]}]
        (setCharElements ∅ m)
  | None => m
  end.

(** [loadText(text)] up to its [setTimeout]; [None] stands for a missing
    argument. *)
Definition loadText (text : option (list N)) (m : LyricsTextManager) : LyricsTextManager :=
  match text with
  | None => setBase (showTestContent (base m)) m
  | Some t =>
      if Nat.eqb (length t) 0 || Nat.eqb (length (JsString.trim t)) 0
      then setBase (showTestContent (base m)) m
      else parseTextToLines {| base := base m; currentText := t; lines := lines m |}
  end.

(** The callback of the [setTimeout(..., 100)] of [loadText]. *)
Definition loadTextLater (m : LyricsTextManager) : LyricsTextManager :=
  let m1 := renderLyrics m in
  setBase (resetPosition (base m1)) m1.

(** [getCurrentCharacter()] *)
Definition getCurrentCharacter (m : TextManager) : option CharData :=
  if Nat.ltb (currentCharIndex m) (length (characters m))
  then characters m !! currentCharIndex m
  else None.

(** *** Vocabulary for the loaded text *)

(** The characters of line [lineIndex] when [charIndex] characters came
    before it, and the entry of [this.lines] for it. *)
Definition lineCharacters (lineIndex charIndex : nat) (lineText : list N) : list CharData :=
  imap (fun i ch => {| char := ch; index := charIndex + i; lineIndex := lineIndex;
                       positionInLine := i; isPunctuation := false; isSpace := false |})
    lineText.

Definition lineOf (lineIndex charIndex : nat) (lineText : list N) : Line.t := {|
  Line.text := lineText;
  Line.characters := lineCharacters lineIndex charIndex lineText;
  Line.startCharIndex := from_option index 0 (head (lineCharacters lineIndex charIndex lineText));
  Line.endCharIndex := from_option index 0 (last (lineCharacters lineIndex charIndex lineText))
|}.

Fixpoint linesFrom (lineIndex charIndex : nat) (texts : list (list N)) : list Line.t :=
  match texts with
  | [] => []
  | lineText :: texts' =>
      lineOf lineIndex charIndex lineText
        :: linesFrom (S lineIndex) (charIndex + length lineText) texts'
  end.

(** A line that the chain of [parseTextToLines] leaves as it is: not empty,
    no line break, no punctuation, no white space at either end. *)
Definition cleanLine (lineText : list N) : Prop :=
  (∃ first, head lineText = Some first ∧ JsString.isWhiteSpace first = false)
  ∧ (∃ final, last lineText = Some final ∧ JsString.isWhiteSpace final = false)
  ∧ ∀ c, c ∈ lineText →
      punctuationUnit c = false ∧ c ≠ JsString.lineFeed ∧ c ≠ JsString.carriageReturn.

(** [texts.join('\n')] *)
Fixpoint joinLines (texts : list (list N)) : list N :=
  match texts with
  | [] => []
  | [lineText] => lineText
  | lineText :: texts' => lineText ++ JsString.lineFeed :: joinLines texts'
  end.

(** A manager that is handed a text of two lines, the second with a space
    inside. *)
Definition twoLines : LyricsTextManager := {|
  base := sampleManager;
  currentText := [0x4f5b; 0x8bf4; 10; 97; 32; 98]%N;
  lines := []
|}.

(** The text of [twoLines] was loaded and rendered; then [loadText] was
    called with a blank: the characters are kept, the spans are gone. *)
Definition blankAfterLoad : TextManager :=
  base (loadText (Some [32]%N) (loadTextLater (loadText (Some (currentText twoLines)) twoLines))).

(** The calls that move or remove the marks of a rendered text. *)
Inductive Marking :=
| Highlight (charIndex : Z)
| Jump (charIndex : Z)
| ClearMarks
| Reset
| ResetLater
| EnableHighlight (enabled : bool)
| Scroll
| UpdateLines.

Definition mark (m : TextManager) (call : Marking) : TextManager :=
  match call with
  | Highlight charIndex => highlightCharacter charIndex m
  | Jump charIndex => jumpToPosition charIndex m
  | ClearMarks => clearHighlight m
  | Reset => resetPosition m
  | ResetLater => resetPositionLater m
  | EnableHighlight enabled => setHighlightEnabled enabled m
  | Scroll => scrollToCurrentLine m
  | UpdateLines => updateLineStates m
  end.

(** At most one character is highlighted, and it is the current one. *)
Definition oneHighlight (m : TextManager) : Prop :=
  ∀ i, hasClass "highlighted" m i → i = currentCharIndex m.

(** The classes that the marking calls set and remove, on a character span
    and on a line. *)
Definition spanMarks : gset string := {[ "highlighted"%string; "completed"%string ]}.

Definition lineMarks : gset string :=
  {[ "highlighted"%string; "completed"%string; "current"%string; "next"%string;
     "prev"%string ]}.

(** Two states of a manager that differ in marks only. *)
Definition alike (m m' : TextManager) : Prop :=
  characters m' = characters m
  ∧ config m' = config m
  ∧ (is_Some (linesContainer m') ↔ is_Some (linesContainer m))
  ∧ (∀ i, option_Forall2 (fun a b : gset string => b ∖ spanMarks = a ∖ spanMarks)
            (charElements m !! i) (charElements m' !! i))
  ∧ Forall2 (fun a b : gset string => b ∖ lineMarks = a ∖ lineMarks)
      (lineElements m) (lineElements m').

(** ** The line breakers ([forceBreakLongSentence], [fixedLengthLineBreak]) *)

(** The loop [for (let i = 0; i < sentence.length; i += maxLength)] from
    [i] and with [chunks] collected, for a non-negative integer [maxLength];
    [None] when the loop has not ended after [fuel] rounds. *)
Fixpoint forceBreakFrom (fuel : nat) (sentence : list N) (maxLength i : nat)
    (chunks : list (list N)) : option (list (list N)) :=
  match fuel with
  | O => None
  | S fuel' =>
      if Nat.ltb i (length sentence)
      then forceBreakFrom fuel' sentence maxLength (i + maxLength)
             (chunks ++ [JsString.substring i (i + maxLength) sentence])
      else Some chunks
  end.

Definition forceBreakLongSentence (fuel : nat) (sentence : list N) (maxLength : nat)
    : option (list (list N)) :=
  forceBreakFrom fuel sentence maxLength 0 [].

Fixpoint fixedLengthFrom (fuel : nat) (text : list N) (maxLength i : nat)
    (lines : list (list N)) : option (list (list N)) :=
  match fuel with
  | O => None
  | S fuel' =>
      if Nat.ltb i (length text)
      then
        let line := JsString.substring i (i + maxLength) text in
        fixedLengthFrom fuel' text maxLength (i + maxLength)
          (if JsString.nonEmpty (JsString.trim line) then lines ++ [line] else lines)
      else Some lines
  end.

Definition fixedLengthLineBreak (fuel : nat) (text : list N) (maxLength : nat)
    : option (list (list N)) :=
  lines ← fixedLengthFrom fuel text maxLength 0 [];
  Some (if Nat.ltb 0 (length lines) then lines else [text]).

(** A chunk that [fixedLengthLineBreak] keeps. *)
Definition notBlank (line : list N) : bool :=
  JsString.nonEmpty (JsString.trim line).

(** ** Vocabulary for stopping and pausing *)

(** [stopPlayback] leaves the engine so. *)
Definition stopped (e : Engine) : Prop :=
  isPlaying e = false ∧ isPaused e = false ∧ currentSequence e = None
  ∧ sequenceIndex e = 0.

(** Events of a playback that goes on: a sound, a cue, progress, completion,
    a change to playing, the anchor, the restart. *)
Definition goesOn (ev : Event) : bool :=
  match ev with
  | AudioPlay _ _ | Dispatch _ | SequenceProgress _ _ _ | SequenceComplete
  | PlayStateChange true _ | AnchorRecorded _ | RestartScheduled _ => true
  | _ => false
  end.

(** A schedule of timers and audio events only. *)
Definition wakesOf (schedule : list (nat * Env)) : list (Action * Env) :=
  map (fun entry => (Wake entry.1, entry.2)) schedule.

(** The waits of the two executors. *)
Definition isPoll (pc : Pc) : bool :=
  match pc with
  | MuyuPoll _ _ _ _ | SeqPoll _ _ _ => true
  | _ => false
  end.

(** The calls that leave the older executor alone, and the places where the
    phased executor and the restart wait. *)
Definition phasedCall (api : Api) : bool :=
  match api with
  | ResumePlayback | TogglePlayback => false
  | _ => true
  end.

Definition phasedPc (pc : Pc) : bool :=
  match pc with
  | SeqPoll _ _ _ | SeqAwaitPlay _ | SeqAwaitEnded _ => false
  | _ => true
  end.

(** The loop over [sampleText] has ended in repeat mode: the timer of the
    restart is activation 2. *)
Definition loopCompleted : Config :=
  run ((Call (SetLooping true), quietEnv 3050) :: wakes 0 (drop 1 quietWakes))
    (run waitingForCue1 (initial bothFiles)).

(** Code that leaves [sequenceIndex] alone or sets it back to 0, and
    creates no timer but the one of the restart. *)
Definition keepsIndex (w w' : World) : Prop :=
  (sequenceIndex (eng w') = 0 ∨ sequenceIndex (eng w') = sequenceIndex (eng w))
  ∧ (timersOnly w → timersOnly w').

Definition phasedAction (a : Action) : bool :=
  match a with
  | Call api => phasedCall api
  | Wake _ => true
  end.

(** *** A cue file that was not loaded *)

(** What reaches the reader with a periodic cue: its sound, the highlight
    and the progress. *)
Definition shown (ev : Event) : bool :=
  match ev with
  | SequenceProgress _ _ _ | HighlightCharacter _ | AudioPlay _ true => true
  | _ => false
  end.

(** The calls after which the engine plays a sequence it has built itself,
    with the phased executor. *)
Definition textAction (a : Action) : bool :=
  match a with
  | Call (StartPlaybackSequence _) => false
  | _ => phasedAction a
  end.

Definition muyuTyped (event : PlayEvent) : Prop :=
  isMuyu event = true → type event = "muyu"%string.

(** The file of the periodic cue is missing and the sequence in place is one
    of [createPlaybackSequence]. *)
Definition cueless (e : Engine) : Prop :=
  "muyu"%string ∉ audioFiles e
  ∧ ∀ sequence, currentSequence e = Some sequence → Forall muyuTyped sequence.

Definition cuelessPc (pc : Pc) : Prop :=
  match pc with
  | MuyuPoll muyuEvents _ _ _ => Forall (fun event => type event = "muyu"%string) muyuEvents
  | SeqPoll _ _ _ | SeqAwaitPlay _ | SeqAwaitEnded _ => False
  | _ => True
  end.

Definition Cueless (w : World) : Prop :=
  cueless (eng w) ∧ Forall (fun ev => shown ev = false) (out w) ∧ timersOnly w.

(** *** The anchor and the clock *)

Definition isAnchor (ev : Event) : bool :=
  match ev with
  | AnchorRecorded _ => true
  | _ => false
  end.

(** Code that records no anchor and leaves the one of the engine alone. *)
Definition calm (w w' : World) : Prop :=
  muyuStartTime (eng w') = muyuStartTime (eng w)
  ∧ ∃ added, out w' = out w ++ added ∧ Forall (fun ev => isAnchor ev = false) added.

Definition unanchored (w : World) : Prop :=
  Forall (fun ev => isAnchor ev = false) (out w).

(** An anchor recorded in this turn is the reading of the clock of this
    turn, taken behind the end of the first phase, and the engine holds it. *)
Definition anchoredNow (env : Env) (w : World) : Prop :=
  ∀ t, AnchorRecorded t ∈ out w →
    t = anchorNow env
    ∧ (∃ how, StartCueSettled how ∈ out w)
    ∧ muyuStartTime (eng w) = Some t.

(** The wait before a periodic cue is counted from the anchor:
    [Math.max(0, event.delay - (Date.now() - this.muyuStartTime))]. *)
Definition waitsFromAnchor (env : Env) (e : Engine) (pc : Pc) : Prop :=
  match pc with
  | MuyuPoll muyuEvents i startTime waitTime =>
      ∃ event, muyuEvents !! i = Some event
        ∧ startTime = waitStart env i
        ∧ waitTime
          = Js.max 0 (delay event - (headNow env i - Js.to_number (muyuStartTime e)))%float
  | _ => True
  end.



(** * Properties *)

(** ** The sequence builder *)

Lemma verbalFrom_bounds (chars : list CharData) (i j : nat) :
  j ∈ verbalFrom i chars → i ≤ j.
Proof.
  revert i. induction chars as [|c chars IH]; intros i; simpl.
  - intros H. by apply elem_of_nil in H.
  - destruct (isVerbal c).
    + intros [->|H]%elem_of_cons; [lia|]. apply IH in H. lia.
    + intros H. apply IH in H. lia.
Qed.

Lemma verbalFrom_elem (chars : list CharData) (i j : nat) :
  j ∈ verbalFrom i chars ↔
  i ≤ j ∧ ∃ c, chars !! (j - i) = Some c ∧ isVerbal c = true.
Proof.
  revert i. induction chars as [|c chars IH]; intros i; simpl.
  - split; [intros H; by apply elem_of_nil in H|].
    intros (_ & c & H & _). by rewrite lookup_nil in H.
  - assert (Hshift : j ∈ verbalFrom (S i) chars ↔
              S i ≤ j ∧ ∃ c', (c :: chars) !! (j - i) = Some c' ∧ isVerbal c' = true).
    { rewrite IH. split; intros (Hle & c' & Hc & Hv); (split; [lia|]); exists c'; split; try done.
      - replace (j - i) with (S (j - S i)) by lia. done.
      - replace (j - i) with (S (j - S i)) in Hc by lia. done. }
    destruct (isVerbal c) eqn:Hc.
    + rewrite elem_of_cons, Hshift. split.
      * intros [->|(Hle & c' & Hl & Hv)].
        -- split; [lia|]. exists c. by rewrite Nat.sub_diag.
        -- split; [lia|]. by exists c'.
      * intros (Hle & c' & Hl & Hv).
        destruct (decide (j = i)) as [->|Hne]; [by left|right].
        split; [lia|]. by exists c'.
    + rewrite Hshift. split.
      * intros (Hle & c' & Hl & Hv). split; [lia|]. by exists c'.
      * intros (Hle & c' & Hl & Hv). split; [|by exists c'].
        destruct (decide (j = i)) as [->|Hne]; [|lia].
        rewrite Nat.sub_diag in Hl. simpl in Hl. congruence.
Qed.

Lemma verbalFrom_sorted (chars : list CharData) (i : nat) :
  StronglySorted lt (verbalFrom i chars).
Proof.
  revert i. induction chars as [|c chars IH]; intros i; simpl; [constructor|].
  destruct (isVerbal c); [|apply IH].
  constructor; [apply IH|].
  apply Forall_forall. intros j Hj. apply verbalFrom_bounds in Hj. lia.
Qed.

Lemma verbalFrom_length (chars : list CharData) (i : nat) :
  length (verbalFrom i chars) = length (List.filter isVerbal chars).
Proof.
  revert i. induction chars as [|c chars IH]; intros i; simpl; [done|].
  destruct (isVerbal c); simpl; by rewrite IH.
Qed.

(** The loop of the builder, started at character [i] with [muyuIndex] cues
    already made, makes one cue per verbal unit that is left. *)
Lemma muyuSequence_spec (b : float) (before rest : list CharData) (muyuIndex : nat) :
  muyuSequence (Some (characterLookup (before ++ rest))) b
    (length rest) (length before) muyuIndex
  = imap (fun rank i => muyuCue (muyuIndex + rank) b i) (verbalFrom (length before) rest).
Proof.
  revert before muyuIndex. induction rest as [|c rest IH]; intros before muyuIndex; [done|].
  simpl. unfold characterLookup at 1.
  rewrite lookup_app_r, Nat.sub_diag by lia. simpl.
  specialize (IH (before ++ [c])). rewrite <- app_assoc, length_app in IH. simpl in IH.
  rewrite Nat.add_1_r in IH.
  unfold receivesCue, isVerbal. destruct (negb (isPunctuation c) && negb (isSpace c)).
  - rewrite IH. simpl. rewrite Nat.add_0_r. f_equal.
    apply imap_ext. intros rank i _. simpl. f_equal. lia.
  - apply IH.
Qed.

Lemma filter_isMuyu_cues (f : nat → nat → PlayEvent) (l : list nat) :
  (∀ rank i, isMuyu (f rank i) = true) →
  List.filter isMuyu (imap f l) = imap f l.
Proof.
  revert f. induction l as [|x l IH]; intros f Hf; simpl; [done|].
  rewrite Hf. f_equal. apply IH. intros rank i. apply Hf.
Qed.

(** C2.  For every text and every speed, the built sequence is the awaited
    start cue at delay 0 followed by exactly one fire-and-forget cue per verbal
    unit, in text order; the cue of verbal rank [rank] carries the position of
    that unit in the text and the delay [rank * (1000 / speed)], whatever lies
    between the verbal units. *)
Theorem createPlaybackSequence_cues (chars : list CharData) (speed : float) :
  let sequence :=
    createPlaybackSequence (Some (characterLookup chars)) speed (length chars) in
  sequence
    = startBowl :: imap (fun rank i => muyuCue rank (1000 / speed) i) (verbalIndices chars)
  ∧ (type startBowl = "bowl"%string ∧ delay startBowl = 0%float
     ∧ noWait startBowl = false ∧ isMuyu startBowl = false)
  ∧ length (List.filter isMuyu sequence) = length (List.filter isVerbal chars)
  ∧ StronglySorted lt (verbalIndices chars)
  ∧ (∀ i, i ∈ verbalIndices chars ↔ ∃ c, chars !! i = Some c ∧ isVerbal c = true)
  ∧ (∀ rank i, verbalIndices chars !! rank = Some i →
       ∃ cue, sequence !! S rank = Some cue
         ∧ type cue = "muyu"%string ∧ isMuyu cue = true ∧ noWait cue = true
         ∧ characterIndex cue = Some i
         ∧ delay cue = (Js.of_nat rank * (1000 / speed))%float).
Proof.
  assert (Hseq : createPlaybackSequence (Some (characterLookup chars)) speed (length chars)
    = startBowl :: imap (fun rank i => muyuCue rank (1000 / speed) i) (verbalIndices chars)).
  { unfold createPlaybackSequence. f_equal.
    apply (muyuSequence_spec (1000 / speed) [] chars 0). }
  cbv zeta. rewrite Hseq. repeat split.
  - simpl. rewrite filter_isMuyu_cues by done.
    rewrite length_imap. apply verbalFrom_length.
  - apply verbalFrom_sorted.
  - intros H. apply verbalFrom_elem in H as (_ & c & Hc & Hv).
    rewrite Nat.sub_0_r in Hc. by exists c.
  - intros (c & Hc & Hv). apply verbalFrom_elem. split; [lia|].
    exists c. by rewrite Nat.sub_0_r.
  - intros rank i Hl. exists (muyuCue rank (1000 / speed) i). repeat split.
    simpl. rewrite list_lookup_imap, Hl. done.
Qed.

(** ** Speed changes *)

(** C1.  While the engine plays and the periodic phase has its anchor (the
    field [muyuStartTime] holds a truthy number), [adjustPlaybackSpeed]
    replaces the anchor by [now - (now - anchor) * (oldSpeed / newSpeed)] and
    touches nothing else, for all speeds. *)
Theorem adjustPlaybackSpeed_rebases (e : Engine) (now oldSpeed newSpeed anchor : float) :
  isPlaying e = true →
  muyuStartTime e = Some anchor →
  Js.truthy anchor = true →
  let elapsedAtOldSpeed := (now - anchor)%float in
  let elapsedAtNewSpeed := (elapsedAtOldSpeed * (oldSpeed / newSpeed))%float in
  adjustPlaybackSpeed now oldSpeed newSpeed e
    = setMuyuStartTime (now - elapsedAtNewSpeed)%float e
  ∧ muyuStartTime (adjustPlaybackSpeed now oldSpeed newSpeed e)
    = Some (now - (now - anchor) * (oldSpeed / newSpeed))%float.
Proof.
  intros Hplaying Hanchor Htruthy. unfold adjustPlaybackSpeed.
  rewrite Hplaying, Hanchor. simpl. rewrite Htruthy. simpl. done.
Qed.

Lemma adjustPlaybackSpeed_rebases_example :
  muyuStartTime (adjustPlaybackSpeed 6000 1 2 (playingSince 5000)) = Some 5500%float.
Proof.
  exact (proj2 (adjustPlaybackSpeed_rebases (playingSince 5000) 6000 1 2 5000
                  eq_refl eq_refl eq_refl)).
Defined.

(** C10.  A speed below 0.1 or above 10.0 leaves the engine as it is: the
    speed, the anchor and every other field keep their values, no timer is
    created, and nothing is raised but the warning on the console. *)
Theorem setPlaybackSpeed_out_of_range (env : Env) (w : World) (speed : float) :
  (speed <? minSpeed)%float = true ∨ (maxSpeed <? speed)%float = true →
  call env (SetPlaybackSpeed speed) w
    = (emit (ConsoleWarn (SpeedOutOfRange speed)) w, Finished)
  ∧ eng (setPlaybackSpeed (callNow env) speed w) = eng w
  ∧ spawned (setPlaybackSpeed (callNow env) speed w) = spawned w
  ∧ out (setPlaybackSpeed (callNow env) speed w)
    = out w ++ [ConsoleWarn (SpeedOutOfRange speed)].
Proof.
  intros Hrange. unfold call, setPlaybackSpeed.
  assert (((speed <? minSpeed)%float || (maxSpeed <? speed)%float) = true) as ->.
  { destruct Hrange as [-> | ->]; [done|]. apply orb_true_r. }
  done.
Qed.

Lemma setPlaybackSpeed_out_of_range_example :
  eng (setPlaybackSpeed 6000 20 (enter (playingSince 5000))) = playingSince 5000.
Proof.
  exact (proj1 (proj2 (setPlaybackSpeed_out_of_range (quietEnv 6000)
                         (enter (playingSince 5000)) 20 (or_intror eq_refl)))).
Defined.

(** ** The highlight synchroniser *)

Arguments hasClass c%_string m i.

Lemma markCompleted_lookup (els : gmap nat (gset string)) (n i : nat) :
  foldl markCompleted els (seq 0 n) !! i
  = if decide (i < n)
    then (fun classes => classRemove "highlighted" (classAdd "completed" classes))
           <$> els !! i
    else els !! i.
Proof.
  induction n as [|n IH].
  - done.
  - rewrite seq_S, foldl_app. simpl. unfold markCompleted at 1.
    rewrite lookup_alter. simpl. destruct (decide (n = i)) as [<-|Hne].
    + rewrite IH. destruct (decide (n < n)); [lia|].
      destruct (decide (n < S n)); [done|lia].
    + rewrite IH. destruct (decide (i < n)), (decide (i < S n)); try lia; done.
Qed.

Lemma highlightCharacter_unfold (m : TextManager) (n : nat) (c : CharData) :
  isHighlightEnabled m = true →
  characters m !! n = Some c →
  let m' := highlightCharacter (Z.of_nat n) m in
  characters m' = characters m
  ∧ isHighlightEnabled m' = true
  ∧ currentCharIndex m' = n
  ∧ currentLineIndex m' = lineIndex c
  ∧ scrolled m'
    = (if decide (lineIndex c = currentLineIndex m) then scrolled m
       else scrolled m ++ [lineIndex c])
  ∧ ∀ i, charElements m' !! i = highlightedClasses n i <$> charElements m !! i.
Proof.
  intros Hen Hc. pose proof (lookup_lt_Some _ _ _ Hc) as Hlt.
  unfold highlightCharacter. rewrite Hen. simpl.
  assert ((Z.of_nat n <? 0)%Z = false) as -> by lia.
  assert ((Z.of_nat (length (characters m)) <=? Z.of_nat n)%Z = false) as -> by lia.
  simpl. rewrite Nat2Z.id, Hc.
  case_decide as Hline; simpl; (repeat split; try done);
    try (unfold scrollToCurrentLine; simpl; by destruct (linesContainer m)).
  all: intros i; rewrite markCompleted_lookup.
  all: try (unfold scrollToCurrentLine; simpl; destruct (linesContainer m); simpl).
  all: unfold highlightedClasses; rewrite lookup_alter, !lookup_fmap.
  all: repeat case_decide; try lia; subst;
       destruct (charElements m !! _); simpl; done.
Qed.

Lemma highlightedClasses_idem (n i : nat) (classes : gset string) :
  highlightedClasses n i (highlightedClasses n i classes) = highlightedClasses n i classes.
Proof.
  unfold highlightedClasses, classAdd, classRemove.
  destruct (decide (i < n)); [set_solver|].
  destruct (decide (i = n)); set_solver.
Qed.

Lemma highlightedClasses_completed (n i : nat) (classes : gset string) :
  "completed"%string ∈ highlightedClasses n i classes
  ↔ "completed"%string ∈ classes ∨ i < n.
Proof.
  unfold highlightedClasses, classAdd, classRemove.
  destruct (decide (i < n)); [set_solver|].
  destruct (decide (i = n)); set_solver.
Qed.

Lemma highlightedClasses_highlighted (n i : nat) (classes : gset string) :
  "highlighted"%string ∈ highlightedClasses n i classes ↔ i = n.
Proof.
  unfold highlightedClasses, classAdd, classRemove.
  destruct (decide (i < n)); [set_solver by lia|].
  destruct (decide (i = n)); set_solver.
Qed.

(** C9.  With highlighting enabled, on a rendered text, and for a valid
    character index [n], [highlightCharacter(n)] makes [n] the current
    character and the only highlighted one; every character before [n] is
    marked completed and no completed mark is taken away, also when the call
    is repeated with the same or a lower index; the current line becomes the
    line of character [n], and [scrollToCurrentLine] is called exactly when
    that line differs from the line that was current before. *)
Theorem highlightCharacter_marks (m : TextManager) (n : nat) :
  isHighlightEnabled m = true →
  n < length (characters m) →
  rendered m →
  let m' := highlightCharacter (Z.of_nat n) m in
  (currentCharIndex m' = n ∧ ∀ i, hasClass "highlighted" m' i ↔ i = n)
  ∧ (∀ i, i < n → hasClass "completed" m' i)
  ∧ (∀ i, hasClass "completed" m' i
       ↔ hasClass "completed" m i ∨ (i < n ∧ is_Some (charElements m !! i)))
  ∧ (∀ k, k ≤ n → ∀ i, hasClass "completed" m' i →
       hasClass "completed" (highlightCharacter (Z.of_nat k) m') i)
  ∧ charElements (highlightCharacter (Z.of_nat n) m') = charElements m'
  ∧ (∃ c, characters m !! n = Some c
       ∧ currentLineIndex m' = lineIndex c
       ∧ (lineIndex c ≠ currentLineIndex m → scrolled m' = scrolled m ++ [lineIndex c])
       ∧ (lineIndex c = currentLineIndex m → scrolled m' = scrolled m)).
Proof.
  intros Hen Hlt Hrendered.
  destruct (lookup_lt_is_Some_2 _ _ Hlt) as [c Hc].
  destruct (highlightCharacter_unfold m n c Hen Hc)
    as (Hchars & Hen' & Hcur & Hline & Hscroll & Hels).
  cbv zeta.
  assert (Hkept : ∀ k i, k ≤ n →
            hasClass "completed" (highlightCharacter (Z.of_nat n) m) i →
            hasClass "completed" (highlightCharacter (Z.of_nat k)
                                    (highlightCharacter (Z.of_nat n) m)) i).
  { intros k i Hk (classes & Hi & Hin).
    assert (is_Some (characters (highlightCharacter (Z.of_nat n) m) !! k)) as [ck Hck].
    { apply lookup_lt_is_Some_2. rewrite Hchars. lia. }
    destruct (highlightCharacter_unfold _ k ck Hen' Hck) as (_ & _ & _ & _ & _ & Hels').
    exists (highlightedClasses k i classes). rewrite Hels', Hi. split; [done|].
    apply highlightedClasses_completed. by left. }
  repeat split.
  - done.
  - intros (classes & Hi & Hin). rewrite Hels in Hi.
    destruct (charElements m !! i) as [old|]; [|done].
    simpl in Hi. injection Hi as <-. by apply highlightedClasses_highlighted in Hin.
  - intros ->. destruct (Hrendered n Hlt) as [old Hold].
    exists (highlightedClasses n n old). rewrite Hels, Hold. split; [done|].
    by apply highlightedClasses_highlighted.
  - intros i Hi. destruct (Hrendered i ltac:(lia)) as [old Hold].
    exists (highlightedClasses n i old). rewrite Hels, Hold. split; [done|].
    apply highlightedClasses_completed. by right.
  - intros (classes & Hi & Hin). rewrite Hels in Hi.
    destruct (charElements m !! i) as [old|] eqn:Hold; [|done].
    simpl in Hi. injection Hi as <-.
    apply highlightedClasses_completed in Hin as [Hin|Hin].
    + left. by exists old.
    + right. split; [done|]. by exists old.
  - intros [(old & Hold & Hin)|(Hi & old & Hold)].
    + exists (highlightedClasses n i old). rewrite Hels, Hold. split; [done|].
      apply highlightedClasses_completed. by left.
    + exists (highlightedClasses n i old). rewrite Hels, Hold. split; [done|].
      apply highlightedClasses_completed. by right.
  - intros k Hk i. by apply Hkept.
  - assert (is_Some (characters (highlightCharacter (Z.of_nat n) m) !! n)) as [cn Hcn].
    { apply lookup_lt_is_Some_2. by rewrite Hchars. }
    destruct (highlightCharacter_unfold _ n cn Hen' Hcn) as (_ & _ & _ & _ & _ & Hels').
    apply map_eq. intros i. rewrite Hels', Hels.
    destruct (charElements m !! i) as [old|]; [|done].
    simpl. f_equal. apply highlightedClasses_idem.
  - exists c. repeat split; try done.
    + intros Hne. rewrite Hscroll. by destruct (decide (lineIndex c = currentLineIndex m)).
    + intros Heq. rewrite Hscroll. by destruct (decide (lineIndex c = currentLineIndex m)).
Qed.

Lemma highlightCharacter_marks_example :
  currentCharIndex (highlightCharacter 2 sampleManager) = 2
  ∧ ∀ i, hasClass "highlighted" (highlightCharacter 2 sampleManager) i ↔ i = 2.
Proof.
  refine (proj1 (highlightCharacter_marks sampleManager 2 eq_refl _ _)).
  - simpl. lia.
  - intros i Hi. simpl in Hi.
    destruct i as [|[|[|i]]]; [by eexists..|lia].
Defined.

(** Without the spans the claim fails: behind a [loadText] with a blank the
    five characters of the text before are still loaded and highlighting is
    enabled, yet [highlightCharacter(1)] finds no span: it moves the current
    position and marks nothing, character 1 is not highlighted and
    character 0 is not completed. *)
Lemma highlightCharacter_marks_nothing :
  isHighlightEnabled blankAfterLoad = true
  ∧ length (characters blankAfterLoad) = 5
  ∧ ¬ rendered blankAfterLoad
  ∧ let m' := highlightCharacter 1 blankAfterLoad in
    currentCharIndex m' = 1
    ∧ charElements m' = ∅
    ∧ ¬ hasClass "highlighted" m' 1
    ∧ ¬ hasClass "completed" m' 0.
Proof.
  assert (charElements (highlightCharacter 1 blankAfterLoad) = ∅) as Hnone
    by (vm_compute; reflexivity).
  split; [reflexivity|]. split; [reflexivity|]. split.
  - intros Hrendered. destruct (Hrendered 0) as [classes Hclasses]; [vm_compute; lia|].
    vm_compute in Hclasses. discriminate Hclasses.
  - cbv zeta. split; [reflexivity|]. split; [exact Hnone|].
    split; intros (classes & Hlookup & _); rewrite Hnone in Hlookup; discriminate Hlookup.
Qed.

Lemma advance_None (events : list Event) : advance None events = None.
Proof. induction events as [|ev events IH]; [done|]. apply IH. Qed.

Lemma advance_app (s : option Stage) (l k : list Event) :
  advance s (l ++ k) = advance (advance s l) k.
Proof. apply foldl_app. Qed.

Lemma track_emit (before : list Event) (ev : Event) (w : World) :
  track before (emit ev w) = track before w ≫= fun s => stageStep s ev.
Proof. unfold track. simpl. rewrite app_assoc, advance_app. done. Qed.

Lemma track_update (before : list Event) (f : Engine → Engine) (w : World) :
  track before (update f w) = track before w.
Proof. done. Qed.

Lemma track_spawn (before : list Event) (pc : Pc) (w : World) :
  track before (spawn pc w) = track before w.
Proof. done. Qed.

Lemma track_emit_quiet (before : list Event) (ev : Event) (w : World) :
  quietEvent ev = true → track before (emit ev w) = track before w.
Proof.
  intros Hq. rewrite track_emit. destruct (track before w) as [s|]; [|done].
  simpl. destruct ev as [| | | | | | | |? []| | | | | | |]; done.
Qed.

Lemma quietly_refl (w : World) : quietly w w.
Proof. by split. Qed.

Lemma quietly_trans (w1 w2 w3 : World) : quietly w1 w2 → quietly w2 w3 → quietly w1 w3.
Proof.
  intros [H1 T1] [H2 T2]. split; [|by auto].
  intros before. by rewrite H2, H1.
Qed.

Lemma quietly_emit (ev : Event) (w : World) : quietEvent ev = true → quietly w (emit ev w).
Proof. intros Hq. split; [|done]. intros before. by apply track_emit_quiet. Qed.

Lemma quietly_update (f : Engine → Engine) (w : World) : quietly w (update f w).
Proof. by split. Qed.

Lemma quietly_spawn_timer (w : World) : quietly w (spawn RestartTimer w).
Proof.
  split; [done|]. unfold timersOnly. simpl. intros H.
  apply Forall_app. split; [done|]. by constructor.
Qed.

Ltac quiet_steps :=
  repeat first
    [ apply quietly_refl
    | eapply quietly_trans; [|apply quietly_emit; reflexivity]
    | eapply quietly_trans; [|apply quietly_update]
    | eapply quietly_trans; [|apply quietly_spawn_timer] ].

Lemma quietly_notifyPlayStateChange (b : bool) (w : World) :
  quietly w (notifyPlayStateChange b w).
Proof. by apply quietly_emit. Qed.

Lemma quietly_handleError (err : JsError) (w : World) : quietly w (handleError err w).
Proof. by apply quietly_emit. Qed.

Lemma quietly_notifySequenceProgress (i : nat) (event : PlayEvent) (w : World) :
  quietly w (notifySequenceProgress i event w).1.
Proof.
  unfold notifySequenceProgress.
  destruct (characterIndex event), (textManager (eng w)); simpl;
    destruct (currentSequence (eng w)); simpl; quiet_steps.
Qed.

Lemma quietly_playAudioCatch (err : JsError) (w : World) :
  quietly w (playAudioCatch err w).1.
Proof.
  unfold playAudioCatch. destruct (isAbort err && negb (isPlaying (eng w))); simpl;
    [apply quietly_refl|by apply quietly_emit].
Qed.

Lemma quietly_playAudioNoWait (o : PlayOutcome) (key : string) (w : World) :
  quietly w (playAudioNoWait o key w).1.
Proof.
  unfold playAudioNoWait. destruct (negb (isPlaying (eng w))); [apply quietly_refl|].
  destruct (decide (key ∈ audioFiles (eng w))); [|by apply quietly_emit].
  destruct o as [err|[err|]]; simpl; [apply quietly_playAudioCatch|..]; quiet_steps.
Qed.

Lemma quietly_stopPlayback (w : World) : quietly w (stopPlayback w).
Proof.
  unfold stopPlayback, notifyPlayStateChange. simpl.
  destruct (textManager (eng w)); quiet_steps.
Qed.

Lemma quietly_failPlayback (err : JsError) (w : World) : quietly w (failPlayback err w).
Proof.
  unfold failPlayback. eapply quietly_trans;
    [apply quietly_handleError|apply quietly_stopPlayback].
Qed.

Lemma quietly_completePlayback (w : World) : quietly w (completePlayback w).
Proof.
  unfold completePlayback, notifySequenceComplete, notifyPlayStateChange.
  destruct (isLooping (eng w)), (textManager (eng w)); quiet_steps.
Qed.

Lemma quietly_pausePlayback (w : World) : quietly w (pausePlayback w).
Proof.
  unfold pausePlayback, notifyPlayStateChange.
  destruct (isPlaying (eng w) && negb (isPaused (eng w))); quiet_steps.
Qed.

Lemma quietly_resetPlayback (w : World) : quietly w (resetPlayback w).
Proof.
  unfold resetPlayback. destruct (textManager (eng (stopPlayback w))).
  - eapply quietly_trans; [apply quietly_stopPlayback|quiet_steps].
  - apply quietly_stopPlayback.
Qed.

Lemma quietly_setPlaybackSpeed (now speed : float) (w : World) :
  quietly w (setPlaybackSpeed now speed w).
Proof.
  unfold setPlaybackSpeed.
  destruct ((speed <? minSpeed)%float || (maxSpeed <? speed)%float); [quiet_steps|].
  destruct (isPlaying (eng (update (setSpeed speed) w))); quiet_steps.
Qed.

Lemma quietly_dispose (w : World) : quietly w (dispose w).
Proof.
  unfold dispose. eapply quietly_trans; [apply quietly_stopPlayback|apply quietly_update].
Qed.

(** *** The periodic loop keeps the order *)

Lemma muyuAfterWait_stage (before : list Event) (env : Env) (i : nat)
    (event : PlayEvent) (w : World) (s : Stage) :
  track before w = Some s →
  loopStage s i →
  mayDispatch (settledAs s) = true ∨ isPlaying (eng w) = false →
  ∃ s', track before (muyuAfterWait env i event w).1 = Some s'
    ∧ settledAs s' = settledAs s
    ∧ (timersOnly w → timersOnly (muyuAfterWait env i event w).1)
    ∧ match (muyuAfterWait env i event w).2 with
      | Continue => loopStage s' (S i) ∧ mayDispatch (settledAs s) = true
      | Return => anchored s' = true ∧ i ≤ cues s'
      end.
Proof.
  intros Htrack (Hanchored & Hsettled & Hcues) Hmay. unfold muyuAfterWait.
  destruct (isPlaying (eng w)) eqn:Hplaying; simpl;
    [|exists s; repeat split; (done || lia)].
  destruct Hmay as [Hmay|]; [|done].
  destruct (isPaused (eng w)); simpl; [exists s; repeat split; (done || lia)|].
  set (w0 := emit (Dispatch i) w).
  set (s1 := {| startPlayed := startPlayed s; settledAs := settledAs s;
                anchored := true; cues := S i |}).
  assert (Hw0 : track before w0 = Some s1).
  { unfold w0. rewrite track_emit, Htrack. simpl.
    rewrite Hanchored, Hmay, Hcues, Nat.eqb_refl. done. }
  assert (Ht0 : timersOnly w → timersOnly w0) by done.
  pose proof (quietly_playAudioNoWait (plays env i) (type event) w0) as [Hq1 Ht1].
  destruct (playAudioNoWait (plays env i) (type event) w0) as [w1 [|err]]; simpl in *.
  - pose proof (quietly_notifySequenceProgress i event w1) as [Hq2 Ht2].
    destruct (notifySequenceProgress i event w1) as [w2 [|err]]; simpl in *.
    + exists s1. rewrite Hq2, Hq1, Hw0. repeat split; try done; auto.
    + unfold muyuCatch. exists s1.
      destruct (isAbort err && negb (isPlaying (eng w2))); simpl;
        rewrite Hq2, Hq1, Hw0; repeat split; try done; auto; simpl; lia.
  - unfold muyuCatch. exists s1.
    destruct (isAbort err && negb (isPlaying (eng w1))); simpl;
      rewrite Hq1, Hw0; repeat split; try done; auto; simpl; lia.
Qed.

Lemma executeMuyuFrom_stage (before : list Event) (env : Env)
    (muyuEvents rest : list PlayEvent) (i : nat) (w : World) (s : Stage) :
  track before w = Some s →
  loopStage s i →
  mayDispatch (settledAs s) = true ∨ isPlaying (eng w) = false →
  i + length rest = length muyuEvents →
  ∃ s', track before (executeMuyuFrom env muyuEvents rest i w).1 = Some s'
    ∧ fits (executeMuyuFrom env muyuEvents rest i w).2 s'
    ∧ i ≤ cues s'
    ∧ (timersOnly w → timersOnly (executeMuyuFrom env muyuEvents rest i w).1).
Proof.
  revert i w s. induction rest as [|event rest IH]; intros i w s Htrack Hloop Hmay Hlen.
  - simpl. pose proof (quietly_completePlayback w) as [Hq Ht].
    exists s. rewrite Hq. destruct Hloop as (_ & _ & <-). by repeat split.
  - simpl. destruct (negb (isPlaying (eng w)) || isPaused (eng w)) eqn:Hflags.
    { exists s. destruct Hloop as (_ & _ & <-). by repeat split. }
    apply orb_false_elim in Hflags as [Hplaying%negb_false_iff _].
    destruct Hmay as [Hmay|]; [|congruence].
    match goal with
    | |- context [if ?c then _ else _] => destruct c
    end.
    { exists s. simpl. destruct Hloop as (Ha & _ & Hc).
      repeat split; try done; simpl in Hlen; lia. }
    destruct (muyuAfterWait_stage before env i event w s Htrack Hloop (or_introl Hmay))
      as (s1 & Htrack1 & Hsame & Ht1 & Hstep).
    destruct (muyuAfterWait env i event w) as [w1 [|]]; simpl in *.
    + destruct Hstep as [Hloop1 _].
      destruct (IH (S i) w1 s1 Htrack1 Hloop1) as (s2 & Htrack2 & Hfits & Hle & Ht2).
      { left. by rewrite Hsame. }
      { lia. }
      exists s2. repeat split; try done; [lia|auto].
    + exists s1. destruct Hstep as [_ Hle]. by repeat split.
Qed.

Lemma playAudioStart_stage (before : list Event) (o : PlayOutcome) (key : string)
    (w : World) (s : Stage) :
  track before w = Some s →
  settledAs s = None →
  (timersOnly w → timersOnly (playAudioStart o key w).1)
  ∧ match (playAudioStart o key w).2 with
    | None =>
        track before (playAudioStart o key w).1
        = Some {| startPlayed := true; settledAs := None;
                  anchored := anchored s; cues := cues s |}
    | Some Normal =>
        track before (playAudioStart o key w).1 = Some s
        ∧ isPlaying (eng (playAudioStart o key w).1) = false
    | Some (Throw _) => track before (playAudioStart o key w).1 = Some s
    end.
Proof.
  intros Htrack Hunsettled. unfold playAudioStart.
  destruct (isPlaying (eng w)) eqn:Hplaying; simpl; [|done].
  destruct (decide (key ∈ audioFiles (eng w))); simpl.
  - destruct o as [err|fate]; simpl.
    + unfold playAudioCatch, handleError. rewrite Hplaying, andb_false_r. simpl.
      by rewrite track_emit_quiet.
    + rewrite track_emit, Htrack. simpl. by rewrite Hunsettled.
  - unfold handleError. by rewrite track_emit_quiet.
Qed.

Lemma muyuPhase_stage (before : list Event) (env : Env) (w : World) (s : Stage) :
  track before w = Some s →
  is_Some (settledAs s) → anchored s = false → cues s = 0 →
  mayDispatch (settledAs s) = true ∨ isPlaying (eng w) = false →
  ∃ s', track before (muyuPhase env w).1 = Some s'
    ∧ fits (muyuPhase env w).2 s'
    ∧ (timersOnly w → timersOnly (muyuPhase env w).1).
Proof.
  intros Htrack Hsettled Hanchored Hcues Hmay. unfold muyuPhase.
  destruct (currentSequence (eng w)) as [sequence|].
  - destruct (List.filter isMuyu sequence) as [|event muyuEvents] eqn:Hfilter.
    + by exists s.
    + set (w1 := emit _ _).
      set (s1 := {| startPlayed := startPlayed s; settledAs := settledAs s;
                    anchored := true; cues := 0 |}).
      assert (Htrack1 : track before w1 = Some s1).
      { unfold w1. rewrite track_emit, track_update, Htrack. simpl.
        destruct Hsettled as [how Hhow]. unfold s1.
        by rewrite Hhow, Hanchored, Hcues. }
      destruct (executeMuyuFrom_stage before env (event :: muyuEvents)
                  (event :: muyuEvents) 0 w1 s1 Htrack1) as (s2 & H2 & Hfits & _ & Ht);
        try done.
      exists s2. by repeat split.
  - pose proof (quietly_failPlayback TypeError w) as [Hq Ht].
    exists s. simpl. by rewrite Hq.
Qed.

Lemma executeSequenceInPhases_stage (before : list Event) (env : Env) (w : World) :
  track before w = Some firstStage →
  ∃ s', track before (executeSequenceInPhases env w).1 = Some s'
    ∧ fits (executeSequenceInPhases env w).2 s'
    ∧ (timersOnly w → timersOnly (executeSequenceInPhases env w).1).
Proof.
  intros Htrack. unfold executeSequenceInPhases.
  destruct (currentSequence (eng w)) as [sequence|].
  - destruct (List.find isStartBowl sequence) as [bowlEvent|].
    + destruct (playAudioStart_stage before (playStart env) (type bowlEvent) w _ Htrack
                  eq_refl) as [Ht Hcases].
      destruct (playAudioStart (playStart env) (type bowlEvent) w) as [w1 [[|err]|]];
        simpl in *.
      * destruct Hcases as [Htrack1 Hstopped].
        destruct (muyuPhase_stage before env (emit (StartCueSettled Skipped) w1)
                    {| startPlayed := false; settledAs := Some Skipped;
                       anchored := false; cues := 0 |}) as (s2 & H2 & Hfits & Ht2);
          try done; [by rewrite track_emit, Htrack1|by right|].
        exists s2. repeat split; auto.
      * pose proof (quietly_failPlayback err w1) as [Hq Ht1].
        exists firstStage. rewrite Hq. repeat split; auto.
      * eexists. split; [exact Hcases|]. by repeat split.
    + destruct (muyuPhase_stage before env (emit (StartCueSettled NoStartCue) w)
                  {| startPlayed := false; settledAs := Some NoStartCue;
                     anchored := false; cues := 0 |}) as (s2 & H2 & Hfits & Ht2);
        try done; [by rewrite track_emit, Htrack|by left|].
      exists s2. repeat split; auto.
  - pose proof (quietly_failPlayback TypeError w) as [Hq Ht].
    exists firstStage. simpl. by rewrite Hq.
Qed.

Lemma startPlaybackSequence_stage (before : list Event) (env : Env)
    (sequence : list PlayEvent) (w : World) :
  track before w = Some firstStage →
  ∃ s', track before (startPlaybackSequence env sequence w).1 = Some s'
    ∧ fits (startPlaybackSequence env sequence w).2 s'
    ∧ (timersOnly w → timersOnly (startPlaybackSequence env sequence w).1).
Proof.
  intros Htrack. unfold startPlaybackSequence. destruct (isPlaying (eng w)).
  - exists firstStage. simpl. by rewrite track_emit_quiet.
  - set (w1 := notifyPlayStateChange true _).
    destruct (executeSequenceInPhases_stage before env w1) as (s' & H1 & H2 & H3).
    { unfold w1, notifyPlayStateChange. by rewrite track_emit_quiet. }
    exists s'. by repeat split.
Qed.

Lemma startPlayback_stage (before : list Event) (env : Env)
    (manager : option (list CharData)) (w : World) :
  track before w = Some firstStage →
  ∃ s', track before (startPlayback env manager w).1.1 = Some s'
    ∧ (timersOnly w → timersOnly (startPlayback env manager w).1.1)
    ∧ match (startPlayback env manager w).2 with
      | Normal => fits (startPlayback env manager w).1.2 s'
      | Throw _ => s' = firstStage ∧ (startPlayback env manager w).1.2 = Finished
      end.
Proof.
  intros Htrack. unfold startPlayback.
  destruct manager as [[|c characters]|]; simpl; unfold handleError;
    try (exists firstStage; by rewrite track_emit_quiet).
  destruct (startPlaybackSequence_stage before env
              (createPlaybackSequenceOf (eng (update (setTextManager (c :: characters)) w))
                 (length (c :: characters)))
              (update (setTextManager (c :: characters)) w) Htrack)
    as (s' & H1 & H2 & H3).
  exists s'. by repeat split.
Qed.

(** *** The older executor raises none of the marks of the phases *)

Lemma legacyPc_fits (pc : Pc) (s : Stage) : legacyPc pc → legacyStage s → fits pc s.
Proof. by destruct pc. Qed.

Lemma seqAdvance_quiet (currentEvent : PlayEvent) (w : World) :
  quietly w (seqAdvance currentEvent w).1
  ∧ match (seqAdvance currentEvent w).2 with
    | Some pc => pc = Finished
    | None => True
    end.
Proof.
  unfold seqAdvance.
  pose proof (quietly_notifySequenceProgress (sequenceIndex (eng w)) currentEvent w) as Hq.
  destruct (notifySequenceProgress (sequenceIndex (eng w)) currentEvent w) as [w1 [|err]];
    simpl in *.
  - split; [|done]. eapply quietly_trans; [exact Hq|apply quietly_update].
  - split; [|done]. eapply quietly_trans; [exact Hq|apply quietly_failPlayback].
Qed.

Ltac conjuncts :=
  repeat match goal with |- _ ∧ _ => split end; try done; auto.

Lemma seqAfterWait_stage (before : list Event) (env : Env) (currentEvent : PlayEvent)
    (w : World) (s : Stage) :
  track before w = Some s → legacyStage s →
  ∃ s', track before (seqAfterWait env currentEvent w).1 = Some s'
    ∧ legacyStage s'
    ∧ (timersOnly w → timersOnly (seqAfterWait env currentEvent w).1)
    ∧ match (seqAfterWait env currentEvent w).2 with
      | Some pc => legacyPc pc
      | None => True
      end.
Proof.
  intros Htrack Hstage. unfold seqAfterWait.
  destruct (negb (isPlaying (eng w)) || isPaused (eng w)); [by exists s|].
  destruct (noWait currentEvent).
  - pose proof (quietly_playAudioNoWait (plays env (sequenceIndex (eng w)))
                  (type currentEvent) w) as [Hq Ht].
    destruct (playAudioNoWait _ _ w) as [w1 [|err]]; simpl in *.
    + destruct (seqAdvance_quiet currentEvent w1) as [[Hq1 Ht1] Hpc].
      exists s. rewrite Hq1, Hq. conjuncts.
      destruct (seqAdvance currentEvent w1).2; [by subst|done].
    + pose proof (quietly_failPlayback err w1) as [Hq1 Ht1].
      exists s. rewrite Hq1, Hq. conjuncts.
  - destruct (playAudioStart_stage before (plays env (sequenceIndex (eng w)))
                (type currentEvent) w s Htrack (proj1 Hstage)) as [Ht Hcases].
    destruct (playAudioStart _ _ w) as [w1 [[|err]|]]; simpl in *.
    + destruct Hcases as [Htrack1 _].
      destruct (seqAdvance_quiet currentEvent w1) as [[Hq1 Ht1] Hpc].
      exists s. rewrite Hq1, Htrack1. conjuncts.
      destruct (seqAdvance currentEvent w1).2; [by subst|done].
    + pose proof (quietly_failPlayback err w1) as [Hq1 Ht1].
      exists s. rewrite Hq1, Hcases. conjuncts.
    + eexists. split; [exact Hcases|]. destruct Hstage as (? & ? & ?).
      unfold legacyStage. simpl. conjuncts.
Qed.

Lemma executeSequenceFrom_stage (before : list Event) (env : Env)
    (rest : list PlayEvent) (w : World) (s : Stage) :
  track before w = Some s → legacyStage s →
  ∃ s', track before (executeSequenceFrom env rest w).1 = Some s'
    ∧ legacyStage s'
    ∧ legacyPc (executeSequenceFrom env rest w).2
    ∧ (timersOnly w → timersOnly (executeSequenceFrom env rest w).1).
Proof.
  revert w s. induction rest as [|currentEvent rest IH]; intros w s Htrack Hstage.
  - simpl. pose proof (quietly_completePlayback w) as [Hq Ht].
    exists s. rewrite Hq. conjuncts.
  - simpl.
    match goal with
    | |- context [if ?c then _ else _] => destruct c
    end; [exists s; conjuncts|].
    destruct (seqAfterWait_stage before env currentEvent w s Htrack Hstage)
      as (s1 & Htrack1 & Hstage1 & Ht1 & Hpc).
    destruct (seqAfterWait env currentEvent w) as [w1 [pc|]]; simpl in *.
    + exists s1. conjuncts.
    + destruct (IH w1 s1 Htrack1 Hstage1) as (s2 & H2 & Hstage2 & Hpc2 & Ht2).
      exists s2. conjuncts.
Qed.

Lemma seqResume_stage (before : list Event) (env : Env) (step : World * option Pc)
    (s : Stage) :
  track before step.1 = Some s → legacyStage s →
  match step.2 with Some pc => legacyPc pc | None => True end →
  ∃ s', track before (seqResume env step).1 = Some s'
    ∧ legacyStage s'
    ∧ legacyPc (seqResume env step).2
    ∧ (timersOnly step.1 → timersOnly (seqResume env step).1).
Proof.
  destruct step as [w1 [pc|]]; simpl; intros Htrack Hstage Hpc.
  - exists s. conjuncts.
  - by apply (executeSequenceFrom_stage before env _ w1 s).
Qed.

Lemma resumePlayback_stage (before : list Event) (env : Env) (w : World) (s : Stage) :
  track before w = Some s → legacyStage s →
  ∃ s', track before (resumePlayback env w).1 = Some s'
    ∧ legacyStage s'
    ∧ legacyPc (resumePlayback env w).2
    ∧ (timersOnly w → timersOnly (resumePlayback env w).1).
Proof.
  intros Htrack Hstage. unfold resumePlayback.
  destruct (isPlaying (eng w) && isPaused (eng w)); [|exists s; conjuncts].
  set (w1 := notifyPlayStateChange true _).
  destruct (executeSequenceFrom_stage before env (remainingSequence (eng w1)) w1 s)
    as (s' & H1 & H2 & H3 & H4); try done.
  { unfold w1, notifyPlayStateChange. by rewrite track_emit_quiet. }
  exists s'. conjuncts.
Qed.

(** *** Every step of the event loop keeps the order *)

Lemma call_stage (before : list Event) (env : Env) (api : Api) (w : World) :
  track before w = Some firstStage →
  ∃ s', track before (call env api w).1 = Some s'
    ∧ fits (call env api w).2 s'
    ∧ (timersOnly w → timersOnly (call env api w).1).
Proof.
  intros Htrack.
  assert (Hquiet : ∀ w', quietly w w' →
            ∃ s', track before w' = Some s' ∧ fits Finished s'
                  ∧ (timersOnly w → timersOnly w')).
  { intros w' [Hq Ht]. exists firstStage. by rewrite Hq. }
  assert (Hlegacy : legacyStage firstStage) by done.
  destruct api; simpl.
  - destruct (startPlayback_stage before env manager w Htrack) as (s' & H1 & H2 & H3).
    destruct (startPlayback env manager w) as [[w1 pc] [|err]]; simpl in *.
    + by exists s'.
    + destruct H3 as [-> ->]. exists firstStage. by rewrite track_emit_quiet.
  - by apply startPlaybackSequence_stage.
  - apply Hquiet, quietly_pausePlayback.
  - destruct (resumePlayback_stage before env w _ Htrack Hlegacy) as (s' & H1 & H2 & H3 & H4).
    exists s'. conjuncts. by apply legacyPc_fits.
  - apply Hquiet, quietly_stopPlayback.
  - apply Hquiet, quietly_resetPlayback.
  - unfold togglePlayback. destruct (negb (isPlaying (eng w))); simpl.
    + apply Hquiet. by apply quietly_emit.
    + destruct (isPaused (eng w)); simpl.
      * destruct (resumePlayback_stage before env w _ Htrack Hlegacy)
          as (s' & H1 & H2 & H3 & H4).
        exists s'. conjuncts. by apply legacyPc_fits.
      * apply Hquiet, quietly_pausePlayback.
  - apply Hquiet. apply quietly_update.
  - apply Hquiet, quietly_setPlaybackSpeed.
  - apply Hquiet, quietly_dispose.
Qed.

Lemma wake_stage (before : list Event) (env : Env) (pc : Pc) (w : World) (s : Stage) :
  track before w = Some s →
  fits pc s →
  ∃ s', track before (wake env pc w).1 = Some s'
    ∧ fits (wake env pc w).2 s'
    ∧ cues s ≤ cues s'
    ∧ (timersOnly w → timersOnly (wake env pc w).1).
Proof.
  intros Htrack Hfits. destruct pc as [key|key|muyuEvents i startTime delay
    |currentEvent startTime delay|currentEvent|currentEvent| |]; simpl in *.
  - (* the play promise of the start cue settles *)
    destruct Hfits as (Hplayed & Hsettled & Hanchored & Hcues).
    destruct (settle env) as [err|]; [|exists s; conjuncts].
    unfold playAudioCatch.
    destruct (isAbort err && negb (isPlaying (eng w))) eqn:Hswallow; simpl.
    + apply andb_true_iff in Hswallow as [_ Hstopped%negb_true_iff].
      destruct (muyuPhase_stage before env (emit (StartCueSettled Interrupted) w)
                  {| startPlayed := true; settledAs := Some Interrupted;
                     anchored := false; cues := 0 |}) as (s2 & H2 & Hfits2 & Ht2);
        try done; [|by right|].
      { rewrite track_emit, Htrack. simpl.
        by rewrite Hsettled, Hanchored, Hcues, Hplayed. }
      exists s2. conjuncts. lia.
    + pose proof (quietly_failPlayback err (handleError err w)) as [Hq Ht].
      exists s. rewrite Hq. unfold handleError. rewrite track_emit_quiet by done.
      conjuncts.
  - (* the start cue has ended *)
    destruct Hfits as (Hplayed & Hsettled & Hanchored & Hcues).
    destruct (muyuPhase_stage before env (emit (StartCueSettled Ended) w)
                {| startPlayed := true; settledAs := Some Ended;
                   anchored := false; cues := 0 |}) as (s2 & H2 & Hfits2 & Ht2);
      try done; [|by left|].
    { rewrite track_emit, Htrack. simpl.
      by rewrite Hsettled, Hanchored, Hcues, Hplayed. }
    exists s2. conjuncts. lia.
  - (* a timer of the periodic loop *)
    destruct Hfits as (Hanchored & Hmay & Hcues & Hlt).
    destruct (checkAndWait (eng w) startTime delay (timerNow env));
      [|exists s; conjuncts].
    destruct (lookup_lt_is_Some_2 muyuEvents i Hlt) as [event Hevent].
    rewrite (drop_S _ _ _ Hevent).
    assert (Hloop : loopStage s i).
    { repeat split; try done. destruct (settledAs s); [by eexists|done]. }
    destruct (muyuAfterWait_stage before env i event w s Htrack Hloop (or_introl Hmay))
      as (s1 & Htrack1 & Hsame & Ht1 & Hstep).
    destruct (muyuAfterWait env i event w) as [w1 [|]]; simpl in *.
    + destruct Hstep as [Hloop1 _].
      destruct (executeMuyuFrom_stage before env muyuEvents (drop (S i) muyuEvents)
                  (S i) w1 s1 Htrack1 Hloop1) as (s2 & H2 & Hfits2 & Hle & Ht2).
      { left. by rewrite Hsame. }
      { rewrite length_drop. lia. }
      exists s2. conjuncts. lia.
    + exists s1. destruct Hstep as [_ Hle]. conjuncts. lia.
  - (* a timer of the older executor *)
    destruct (checkAndWait (eng w) startTime delay (timerNow env));
      [|exists s; conjuncts].
    destruct (seqAfterWait_stage before env currentEvent w s Htrack Hfits)
      as (s1 & Htrack1 & Hstage1 & Ht1 & Hpc).
    destruct (seqResume_stage before env (seqAfterWait env currentEvent w) s1
                Htrack1 Hstage1 Hpc) as (s2 & H2 & Hstage2 & Hpc2 & Ht2).
    exists s2. conjuncts; [by apply legacyPc_fits|].
    destruct Hfits as (_ & _ & ->). lia.
  - (* the play promise of a blocking cue of the older executor settles *)
    destruct (settle env) as [err|]; [|exists s; conjuncts].
    unfold playAudioCatch.
    destruct (isAbort err && negb (isPlaying (eng w))); simpl.
    + destruct (seqAdvance_quiet currentEvent w) as [[Hq Ht] Hpc].
      destruct (seqResume_stage before env (seqAdvance currentEvent w) s)
        as (s2 & H2 & Hstage2 & Hpc2 & Ht2); try done.
      { by rewrite Hq. }
      { destruct (seqAdvance currentEvent w).2; [by subst|done]. }
      exists s2. conjuncts; [by apply legacyPc_fits|].
      destruct Hfits as (_ & _ & ->). lia.
    + pose proof (quietly_failPlayback err (handleError err w)) as [Hq Ht].
      exists s. rewrite Hq. unfold handleError. rewrite track_emit_quiet by done.
      conjuncts.
  - (* a blocking cue of the older executor has ended *)
    destruct (seqAdvance_quiet currentEvent w) as [[Hq Ht] Hpc].
    destruct (seqResume_stage before env (seqAdvance currentEvent w) s)
      as (s2 & H2 & Hstage2 & Hpc2 & Ht2); try done.
    { by rewrite Hq. }
    { destruct (seqAdvance currentEvent w).2; [by subst|done]. }
    exists s2. conjuncts; [by apply legacyPc_fits|].
    destruct Hfits as (_ & _ & ->). lia.
  - (* the timer of the restart *)
    subst s.
    destruct (startPlayback_stage before env (textManager (eng w)) w Htrack)
      as (s' & H1 & H2 & H3).
    destruct (startPlayback env (textManager (eng w)) w) as [[w1 pc] [|err]]; simpl in *.
    + exists s'. conjuncts. lia.
    + destruct H3 as [-> ->].
      pose proof (quietly_failPlayback err w1) as [Hq Ht].
      exists firstStage. rewrite Hq. conjuncts.
  - exists s. conjuncts.
Qed.

(** *** What an accepted list of events looks like *)

Lemma dispatched_app (l k : list Event) :
  dispatched (l ++ k) = dispatched l ++ dispatched k.
Proof. apply omap_app. Qed.

Lemma advance_snoc (events : list Event) (ev : Event) (s : Stage) :
  advance (Some firstStage) (events ++ [ev]) = Some s →
  ∃ s0, advance (Some firstStage) events = Some s0 ∧ stageStep s0 ev = Some s.
Proof.
  rewrite advance_app. destruct (advance (Some firstStage) events) as [s0|]; [|done].
  intros H. by exists s0.
Qed.

Lemma advance_summarises (events : list Event) (s : Stage) :
  advance (Some firstStage) events = Some s → summarises s events.
Proof.
  revert s. induction events as [|ev events IH] using rev_ind; intros s Hs.
  - injection Hs as <-. unfold summarises. simpl.
    repeat split; try done; set_unfold; naive_solver.
  - apply advance_snoc in Hs as (s0 & Hs0 & Hstep).
    destruct (IH s0 Hs0) as (Hd & Ha & Hset & Hp & Hcons & Hz).
    unfold summarises. rewrite dispatched_app.
    destruct ev as [| | | | | | | |key [|]| | | |how|t|i|]; simpl in Hstep.
    all: try (injection Hstep as <-; simpl; rewrite app_nil_r;
              repeat split; try done; set_unfold; naive_solver).
    + (* the blocking playback of a start cue begins *)
      destruct (settledAs s0) eqn:Hunsettled; [done|]. injection Hstep as <-.
      simpl. rewrite app_nil_r.
      repeat split; try done; set_unfold; naive_solver.
    + (* the first phase ends *)
      destruct (settledAs s0) eqn:Hunsettled; [done|].
      destruct (negb (anchored s0) && (cues s0 =? 0)
                && Bool.eqb (afterPlayback how) (startPlayed s0)) eqn:Hok; [|done].
      injection Hstep as <-.
      apply andb_true_iff in Hok as [[Hna%negb_true_iff Hc%Nat.eqb_eq]%andb_true_iff
                                       Hhow%Bool.eqb_prop].
      simpl. rewrite app_nil_r, Hd, Hc. rewrite Hna in Ha.
      repeat split; try done; set_unfold; naive_solver.
    + (* the anchor is recorded *)
      destruct (settledAs s0) as [how|] eqn:Hsettled; [|done].
      destruct (negb (anchored s0) && (cues s0 =? 0)) eqn:Hok; [|done].
      injection Hstep as <-.
      apply andb_true_iff in Hok as [Hna%negb_true_iff Hc%Nat.eqb_eq].
      simpl. rewrite app_nil_r, Hd, Hc.
      repeat split; try done; set_unfold; naive_solver.
    + (* a periodic cue is dispatched *)
      destruct (anchored s0 && mayDispatch (settledAs s0) && (i =? cues s0)) eqn:Hok;
        [|done].
      injection Hstep as <-.
      apply andb_true_iff in Hok as [[Han Hmay]%andb_true_iff Hi%Nat.eqb_eq].
      subst i. split; [rewrite Hd; cbn [cues]; by rewrite seq_S|]. simpl.
      repeat split; try done; set_unfold; naive_solver.
Qed.

(** *** The invariant of the event loop *)

Lemma eventsOf_app (tid : nat) (t1 t2 : list (nat * Event)) :
  eventsOf tid (t1 ++ t2) = eventsOf tid t1 ++ eventsOf tid t2.
Proof. apply omap_app. Qed.

Lemma eventsOf_cons (tid tid' : nat) (ev : Event) (t : list (nat * Event)) :
  eventsOf tid ((tid', ev) :: t)
  = if decide (tid' = tid) then ev :: eventsOf tid t else eventsOf tid t.
Proof. unfold eventsOf. simpl. by destruct (decide (tid' = tid)). Qed.

Lemma eventsOf_tag (tid : nat) (events : list Event) :
  eventsOf tid (tag tid events) = events.
Proof.
  induction events as [|ev events IH]; [done|].
  change (tag tid (ev :: events)) with ((tid, ev) :: tag tid events).
  rewrite eventsOf_cons, IH. by destruct (decide (tid = tid)).
Qed.

Lemma eventsOf_tag_ne (tid tid' : nat) (events : list Event) :
  tid ≠ tid' → eventsOf tid (tag tid' events) = [].
Proof.
  intros Hne. induction events as [|ev events IH]; [done|].
  change (tag tid' (ev :: events)) with ((tid', ev) :: tag tid' events).
  rewrite eventsOf_cons, IH. by destruct (decide (tid' = tid)).
Qed.

Lemma eventsOf_fresh (tid : nat) (t : list (nat * Event)) :
  (∀ ev, (tid, ev) ∉ t) → eventsOf tid t = [].
Proof.
  induction t as [|[tid' ev] t IH]; intros Hfresh; [done|].
  rewrite eventsOf_cons. destruct (decide (tid' = tid)) as [->|Hne].
  - exfalso. apply (Hfresh ev). by left.
  - apply IH. intros ev' Hin. apply (Hfresh ev'). by right.
Qed.

Lemma elem_of_tag (tid tid' : nat) (ev : Event) (events : list Event) :
  (tid, ev) ∈ tag tid' events → tid = tid'.
Proof.
  unfold tag. intros (ev' & [= -> ->] & _)%list_elem_of_fmap. done.
Qed.

Lemma Inv_initial (loaded : gset string) : Inv (initial loaded).
Proof.
  split.
  - intros tid ev H. by apply elem_of_nil in H.
  - intros tid pc H. simpl in H. by rewrite lookup_nil in H.
Qed.

(** An activation that does not exist yet has no events. *)
Lemma Inv_fresh (c : Config) (tid : nat) :
  Inv c → length (tasks c) ≤ tid → eventsOf tid (trace c) = [].
Proof.
  intros [Hbound _] Hge. apply eventsOf_fresh. intros ev Hin.
  apply Hbound in Hin. lia.
Qed.

Lemma Inv_step (c : Config) (input : Action * Env) : Inv c → Inv (step c input).
Proof.
  intros HInv. pose proof HInv as [Hbound Htasks].
  destruct input as [[api|tid0] env]; simpl.
  - (* a call of a public method *)
    destruct (call_stage [] env api (enter (engine c)) eq_refl) as (s' & Htrack & Hfits & Ht).
    destruct (call env api (enter (engine c))) as [w pc]. simpl in *.
    specialize (Ht ltac:(by constructor)).
    split; simpl.
    + intros tid ev [Hin|Hin%elem_of_tag]%elem_of_app; rewrite length_app; simpl.
      * apply Hbound in Hin. lia.
      * lia.
    + intros tid pc' Hlookup. unfold accepted. simpl. rewrite eventsOf_app.
      destruct (decide (tid < length (tasks c))) as [Hlt|Hge].
      * rewrite lookup_app_l in Hlookup by done.
        destruct (Htasks tid pc' Hlookup) as (s & Hs & Hfits').
        exists s. rewrite eventsOf_tag_ne, app_nil_r by lia. done.
      * rewrite lookup_app_r in Hlookup by lia.
        rewrite (Inv_fresh c tid HInv) by lia. simpl.
        destruct (tid - length (tasks c)) as [|n] eqn:Hn; simpl in Hlookup.
        -- injection Hlookup as <-. assert (tid = length (tasks c)) as -> by lia.
           rewrite eventsOf_tag. by exists s'.
        -- rewrite eventsOf_tag_ne by lia.
           apply list_elem_of_lookup_2 in Hlookup.
           unfold timersOnly in Ht. rewrite Forall_forall in Ht. rewrite (Ht _ Hlookup).
           by exists firstStage.
  - (* an activation is resumed *)
    destruct (tasks c !! tid0) as [pc0|] eqn:Hpc0; [|done].
    destruct (Htasks tid0 pc0 Hpc0) as (s0 & Hs0 & Hfits0).
    destruct (wake_stage (eventsOf tid0 (trace c)) env pc0 (enter (engine c)) s0)
      as (s' & Htrack & Hfits & _ & Ht); try done.
    { unfold track. simpl. by rewrite app_nil_r. }
    destruct (wake env pc0 (enter (engine c))) as [w pc]. simpl in *.
    specialize (Ht ltac:(by constructor)).
    pose proof (lookup_lt_Some _ _ _ Hpc0) as Hlt0.
    split; simpl.
    + intros tid ev [Hin|Hin%elem_of_tag]%elem_of_app;
        rewrite length_app, length_insert.
      * apply Hbound in Hin. lia.
      * lia.
    + intros tid pc' Hlookup. unfold accepted. simpl. rewrite eventsOf_app.
      destruct (decide (tid < length (tasks c))) as [Hlt|Hge].
      * rewrite lookup_app_l in Hlookup by (by rewrite length_insert).
        destruct (decide (tid = tid0)) as [->|Hne].
        -- rewrite list_lookup_insert_eq in Hlookup by done. injection Hlookup as <-.
           rewrite eventsOf_tag. by exists s'.
        -- rewrite list_lookup_insert_ne in Hlookup by done.
           destruct (Htasks tid pc' Hlookup) as (s & Hs & Hfits').
           exists s. rewrite eventsOf_tag_ne, app_nil_r by done. done.
      * rewrite lookup_app_r in Hlookup by (rewrite length_insert; lia).
        rewrite (Inv_fresh c tid HInv) by lia.
        rewrite eventsOf_tag_ne by lia. simpl.
        apply list_elem_of_lookup_2 in Hlookup.
        unfold timersOnly in Ht. rewrite Forall_forall in Ht. rewrite (Ht _ Hlookup).
        by exists firstStage.
Qed.

Lemma Inv_run (inputs : list (Action * Env)) (c : Config) : Inv c → Inv (run inputs c).
Proof.
  revert c. induction inputs as [|input inputs IH]; intros c HInv; [done|].
  simpl. apply IH. by apply Inv_step.
Qed.

Lemma advance_split (pre post : list Event) (ev : Event) (s : Stage) :
  advance (Some firstStage) (pre ++ ev :: post) = Some s →
  ∃ s1 s2, advance (Some firstStage) pre = Some s1 ∧ stageStep s1 ev = Some s2.
Proof.
  rewrite advance_app. destruct (advance (Some firstStage) pre) as [s1|].
  - simpl. destruct (stageStep s1 ev) as [s2|] eqn:Hstep.
    + intros _. by exists s1, s2.
    + by rewrite advance_None.
  - by rewrite advance_None.
Qed.

Lemma reachable_accepted (loaded : gset string) (inputs : list (Action * Env)) (tid : nat) :
  ∃ s, accepted (run inputs (initial loaded)) tid s.
Proof.
  pose proof (Inv_run inputs _ (Inv_initial loaded)) as HInv.
  destruct (tasks (run inputs (initial loaded)) !! tid) as [pc|] eqn:Hpc.
  - destruct HInv as [_ Htasks]. destruct (Htasks tid pc Hpc) as (s & Hs & _). by exists s.
  - exists firstStage. unfold accepted.
    rewrite (Inv_fresh _ tid HInv); [done|]. by apply lookup_ge_None.
Qed.

(** ** The order of the phases *)

(** The marks of an activation are raised in the order of the phases. *)
Lemma marks_in_order (loaded : gset string) (inputs : list (Action * Env)) (tid : nat) :
  let events := eventsOf tid (trace (run inputs (initial loaded))) in
  (∀ pre t post, events = pre ++ AnchorRecorded t :: post →
     dispatched pre = []
     ∧ ∃ how, StartCueSettled how ∈ pre
         ∧ ((∃ key, AudioPlay key false ∈ pre) → how = Ended ∨ how = Interrupted))
  ∧ (∀ pre i post, events = pre ++ Dispatch i :: post →
       dispatched pre = seq 0 i
       ∧ (∃ t, AnchorRecorded t ∈ pre)
       ∧ (StartCueSettled Ended ∈ pre ∨ StartCueSettled NoStartCue ∈ pre)
       ∧ ((∃ key, AudioPlay key false ∈ pre) → StartCueSettled Ended ∈ pre))
  ∧ (∀ pre post, events = pre ++ StartCueSettled Ended :: post →
       ∃ key, AudioPlay key false ∈ pre).
Proof.
  destruct (reachable_accepted loaded inputs tid) as [s Hs]. unfold accepted in Hs.
  cbv zeta. split; [|split].
  - intros pre t post Heq.
    rewrite Heq in Hs. apply advance_split in Hs as (s1 & s2 & Hs1 & Hstep).
    apply advance_summarises in Hs1 as (Hd & Ha & Hset & Hp & Hcons & Hz).
    simpl in Hstep. destruct (settledAs s1) as [how|] eqn:Hsettled; [|done].
    destruct (negb (anchored s1) && (cues s1 =? 0)) eqn:Hok; [|done].
    apply andb_true_iff in Hok as [_ Hc%Nat.eqb_eq].
    split; [by rewrite Hd, Hc|].
    exists how. split; [by apply Hset|].
    intros Hplayed%Hp. specialize (Hcons how eq_refl). rewrite Hplayed in Hcons.
    destruct how; simpl in Hcons; try done; auto.
  - intros pre i post Heq.
    rewrite Heq in Hs. apply advance_split in Hs as (s1 & s2 & Hs1 & Hstep).
    apply advance_summarises in Hs1 as (Hd & Ha & Hset & Hp & Hcons & Hz).
    simpl in Hstep.
    destruct (anchored s1 && mayDispatch (settledAs s1) && (i =? cues s1)) eqn:Hok;
      [|done].
    apply andb_true_iff in Hok as [[Han Hmay]%andb_true_iff Hi%Nat.eqb_eq].
    split; [by rewrite Hd, Hi|]. split; [by apply Ha|].
    destruct (settledAs s1) as [[| | |]|] eqn:Hsettled; try done.
    + split; [left; by apply Hset|]. intros _. by apply Hset.
    + split; [right; by apply Hset|]. intros Hplayed%Hp.
      specialize (Hcons NoStartCue eq_refl). simpl in Hcons. congruence.
  - intros pre post Heq.
    rewrite Heq in Hs. apply advance_split in Hs as (s1 & s2 & Hs1 & Hstep).
    apply advance_summarises in Hs1 as (Hd & Ha & Hset & Hp & Hcons & Hz).
    unfold stageStep in Hstep. destruct (settledAs s1); [done|].
    destruct (startPlayed s1) eqn:Hplayed; [by apply Hp|].
    simpl in Hstep. by rewrite andb_false_r in Hstep.
Qed.

(** ** A run of the periodic loop without interference *)

Lemma raise_nil (w : World) : raise [] w = w.
Proof. destruct w. unfold raise. simpl. by rewrite app_nil_r. Qed.



















Lemma sameSetup_refl (e : Engine) : sameSetup e e.
Proof. done. Qed.



Lemma step_wake_events (c : Config) (tid : nat) (env : Env) (pc : Pc) :
  tasks c !! tid = Some pc →
  step c (Wake tid, env)
  = {| engine := eng (wake env pc (enter (engine c))).1;
       tasks := <[tid := (wake env pc (enter (engine c))).2]> (tasks c)
                ++ spawned (wake env pc (enter (engine c))).1;
       trace := trace c ++ tag tid (out (wake env pc (enter (engine c))).1) |}.
Proof.
  intros Hpc. simpl. rewrite Hpc. by destruct (wake env pc (enter (engine c))).
Qed.

Lemma step_call_events (c : Config) (api : Api) (env : Env) :
  step c (Call api, env)
  = {| engine := eng (call env api (enter (engine c))).1;
       tasks := tasks c ++ (call env api (enter (engine c))).2
                  :: spawned (call env api (enter (engine c))).1;
       trace := trace c ++ tag (length (tasks c)) (out (call env api (enter (engine c))).1) |}.
Proof. simpl. by destruct (call env api (enter (engine c))). Qed.

Lemma elem_of_tag_inv (tid tid' : nat) (ev : Event) (events : list Event) :
  (tid', ev) ∈ tag tid events → ev ∈ events.
Proof.
  unfold tag. intros Hin. apply list_elem_of_fmap in Hin as (ev' & [= _ ->] & Hin). done.
Qed.



(** ** A cue that fails to sound *)




(** When the play promise of cue 1 rejects instead, the three cues are
    dispatched and notified, and the engine reports completion. *)
Example failed_cue_run :
  let c := run (wakes 0 sampleWakes) startCueSounding in
  tasks c !! 0 = Some Finished
  ∧ dispatched (eventsOf 0 (trace c)) = [0; 1; 2]
  ∧ raisedErrors (eventsOf 0 (trace c)) = []
  ∧ progressed (eventsOf 0 (trace c)) = [0; 1; 2]
  ∧ highlightedChars (eventsOf 0 (trace c)) = [0; 1; 2]
  ∧ isPlaying (engine c) = false
  ∧ last (eventsOf 0 (trace c)) = Some SequenceComplete.
Proof. vm_compute. repeat split. Qed.

(** With the file of the periodic cue missing (only the start cue was
    loaded), every cue fails in [playAudio]: the loop runs to its end and
    reports completion, and no index is notified. *)
Example missing_cue_file_run :
  let c :=
    run ((Call (StartPlayback (Some sampleText)), quietEnv 1000)
         :: wakes 0 (quietEnv 1010 :: quietWakes)) (initial {[ "bowl"%string ]}) in
  tasks c !! 0 = Some Finished
  ∧ dispatched (eventsOf 0 (trace c)) = [0; 1; 2]
  ∧ raisedErrors (eventsOf 0 (trace c))
    = [AudioNotFound "muyu"; AudioNotFound "muyu"; AudioNotFound "muyu"]
  ∧ progressed (eventsOf 0 (trace c)) = []
  ∧ highlightedChars (eventsOf 0 (trace c)) = []
  ∧ isPlaying (engine c) = false
  ∧ last (eventsOf 0 (trace c)) = Some SequenceComplete.
Proof. vm_compute. repeat split. Qed.

(** ** A change of speed during the periodic loop *)

Lemma trace_step (c : Config) (input : Action * Env) :
  ∃ extra, trace (step c input) = trace c ++ extra.
Proof.
  destruct input as [[api|tid] env]; simpl.
  - destruct (call env api (enter (engine c))) as [w pc]. by eexists.
  - destruct (tasks c !! tid) as [pc|]; [|exists []; by rewrite app_nil_r].
    destruct (wake env pc (enter (engine c))) as [w pc']. by eexists.
Qed.

Lemma trace_run (inputs : list (Action * Env)) (c : Config) :
  ∃ extra, trace (run inputs c) = trace c ++ extra.
Proof.
  revert c. induction inputs as [|input inputs IH]; intros c.
  - exists []. by rewrite app_nil_r.
  - simpl. destruct (IH (step c input)) as [extra Hextra].
    destruct (trace_step c input) as [extra0 Hextra0].
    exists (extra0 ++ extra). unfold run in *. simpl. by rewrite Hextra, Hextra0, app_assoc.
Qed.

Lemma run_app (l k : list (Action * Env)) (c : Config) :
  run (l ++ k) c = run k (run l c).
Proof. apply foldl_app. Qed.

(** The cues that a reachable activation has dispatched are 0, ..., n-1, and
    stay so, whatever happens next. *)
Lemma dispatched_continues (loaded : gset string) (inputs more : list (Action * Env))
    (tid i : nat) :
  dispatched (eventsOf tid (trace (run inputs (initial loaded)))) = seq 0 i →
  ∃ n, dispatched (eventsOf tid (trace (run more (run inputs (initial loaded)))))
       = seq 0 (i + n).
Proof.
  intros Hnow.
  destruct (trace_run more (run inputs (initial loaded))) as [extra Hextra].
  rewrite <- run_app in *.
  destruct (reachable_accepted loaded (inputs ++ more) tid) as [s Hs].
  apply advance_summarises in Hs as (Hd & _).
  rewrite Hextra, eventsOf_app, dispatched_app, Hnow in Hd.
  exists (length (dispatched (eventsOf tid extra))).
  rewrite Hextra, eventsOf_app, dispatched_app, Hnow.
  rewrite Hd. f_equal.
  apply (f_equal length) in Hd. rewrite length_app, !length_seq in Hd. lia.
Qed.

Lemma muyuAfterWait_dispatches (env : Env) (i : nat) (event : PlayEvent) (e : Engine) :
  isPlaying e = true → isPaused e = false →
  ∃ rest, out (muyuAfterWait env i event (enter e)).1 = Dispatch i :: rest.
Proof.
  intros Hplaying Hpaused. unfold muyuAfterWait, playAudioNoWait. simpl.
  rewrite Hplaying, Hpaused. simpl.
  assert (Hnotify : ∀ w rest, out w = Dispatch i :: rest →
            ∃ rest', out (let '(w2, c) := notifySequenceProgress i event w in
                          match c with
                          | Normal => (w2, Continue)
                          | Throw err => muyuCatch err w2
                          end).1 = Dispatch i :: rest').
  { intros w rest Hw. unfold notifySequenceProgress, muyuCatch.
    destruct (characterIndex event), (textManager (eng w)); simpl;
      destruct (currentSequence (eng w)); simpl; rewrite ?Hw;
      try (by eexists);
      match goal with
      | |- context [if ?b then _ else _] => destruct b
      end; simpl; rewrite ?Hw; by eexists. }
  destruct (decide (type event ∈ audioFiles e)).
  - destruct (plays env i) as [err|[err|]]; simpl.
    + unfold playAudioCatch, muyuCatch. simpl. rewrite Hplaying, andb_false_r. simpl.
      rewrite Hplaying, andb_false_r. by eexists.
    + by apply (Hnotify _ [AudioPlay (type event) true; AudioPlayRejected (type event) err]).
    + by apply (Hnotify _ [AudioPlay (type event) true]).
  - unfold muyuCatch. simpl. by eexists.
Qed.

Lemma executeMuyuFrom_extends (env : Env) (muyuEvents rest : list PlayEvent) (i : nat)
    (w : World) :
  ∃ more, out (executeMuyuFrom env muyuEvents rest i w).1 = out w ++ more.
Proof.
  revert i w. induction rest as [|event rest IH]; intros i w.
  - simpl. unfold completePlayback.
    destruct (isLooping (eng w)), (textManager (eng w)); simpl;
      rewrite <- ?app_assoc; by eexists.
  - simpl. destruct (negb (isPlaying (eng w)) || isPaused (eng w)) eqn:Hflags.
    { exists []. by rewrite app_nil_r. }
    match goal with
    | |- context [if ?c then _ else _] => destruct c
    end.
    { exists []. by rewrite app_nil_r. }
    assert (∃ more, out (muyuAfterWait env i event w).1 = out w ++ more) as [m1 Hm1].
    { unfold muyuAfterWait. rewrite Hflags.
      unfold playAudioNoWait, playAudioCatch, notifySequenceProgress, muyuCatch. simpl.
      repeat (match goal with
              | |- context [match ?x with _ => _ end] =>
                  lazymatch x with
                  | context [match _ with _ => _ end] => fail
                  | _ => destruct x eqn:?
                  end
              end; simpl); rewrite <- ?app_assoc; by eexists. }
    destruct (muyuAfterWait env i event w) as [w1 [|]]; simpl in *.
    + destruct (IH (S i) w1) as [m2 Hm2]. exists (m1 ++ m2).
      by rewrite Hm2, Hm1, app_assoc.
    + by exists m1.
Qed.

Lemma wake_poll_dispatches (env : Env) (muyuEvents : list PlayEvent) (i : nat)
    (startTime delay : float) (e : Engine) :
  i < length muyuEvents →
  isPlaying e = true → isPaused e = false →
  checkAndWait e startTime delay (timerNow env) = true →
  ∃ rest,
    out (wake env (MuyuPoll muyuEvents i startTime delay) (enter e)).1 = Dispatch i :: rest.
Proof.
  intros Hi Hplaying Hpaused Hcheck. simpl. rewrite Hcheck.
  destruct (lookup_lt_is_Some_2 muyuEvents i Hi) as [event Hevent].
  rewrite (drop_S _ _ _ Hevent).
  destruct (muyuAfterWait_dispatches env i event e Hplaying Hpaused) as [rest Hrest].
  destruct (muyuAfterWait env i event (enter e)) as [w1 [|]]; simpl in *.
  - destruct (executeMuyuFrom_extends env muyuEvents (drop (S i) muyuEvents) (S i) w1)
      as [more Hmore].
    rewrite Hmore, Hrest. by eexists.
  - by eexists.
Qed.

(** C3.  While an activation waits in its periodic loop for cue [i], a call
    of [setPlaybackSpeed], with whatever speed, starts no playback and raises
    no event of that activation: the activation stays in its wait for cue [i],
    and the playing and paused flags, the sequence and its index keep their
    values.  The pending wait ends at the same clock reading as without the
    call, and when it ends the activation dispatches cue [i] first.  Whatever
    happens later, with or without the call, the cues that the activation has
    dispatched are 0, 1, 2, ... without a gap or a repetition, so that the
    next cue after the call is cue [i]. *)
Theorem speed_change_keeps_cursor (loaded : gset string) (inputs : list (Action * Env))
    (tid : nat) (muyuEvents : list PlayEvent) (i : nat) (startTime delay speed : float)
    (env : Env) :
  let c := run inputs (initial loaded) in
  tasks c !! tid = Some (MuyuPoll muyuEvents i startTime delay) →
  let c' := step c (Call (SetPlaybackSpeed speed), env) in
  (tasks c' = tasks c ++ [Finished]
   ∧ tasks c' !! tid = Some (MuyuPoll muyuEvents i startTime delay)
   ∧ eventsOf tid (trace c') = eventsOf tid (trace c)
   ∧ isPlaying (engine c') = isPlaying (engine c)
   ∧ isPaused (engine c') = isPaused (engine c)
   ∧ currentSequence (engine c') = currentSequence (engine c)
   ∧ sequenceIndex (engine c') = sequenceIndex (engine c))
  ∧ dispatched (eventsOf tid (trace c)) = seq 0 i
  ∧ (∀ more, ∃ n, dispatched (eventsOf tid (trace (run more c'))) = seq 0 (i + n))
  ∧ (∀ more, ∃ n, dispatched (eventsOf tid (trace (run more c))) = seq 0 (i + n))
  ∧ (∀ now, checkAndWait (engine c') startTime delay now
            = checkAndWait (engine c) startTime delay now)
  ∧ (∀ env', isPlaying (engine c) = true → isPaused (engine c) = false →
       checkAndWait (engine c) startTime delay (timerNow env') = true →
       (∃ rest, out (wake env' (MuyuPoll muyuEvents i startTime delay)
                       (enter (engine c'))).1 = Dispatch i :: rest)
       ∧ (∃ rest, out (wake env' (MuyuPoll muyuEvents i startTime delay)
                         (enter (engine c))).1 = Dispatch i :: rest)).
Proof.
  intros c Hpc c'.
  pose proof (Inv_run inputs _ (Inv_initial loaded)) as HInv. fold c in HInv.
  destruct HInv as [Hbound Htasks].
  destruct (Htasks tid _ Hpc) as (s & Hs & (Hanchored & Hmay & Hcues & Hi)).
  pose proof (lookup_lt_Some _ _ _ Hpc) as Hlt.
  assert (Hnow : dispatched (eventsOf tid (trace c)) = seq 0 i).
  { apply advance_summarises in Hs as (Hd & _). by rewrite Hd, Hcues. }
  assert (Hengine : isPlaying (engine c') = isPlaying (engine c)
                    ∧ isPaused (engine c') = isPaused (engine c)
                    ∧ currentSequence (engine c') = currentSequence (engine c)
                    ∧ sequenceIndex (engine c') = sequenceIndex (engine c)).
  { unfold c'. simpl. unfold setPlaybackSpeed.
    destruct ((speed <? minSpeed)%float || (maxSpeed <? speed)%float); simpl; [done|].
    destruct (isPlaying (engine c)) eqn:Hplaying; simpl; [|done].
    unfold adjustPlaybackSpeed. simpl. rewrite Hplaying. simpl.
    by destruct (negb (Js.truthy_opt (muyuStartTime (engine c)))). }
  assert (Hc' : tasks c' = tasks c ++ [Finished]
                ∧ eventsOf tid (trace c') = eventsOf tid (trace c)).
  { unfold c', step, call, setPlaybackSpeed.
    destruct ((speed <? minSpeed)%float || (maxSpeed <? speed)%float).
    - cbn [eng out spawned emit enter trace tasks].
      rewrite eventsOf_app, eventsOf_tag_ne, app_nil_r by lia. done.
    - destruct (isPlaying (eng (update (setSpeed speed) (enter (engine c)))));
        cbn [eng out spawned update enter trace tasks];
        rewrite eventsOf_app, eventsOf_tag_ne, app_nil_r by lia; done. }
  destruct Hc' as [Htasks' Hevents'].
  destruct Hengine as (Hplaying' & Hpaused' & Hsequence' & Hindex').
  split; [|split; [done|split; [|split; [|split]]]].
  - repeat split; try done. rewrite Htasks'. by rewrite lookup_app_l.
  - intros more.
    destruct (dispatched_continues loaded (inputs ++ [(Call (SetPlaybackSpeed speed), env)])
                more tid i) as [n Hn].
    + rewrite run_app. change (dispatched (eventsOf tid (trace c')) = seq 0 i).
      by rewrite Hevents'.
    + exists n. rewrite run_app in Hn. exact Hn.
  - intros more. by apply dispatched_continues.
  - intros now. unfold checkAndWait. by rewrite Hplaying', Hpaused'.
  - intros env' Hplaying Hpaused Hcheck. split.
    + apply wake_poll_dispatches; try done; try congruence.
      unfold checkAndWait in *. by rewrite Hplaying', Hpaused'.
    + by apply wake_poll_dispatches.
Qed.

(** ** Empty text *)

(** C6, as the code has it.  [startPlayback] rejects a missing text manager
    and an empty text: it calls [onError], throws towards its caller, fires no
    cue, reports no completion and leaves the engine as it was. *)
Theorem empty_text_is_rejected (env : Env) (w : World) (manager : option (list CharData)) :
  manager = None ∨ manager = Some [] →
  startPlayback env manager w = (handleError EmptyText w, Finished, Throw EmptyText)
  ∧ call env (StartPlayback manager) w
    = (emit (Thrown EmptyText) (emit (ErrorRaised EmptyText) w), Finished)
  ∧ eng (call env (StartPlayback manager) w).1 = eng w.
Proof. by intros [-> | ->]. Qed.

Lemma empty_text_is_rejected_example :
  call (quietEnv 1000) (StartPlayback (Some [])) (enter (newEngine bothFiles))
  = (emit (Thrown EmptyText) (emit (ErrorRaised EmptyText) (enter (newEngine bothFiles))),
     Finished).
Proof.
  exact (proj1 (proj2 (empty_text_is_rejected (quietEnv 1000) (enter (newEngine bothFiles))
                         (Some []) (or_intror eq_refl)))).
Defined.

(** C6 as stated fails: started on an empty text, the engine raises an error
    and fires no start cue, and [onSequenceComplete] is not called. *)
Lemma empty_text_fires_nothing :
  let c := step (initial bothFiles) (Call (StartPlayback (Some [])), quietEnv 1000) in
  trace c = [(0, ErrorRaised EmptyText); (0, Thrown EmptyText)]
  ∧ ¬ (∃ key noWait, (0, AudioPlay key noWait) ∈ trace c)
  ∧ (0, SequenceComplete) ∉ trace c.
Proof.
  cbv zeta.
  assert (trace (step (initial bothFiles) (Call (StartPlayback (Some [])), quietEnv 1000))
          = [(0, ErrorRaised EmptyText); (0, Thrown EmptyText)]) as -> by reflexivity.
  split; [done|]. split.
  - intros (key & noWait & Hin). set_unfold. naive_solver.
  - set_unfold. naive_solver.
Qed.

(** A text that is not empty but has no verbal unit passes the guard: the
    start cue is played to its end, the second phase finds no cue, and the
    call returns with the engine still playing and no completion reported. *)
Example text_without_cues_run :
  let c :=
    run [(Call (StartPlayback (Some [punctuationMark 0 0])), quietEnv 1000);
         (Wake 0, quietEnv 1010); (Wake 0, quietEnv 3000)] (initial bothFiles) in
  tasks c = [Finished]
  ∧ eventsOf 0 (trace c)
    = [PlayStateChange true false; AudioPlay "bowl" false; StartCueSettled Ended]
  ∧ isPlaying (engine c) = true.
Proof. vm_compute. repeat split. Qed.

(** ** Repeat mode *)

(** C5 at its failing input.  With repeat mode on, the loop over the sample
    text ends at 5000 ms: the highlight is reset and the restart is scheduled
    for one second later, but the engine still counts as playing.  When the
    timer runs at 6000 ms, [startPlaybackSequence] finds [isPlaying] set and
    returns with its warning: no start cue is fired, and nothing is pending
    any more. *)
Theorem loop_restart_is_rejected :
  let looping :=
    run ((Call (SetLooping true), quietEnv 3050) :: wakes 0 (drop 1 quietWakes))
      (run waitingForCue1 (initial bothFiles)) in
  let restarted := step looping (Wake 2, quietEnv 6000) in
  tasks looping = [Finished; Finished; RestartTimer]
  ∧ isPlaying (engine looping) = true
  ∧ dispatched (eventsOf 0 (trace looping)) = [0; 1; 2]
  ∧ drop 16 (eventsOf 0 (trace looping)) = [ResetPosition; RestartScheduled 1000]
  ∧ eventsOf 2 (trace restarted) = [ConsoleWarn AlreadyPlaying]
  ∧ tasks restarted = [Finished; Finished; Finished]
  ∧ trace restarted = trace looping ++ [(2, ConsoleWarn AlreadyPlaying)].
Proof. vm_compute. repeat split. Qed.

(** ** Pause and resume *)

(** C4 at its failing input.  The sample text plays since 1000 ms, its
    periodic phase is anchored at 3000 ms and cue 0 is out; the wait for cue 1
    (due at 4000 ms) is paused at 3300 ms and resumed at 8300 ms.  The anchor
    is still 3000 ms after the resumption, the resumption starts the older
    executor at sequence index 0, which fires the start cue again, and the
    next timer of the periodic loop, at 8400 ms, dispatches cues 1 and 2 at
    once and completes the sequence. *)
Theorem resume_replays_and_keeps_the_anchor :
  let waiting := run waitingForCue1 (initial bothFiles) in
  let paused :=
    run [(Call PausePlayback, quietEnv 3300); (Wake 0, quietEnv 3400)] waiting in
  let resumed := step paused (Call ResumePlayback, quietEnv 8300) in
  let later := step resumed (Wake 0, quietEnv 8400) in
  (∃ muyuEvents, tasks waiting !! 0 = Some (MuyuPoll muyuEvents 1 3000 1000)
     ∧ tasks paused !! 0 = Some (MuyuPoll muyuEvents 1 3000 1000))
  ∧ muyuStartTime (engine waiting) = Some 3000%float
  ∧ muyuStartTime (engine paused) = Some 3000%float
  ∧ muyuStartTime (engine resumed) = Some 3000%float
  ∧ sequenceIndex (engine paused) = 0
  ∧ eventsOf 2 (trace resumed) = [PlayStateChange true false; AudioPlay "bowl" false]
  ∧ tasks resumed !! 2 = Some (SeqAwaitPlay startBowl)
  ∧ dispatched (eventsOf 0 (trace resumed)) = [0]
  ∧ dispatched (eventsOf 0 (trace later)) = [0; 1; 2]
  ∧ tasks later !! 0 = Some Finished
  ∧ isPlaying (engine later) = false.
Proof.
  cbv zeta. split.
  - eexists. split; vm_compute; reflexivity.
  - vm_compute. repeat split.
Qed.


Lemma speed_change_keeps_cursor_example :
  let c := run waitingForCue1 (initial bothFiles) in
  let c' := step c (Call (SetPlaybackSpeed 2), quietEnv 3500) in
  dispatched (eventsOf 0 (trace c)) = seq 0 1
  ∧ ∀ more, ∃ n, dispatched (eventsOf 0 (trace (run more c'))) = seq 0 (1 + n).
Proof.
  pose proof (speed_change_keeps_cursor bothFiles waitingForCue1 0
                (List.filter isMuyu sampleSequence) 1 3000 1000 2 (quietEnv 3500)) as H.
  cbv zeta in H. destruct H as (_ & H1 & H2 & _).
  - vm_compute. reflexivity.
  - exact (conj H1 H2).
Defined.

(** In that run the call at 3500 ms moves the anchor from 3000 ms to 3250 ms
    and the cursor stays at cue 1; the timer at 4000 ms dispatches cue 1. *)
Example speed_change_run :
  let c := run waitingForCue1 (initial bothFiles) in
  let c' := step c (Call (SetPlaybackSpeed 2), quietEnv 3500) in
  muyuStartTime (engine c) = Some 3000%float
  ∧ muyuStartTime (engine c') = Some 3250%float
  ∧ playbackSpeed (engine c') = 2%float
  ∧ tasks c' !! 0 = tasks c !! 0
  ∧ dispatched (eventsOf 0 (trace (step c' (Wake 0, quietEnv 4000)))) = [0; 1]
  ∧ dispatched (eventsOf 0 (trace (step c (Wake 0, quietEnv 4000)))) = [0; 1].
Proof. vm_compute. repeat split. Qed.

(** * Further properties of the code *)

(** ** The anchor and the clock *)

Lemma seqAfterWait_pc (env : Env) (currentEvent : PlayEvent) (w : World) :
  match (seqAfterWait env currentEvent w).2 with
  | Some pc => legacyPc pc
  | None => True
  end.
Proof.
  unfold seqAfterWait, seqAdvance. destruct (_ || _); [done|].
  destruct (noWait currentEvent).
  - destruct (playAudioNoWait _ _ w) as [w1 [|err]]; [|done].
    by destruct (notifySequenceProgress _ _ w1) as [w2 [|err]].
  - destruct (playAudioStart _ _ w) as [w1 [[|err]|]]; [|done|done].
    by destruct (notifySequenceProgress _ _ w1) as [w2 [|err]].
Qed.

Lemma calm_refl (w : World) : calm w w.
Proof. split; [done|]. exists []. by rewrite app_nil_r. Qed.

Lemma calm_trans (w1 w2 w3 : World) : calm w1 w2 → calm w2 w3 → calm w1 w3.
Proof.
  intros [H1 (a1 & Ho1 & Ha1)] [H2 (a2 & Ho2 & Ha2)]. split; [congruence|].
  exists (a1 ++ a2). rewrite Ho2, Ho1, app_assoc. split; [done|]. by apply Forall_app.
Qed.

Lemma calm_emit (ev : Event) (w : World) : isAnchor ev = false → calm w (emit ev w).
Proof. intros Hev. split; [done|]. exists [ev]. split; [done|]. by apply Forall_singleton. Qed.

Lemma calm_update (f : Engine → Engine) (w : World) :
  muyuStartTime (f (eng w)) = muyuStartTime (eng w) → calm w (update f w).
Proof. intros Hf. split; [done|]. exists []. by rewrite app_nil_r. Qed.

Ltac calm_steps :=
  repeat first
    [ apply calm_refl
    | (eapply calm_trans; [|apply calm_emit; reflexivity])
    | (eapply calm_trans; [|apply calm_update; reflexivity]) ].

Lemma calm_stopPlayback (w : World) : calm w (stopPlayback w).
Proof.
  unfold stopPlayback, notifyPlayStateChange. cbv zeta.
  destruct (textManager _); calm_steps.
Qed.

Lemma calm_failPlayback (err : JsError) (w : World) : calm w (failPlayback err w).
Proof.
  unfold failPlayback, handleError.
  eapply calm_trans; [|apply calm_stopPlayback]. by apply calm_emit.
Qed.

Lemma calm_completePlayback (w : World) : calm w (completePlayback w).
Proof.
  unfold completePlayback, notifySequenceComplete, notifyPlayStateChange.
  destruct (isLooping (eng w)), (textManager (eng w)); try calm_steps.
Qed.

Lemma calm_notifySequenceProgress (i : nat) (event : PlayEvent) (w : World) :
  calm w (notifySequenceProgress i event w).1.
Proof.
  unfold notifySequenceProgress.
  destruct (characterIndex event), (textManager (eng w)); simpl;
    destruct (currentSequence (eng w)); simpl; calm_steps.
Qed.

Lemma calm_playAudioCatch (err : JsError) (w : World) : calm w (playAudioCatch err w).1.
Proof. unfold playAudioCatch, handleError. destruct (_ && _); simpl; calm_steps. Qed.

Lemma calm_playAudioNoWait (o : PlayOutcome) (key : string) (w : World) :
  calm w (playAudioNoWait o key w).1.
Proof.
  unfold playAudioNoWait, handleError. destruct (negb _); [apply calm_refl|].
  destruct (decide _); [|simpl; calm_steps].
  destruct o as [err|[err|]]; simpl; try calm_steps. apply calm_playAudioCatch.
Qed.

Lemma calm_playAudioStart (o : PlayOutcome) (key : string) (w : World) :
  calm w (playAudioStart o key w).1.
Proof.
  unfold playAudioStart, handleError. destruct (negb _); [apply calm_refl|].
  destruct (decide _); [|simpl; calm_steps].
  destruct o as [err|fate]; simpl; try calm_steps.
  pose proof (calm_playAudioCatch err w) as Hcatch.
  by destruct (playAudioCatch err w).
Qed.

Lemma calm_muyuAfterWait (env : Env) (i : nat) (event : PlayEvent) (w : World) :
  calm w (muyuAfterWait env i event w).1.
Proof.
  unfold muyuAfterWait. destruct (_ || _); [apply calm_refl|].
  pose proof (calm_playAudioNoWait (plays env i) (type event) (emit (Dispatch i) w)) as Hplay.
  assert (calm w (playAudioNoWait (plays env i) (type event) (emit (Dispatch i) w)).1)
    as Hplayed by (eapply calm_trans; [|exact Hplay]; by apply calm_emit).
  destruct (playAudioNoWait _ _ _) as [w1 [|err]]; simpl in *.
  - pose proof (calm_notifySequenceProgress i event w1) as Hnotify.
    destruct (notifySequenceProgress i event w1) as [w2 [|err]]; simpl in *.
    + by eapply calm_trans.
    + unfold muyuCatch. destruct (_ && _); simpl; by eapply calm_trans.
  - unfold muyuCatch. by destruct (_ && _).
Qed.

Lemma calm_executeMuyuFrom (env : Env) (muyuEvents rest : list PlayEvent) (i : nat)
    (w : World) :
  calm w (executeMuyuFrom env muyuEvents rest i w).1.
Proof.
  revert i w. induction rest as [|event rest IH]; intros i w.
  - apply calm_completePlayback.
  - cbn [executeMuyuFrom]. destruct (_ || _); [apply calm_refl|].
    cbv zeta. destruct (_ && _); [apply calm_refl|].
    pose proof (calm_muyuAfterWait env i event w) as Hiter.
    destruct (muyuAfterWait env i event w) as [w1 [|]]; simpl in *; [|done].
    eapply calm_trans; [exact Hiter|apply IH].
Qed.

Lemma calm_pausePlayback (w : World) : calm w (pausePlayback w).
Proof. unfold pausePlayback, notifyPlayStateChange. destruct (_ && _); calm_steps. Qed.

Lemma calm_resetPlayback (w : World) : calm w (resetPlayback w).
Proof.
  unfold resetPlayback. cbv zeta. pose proof (calm_stopPlayback w) as Hstop.
  destruct (textManager _); [|done].
  eapply calm_trans; [exact Hstop|]. calm_steps.
Qed.

Lemma calm_dispose (w : World) : calm w (dispose w).
Proof.
  unfold dispose. eapply calm_trans; [apply calm_stopPlayback|]. by apply calm_update.
Qed.

Lemma calm_seqAdvance (currentEvent : PlayEvent) (w : World) :
  calm w (seqAdvance currentEvent w).1.
Proof.
  unfold seqAdvance.
  pose proof (calm_notifySequenceProgress (sequenceIndex (eng w)) currentEvent w) as Hnotify.
  destruct (notifySequenceProgress _ _ w) as [w1 [|err]]; simpl in *.
  - eapply calm_trans; [exact Hnotify|]. by apply calm_update.
  - eapply calm_trans; [exact Hnotify|apply calm_failPlayback].
Qed.

Lemma calm_seqAfterWait (env : Env) (currentEvent : PlayEvent) (w : World) :
  calm w (seqAfterWait env currentEvent w).1.
Proof.
  unfold seqAfterWait. destruct (_ || _); [apply calm_refl|].
  destruct (noWait currentEvent).
  - pose proof (calm_playAudioNoWait (plays env (sequenceIndex (eng w)))
                  (type currentEvent) w) as Hplay.
    destruct (playAudioNoWait _ _ w) as [w1 [|err]]; simpl in *.
    + eapply calm_trans; [exact Hplay|apply calm_seqAdvance].
    + eapply calm_trans; [exact Hplay|apply calm_failPlayback].
  - pose proof (calm_playAudioStart (plays env (sequenceIndex (eng w)))
                  (type currentEvent) w) as Hplay.
    destruct (playAudioStart _ _ w) as [w1 [[|err]|]]; simpl in *.
    + eapply calm_trans; [exact Hplay|apply calm_seqAdvance].
    + eapply calm_trans; [exact Hplay|apply calm_failPlayback].
    + done.
Qed.

Lemma calm_executeSequenceFrom (env : Env) (rest : list PlayEvent) (w : World) :
  calm w (executeSequenceFrom env rest w).1
  ∧ legacyPc (executeSequenceFrom env rest w).2.
Proof.
  revert w. induction rest as [|currentEvent rest IH]; intros w.
  - split; [apply calm_completePlayback|done].
  - cbn [executeSequenceFrom]. cbv zeta. destruct (_ && _); [split; [apply calm_refl|done]|].
    pose proof (calm_seqAfterWait env currentEvent w) as Hiter.
    pose proof (seqAfterWait_pc env currentEvent w) as Hpc.
    destruct (seqAfterWait env currentEvent w) as [w1 [pc|]]; simpl in *; [done|].
    destruct (IH w1) as [Hrest Hlegacy]. split; [by eapply calm_trans|done].
Qed.

Lemma calm_seqResume (env : Env) (step : World * option Pc) :
  match step.2 with Some pc => legacyPc pc | None => True end →
  calm step.1 (seqResume env step).1 ∧ legacyPc (seqResume env step).2.
Proof.
  destruct step as [w1 [pc|]]; simpl; intros Hpc; [split; [apply calm_refl|done]|].
  apply calm_executeSequenceFrom.
Qed.

Lemma calm_resumePlayback (env : Env) (w : World) :
  calm w (resumePlayback env w).1 ∧ legacyPc (resumePlayback env w).2.
Proof.
  unfold resumePlayback, executeSequence, notifyPlayStateChange.
  destruct (_ && _); [|split; [apply calm_refl|done]].
  match goal with
  | |- calm _ (executeSequenceFrom env ?rest ?w1).1 ∧ _ =>
      destruct (calm_executeSequenceFrom env rest w1) as [Hrun Hpc]
  end.
  split; [|done]. eapply calm_trans; [|exact Hrun]. calm_steps.
Qed.

Lemma calm_togglePlayback (env : Env) (w : World) :
  calm w (togglePlayback env w).1 ∧ legacyPc (togglePlayback env w).2.
Proof.
  unfold togglePlayback. destruct (negb _); [split; [calm_steps|done]|].
  destruct (isPaused (eng w)); [apply calm_resumePlayback|].
  split; [apply calm_pausePlayback|done].
Qed.

Lemma unanchored_calm (w w' : World) : calm w w' → unanchored w → unanchored w'.
Proof.
  intros [_ (added & Hout & Hadded)] Hw. unfold unanchored. rewrite Hout.
  by apply Forall_app.
Qed.

Lemma unanchored_anchoredNow (env : Env) (w : World) : unanchored w → anchoredNow env w.
Proof.
  intros Hw t Hin. unfold unanchored in Hw. rewrite Forall_forall in Hw.
  by apply Hw in Hin.
Qed.

Lemma anchoredNow_calm (env : Env) (w w' : World) :
  calm w w' → anchoredNow env w → anchoredNow env w'.
Proof.
  intros [Hsame (added & Hout & Hadded)] Hw t Hin. rewrite Hout in Hin.
  apply elem_of_app in Hin as [Hin|Hin].
  - destruct (Hw t Hin) as (Ht & [how Hhow] & Hanchor). split; [done|]. split.
    + exists how. rewrite Hout. apply elem_of_app. by left.
    + by rewrite Hsame.
  - rewrite Forall_forall in Hadded. by apply Hadded in Hin.
Qed.

Lemma anchoredNow_muyuPhase (env : Env) (w : World) :
  unanchored w → (∃ how, StartCueSettled how ∈ out w) →
  anchoredNow env (muyuPhase env w).1.
Proof.
  intros Hw [how Hhow]. unfold muyuPhase.
  destruct (currentSequence (eng w)) as [sequence|];
    [|by eapply unanchored_anchoredNow, unanchored_calm; [apply calm_failPlayback|]].
  destruct (List.filter isMuyu sequence) as [|ev0 muyuEvents];
    [by apply unanchored_anchoredNow|].
  unfold executeMuyuSequence. eapply anchoredNow_calm; [apply calm_executeMuyuFrom|].
  intros t Hin. cbn [emit update out eng] in *.
  apply elem_of_app in Hin as [Hin|Hin].
  - unfold unanchored in Hw. rewrite Forall_forall in Hw. by apply Hw in Hin.
  - apply list_elem_of_singleton in Hin. injection Hin as ->.
    split; [done|]. split; [|done]. exists how. apply elem_of_app. by left.
Qed.

Lemma anchoredNow_settled (env : Env) (how : Settled) (w : World) :
  unanchored w → anchoredNow env (muyuPhase env (emit (StartCueSettled how) w)).1.
Proof.
  intros Hw. apply anchoredNow_muyuPhase.
  - eapply unanchored_calm; [|exact Hw]. by apply calm_emit.
  - exists how. cbn [emit out]. apply elem_of_app. right. by apply list_elem_of_singleton.
Qed.

Lemma anchoredNow_executeSequenceInPhases (env : Env) (w : World) :
  unanchored w → anchoredNow env (executeSequenceInPhases env w).1.
Proof.
  intros Hw. unfold executeSequenceInPhases.
  destruct (currentSequence (eng w)) as [sequence|];
    [|by eapply unanchored_anchoredNow, unanchored_calm; [apply calm_failPlayback|]].
  destruct (List.find isStartBowl sequence) as [bowlEvent|];
    [|by apply anchoredNow_settled].
  pose proof (calm_playAudioStart (playStart env) (type bowlEvent) w) as Hplay.
  pose proof (unanchored_calm _ _ Hplay Hw) as Hw1.
  destruct (playAudioStart _ _ _) as [w1 [[|err]|]]; simpl in *.
  - by apply anchoredNow_settled.
  - by eapply unanchored_anchoredNow, unanchored_calm; [apply calm_failPlayback|].
  - by apply unanchored_anchoredNow.
Qed.

Lemma anchoredNow_startPlaybackSequence (env : Env) (sequence : list PlayEvent) (w : World) :
  unanchored w → anchoredNow env (startPlaybackSequence env sequence w).1.
Proof.
  intros Hw. unfold startPlaybackSequence, notifyPlayStateChange.
  destruct (isPlaying (eng w)).
  - by eapply unanchored_anchoredNow, unanchored_calm; [apply calm_emit|].
  - apply anchoredNow_executeSequenceInPhases.
    eapply unanchored_calm; [|exact Hw]. calm_steps.
Qed.

Lemma anchoredNow_startPlayback (env : Env) (manager : option (list CharData)) (w : World) :
  unanchored w → anchoredNow env (startPlayback env manager w).1.1.
Proof.
  intros Hw. unfold startPlayback, handleError. destruct manager as [[|first rest]|];
    try (by eapply unanchored_anchoredNow, unanchored_calm; [apply calm_emit|]).
  by apply anchoredNow_startPlaybackSequence.
Qed.

Lemma anchoredNow_call (env : Env) (api : Api) (e : Engine) :
  anchoredNow env (call env api (enter e)).1.
Proof.
  assert (unanchored (enter e)) as Hw by apply Forall_nil_2.
  assert (∀ w', calm (enter e) w' → anchoredNow env w') as Hcalm.
  { intros w' Hw'. by eapply unanchored_anchoredNow, unanchored_calm. }
  destruct api; cbn [call fst].
  - pose proof (anchoredNow_startPlayback env manager (enter e) Hw) as Hstart.
    destruct (startPlayback env manager (enter e)) as [[w1 pc] [|err]]; simpl in *; [done|].
    eapply anchoredNow_calm; [|exact Hstart]. by apply calm_emit.
  - by apply anchoredNow_startPlaybackSequence.
  - apply Hcalm, calm_pausePlayback.
  - apply Hcalm, calm_resumePlayback.
  - apply Hcalm, calm_stopPlayback.
  - apply Hcalm, calm_resetPlayback.
  - apply Hcalm, calm_togglePlayback.
  - apply Hcalm. by apply calm_update.
  - apply unanchored_anchoredNow. unfold setPlaybackSpeed. destruct (_ || _).
    + by apply Forall_singleton.
    + cbv zeta. destruct (isPlaying _); apply Forall_nil_2.
  - apply Hcalm, calm_dispose.
Qed.

Lemma anchoredNow_wake (env : Env) (pc : Pc) (e : Engine) :
  anchoredNow env (wake env pc (enter e)).1.
Proof.
  assert (unanchored (enter e)) as Hw by apply Forall_nil_2.
  assert (∀ w', calm (enter e) w' → anchoredNow env w') as Hcalm.
  { intros w' Hw'. by eapply unanchored_anchoredNow, unanchored_calm. }
  destruct pc as [key|key|muyuEvents i startTime waitTime|currentEvent startTime waitTime
                  |currentEvent|currentEvent| |]; cbn [wake].
  - destruct (settle env) as [err|]; [|by apply Hcalm, calm_refl].
    pose proof (calm_playAudioCatch err (enter e)) as Hcatch.
    destruct (playAudioCatch err (enter e)) as [w1 [|err']]; simpl in *.
    + apply anchoredNow_settled. by eapply unanchored_calm.
    + apply Hcalm. eapply calm_trans; [exact Hcatch|apply calm_failPlayback].
  - by apply anchoredNow_settled.
  - destruct (checkAndWait _ _ _ _); [|by apply Hcalm, calm_refl].
    destruct (drop i muyuEvents) as [|event rest]; [by apply Hcalm, calm_refl|].
    pose proof (calm_muyuAfterWait env i event (enter e)) as Hiter.
    destruct (muyuAfterWait env i event (enter e)) as [w1 [|]]; simpl in *;
      [|by apply Hcalm].
    apply Hcalm. eapply calm_trans; [exact Hiter|apply calm_executeMuyuFrom].
  - destruct (checkAndWait _ _ _ _); [|by apply Hcalm, calm_refl].
    pose proof (calm_seqAfterWait env currentEvent (enter e)) as Hiter.
    pose proof (seqAfterWait_pc env currentEvent (enter e)) as Hpc.
    destruct (calm_seqResume env (seqAfterWait env currentEvent (enter e)) Hpc) as [Hrun _].
    apply Hcalm. by eapply calm_trans.
  - destruct (settle env) as [err|]; [|by apply Hcalm, calm_refl].
    pose proof (calm_playAudioCatch err (enter e)) as Hcatch.
    destruct (playAudioCatch err (enter e)) as [w1 [|err']]; simpl in *.
    + pose proof (calm_seqAdvance currentEvent w1) as Hadvance.
      assert (match (seqAdvance currentEvent w1).2 with
              | Some pc => legacyPc pc | None => True end) as Hpc.
      { unfold seqAdvance. by destruct (notifySequenceProgress _ _ w1) as [w2 [|err']]. }
      destruct (calm_seqResume env (seqAdvance currentEvent w1) Hpc) as [Hrun _].
      apply Hcalm. eapply calm_trans; [exact Hcatch|]. by eapply calm_trans.
    + apply Hcalm. eapply calm_trans; [exact Hcatch|apply calm_failPlayback].
  - pose proof (calm_seqAdvance currentEvent (enter e)) as Hadvance.
    assert (match (seqAdvance currentEvent (enter e)).2 with
            | Some pc => legacyPc pc | None => True end) as Hpc.
    { unfold seqAdvance. by destruct (notifySequenceProgress _ _ (enter e)) as [w2 [|err']]. }
    destruct (calm_seqResume env (seqAdvance currentEvent (enter e)) Hpc) as [Hrun _].
    apply Hcalm. by eapply calm_trans.
  - pose proof (anchoredNow_startPlayback env (textManager (eng (enter e))) (enter e) Hw)
      as Hstart.
    destruct (startPlayback env (textManager (eng (enter e))) (enter e))
      as [[w1 pc] [|err]]; simpl in *; [done|].
    eapply anchoredNow_calm; [apply calm_failPlayback|done].
  - by apply Hcalm, calm_refl.
Qed.

(** *** The waits of the periodic cues *)

Lemma waitsFromAnchor_same (env : Env) (e e' : Engine) (pc : Pc) :
  muyuStartTime e' = muyuStartTime e → waitsFromAnchor env e pc → waitsFromAnchor env e' pc.
Proof. intros Hsame. destruct pc; try done. simpl. by rewrite Hsame. Qed.

Lemma waitsFromAnchor_legacy (env : Env) (e : Engine) (pc : Pc) :
  legacyPc pc → waitsFromAnchor env e pc.
Proof. by destruct pc. Qed.

Lemma waits_executeMuyuFrom (env : Env) (muyuEvents rest : list PlayEvent) (i : nat)
    (w : World) :
  rest = drop i muyuEvents →
  waitsFromAnchor env (eng (executeMuyuFrom env muyuEvents rest i w).1)
    (executeMuyuFrom env muyuEvents rest i w).2.
Proof.
  revert i w. induction rest as [|event rest IH]; intros i w Hrest; [done|].
  cbn [executeMuyuFrom]. destruct (_ || _); [done|].
  cbv zeta. destruct (_ && _).
  - cbn [fst snd waitsFromAnchor]. exists event. split; [|done].
    by rewrite <- (Nat.add_0_r i), <- lookup_drop, <- Hrest.
  - destruct (muyuAfterWait env i event w) as [w1 [|]]; [|done].
    apply IH. apply (f_equal (drop 1)) in Hrest. rewrite drop_drop in Hrest.
    simpl in Hrest. by rewrite Nat.add_1_r in Hrest.
Qed.

Lemma waits_muyuPhase (env : Env) (w : World) :
  waitsFromAnchor env (eng (muyuPhase env w).1) (muyuPhase env w).2.
Proof.
  unfold muyuPhase. destruct (currentSequence (eng w)) as [sequence|]; [|done].
  destruct (List.filter isMuyu sequence) as [|ev0 muyuEvents]; [done|].
  by apply waits_executeMuyuFrom.
Qed.

Lemma waits_executeSequenceInPhases (env : Env) (w : World) :
  waitsFromAnchor env (eng (executeSequenceInPhases env w).1)
    (executeSequenceInPhases env w).2.
Proof.
  unfold executeSequenceInPhases. destruct (currentSequence (eng w)) as [sequence|]; [|done].
  destruct (List.find isStartBowl sequence) as [bowlEvent|]; [|apply waits_muyuPhase].
  destruct (playAudioStart _ _ _) as [w1 [[|err]|]]; [apply waits_muyuPhase|done|done].
Qed.

Lemma waits_startPlaybackSequence (env : Env) (sequence : list PlayEvent) (w : World) :
  waitsFromAnchor env (eng (startPlaybackSequence env sequence w).1)
    (startPlaybackSequence env sequence w).2.
Proof.
  unfold startPlaybackSequence. destruct (isPlaying (eng w)); [done|].
  apply waits_executeSequenceInPhases.
Qed.

Lemma waits_startPlayback (env : Env) (manager : option (list CharData)) (w : World) :
  waitsFromAnchor env (eng (startPlayback env manager w).1.1) (startPlayback env manager w).1.2.
Proof.
  unfold startPlayback. destruct manager as [[|first rest]|]; try done.
  apply waits_startPlaybackSequence.
Qed.

Lemma waits_call (env : Env) (api : Api) (w : World) :
  waitsFromAnchor env (eng (call env api w).1) (call env api w).2.
Proof.
  destruct api; cbn [call]; try done.
  - pose proof (waits_startPlayback env manager w) as Hstart.
    by destruct (startPlayback env manager w) as [[w1 pc] [|err]].
  - apply waits_startPlaybackSequence.
  - apply waitsFromAnchor_legacy, calm_resumePlayback.
  - apply waitsFromAnchor_legacy, calm_togglePlayback.
Qed.

Lemma waits_wake (env : Env) (pc : Pc) (w : World) :
  (wake env pc w).2 = pc
  ∨ waitsFromAnchor env (eng (wake env pc w).1) (wake env pc w).2.
Proof.
  destruct pc as [key|key|muyuEvents i startTime waitTime|currentEvent startTime waitTime
                  |currentEvent|currentEvent| |]; cbn [wake].
  - right. destruct (settle env) as [err|]; [|done].
    destruct (playAudioCatch err w) as [w1 [|err']]; [apply waits_muyuPhase|done].
  - right. apply waits_muyuPhase.
  - destruct (checkAndWait _ _ _ _); [right|by left].
    destruct (drop i muyuEvents) as [|event rest] eqn:Hdrop; [done|].
    destruct (muyuAfterWait env i event w) as [w1 [|]]; [|done].
    apply waits_executeMuyuFrom.
    apply (f_equal (drop 1)) in Hdrop. rewrite drop_drop in Hdrop.
    simpl in Hdrop. by rewrite Nat.add_1_r in Hdrop.
  - destruct (checkAndWait _ _ _ _); [right|by left].
    apply waitsFromAnchor_legacy, calm_seqResume, seqAfterWait_pc.
  - right. destruct (settle env) as [err|]; [|done].
    destruct (playAudioCatch err w) as [w1 [|err']]; [|done].
    apply waitsFromAnchor_legacy, calm_seqResume.
    unfold seqAdvance. by destruct (notifySequenceProgress _ _ w1) as [w2 [|err']].
  - right. apply waitsFromAnchor_legacy, calm_seqResume.
    unfold seqAdvance. by destruct (notifySequenceProgress _ _ w) as [w2 [|err']].
  - right. pose proof (waits_startPlayback env (textManager (eng w)) w) as Hstart.
    by destruct (startPlayback env (textManager (eng w)) w) as [[w1 pc] [|err]].
  - by left.
Qed.

Lemma anchor_of_step (c : Config) (action : Action) (env : Env) (new : list (nat * Event))
    (tid : nat) (t : float) :
  trace (step c (action, env)) = trace c ++ new →
  (tid, AnchorRecorded t) ∈ new →
  t = anchorNow env
  ∧ (∃ how, (tid, StartCueSettled how) ∈ new)
  ∧ muyuStartTime (engine (step c (action, env))) = Some t.
Proof.
  assert (∀ w tid0,
            anchoredNow env w → (tid, AnchorRecorded t) ∈ tag tid0 (out w) →
            t = anchorNow env
            ∧ (∃ how, (tid, StartCueSettled how) ∈ tag tid0 (out w))
            ∧ muyuStartTime (eng w) = Some t) as Hworld.
  { intros w tid0 Hw Hin. pose proof (elem_of_tag _ _ _ _ Hin) as ->.
    apply elem_of_tag_inv in Hin. destruct (Hw t Hin) as (Ht & [how Hhow] & Hanchor).
    split; [done|]. split; [|done]. exists how. unfold tag.
    apply list_elem_of_fmap. by exists (StartCueSettled how). }
  destruct action as [api|tid0].
  - rewrite step_call_events. cbn [trace engine]. intros <-%app_inv_head.
    apply Hworld, anchoredNow_call.
  - destruct (tasks c !! tid0) as [pc|] eqn:Hpc.
    + rewrite (step_wake_events c tid0 env pc Hpc). cbn [trace engine].
      intros <-%app_inv_head. apply Hworld, anchoredNow_wake.
    + cbn [step]. rewrite Hpc. intros Hnew Hin.
      rewrite <- (app_nil_r (trace c)) in Hnew at 1. apply app_inv_head in Hnew as <-.
      by apply elem_of_nil in Hin.
Qed.

Lemma wait_of_step (c : Config) (action : Action) (env : Env) (tid : nat) (pc : Pc) :
  Inv c →
  tasks (step c (action, env)) !! tid = Some pc →
  tasks c !! tid ≠ Some pc →
  waitsFromAnchor env (engine (step c (action, env))) pc.
Proof.
  intros HInv Hnew Hold. pose proof HInv as [_ Htasks].
  assert (∀ spawned : list Pc,
            Forall (fun pc' => pc' = RestartTimer) spawned →
            ∀ k, spawned !! k = Some pc → waitsFromAnchor env (engine (step c (action, env))) pc)
    as Htimers.
  { intros spawned Hall k Hk. rewrite Forall_lookup in Hall. by rewrite (Hall k pc Hk). }
  destruct action as [api|tid0].
  - rewrite step_call_events in *. cbn [tasks engine] in *.
    destruct (call_stage [] env api (enter (engine c)) eq_refl) as (_ & _ & _ & Ht).
    specialize (Ht ltac:(by constructor)).
    destruct (decide (tid < length (tasks c))) as [Hlt|Hge].
    { by rewrite lookup_app_l in Hnew. }
    rewrite lookup_app_r in Hnew by lia.
    destruct (tid - length (tasks c)) as [|k]; simpl in Hnew.
    + injection Hnew as <-. apply waits_call.
    + by apply (Htimers _ Ht k).
  - destruct (tasks c !! tid0) as [pc0|] eqn:Hpc0; [|cbn [step] in Hnew; by rewrite Hpc0 in Hnew].
    rewrite (step_wake_events c tid0 env pc0 Hpc0) in *. cbn [tasks engine] in *.
    destruct (Htasks tid0 pc0 Hpc0) as (s & Hs & Hfits).
    destruct (wake_stage (eventsOf tid0 (trace c)) env pc0 (enter (engine c)) s)
      as (_ & _ & _ & _ & Ht); [by unfold track; rewrite app_nil_r|done|].
    specialize (Ht ltac:(by constructor)).
    assert (tid0 < length (tasks c)) as Hlt0 by (by eapply lookup_lt_Some).
    destruct (decide (tid < length (tasks c))) as [Hlt|Hge].
    + rewrite lookup_app_l in Hnew by (by rewrite length_insert).
      destruct (decide (tid = tid0)) as [->|Hne].
      * rewrite list_lookup_insert_eq in Hnew by done. injection Hnew as <-.
        destruct (waits_wake env pc0 (enter (engine c))) as [Hsame|Hwaits]; [|done].
        rewrite Hsame in Hold. done.
      * by rewrite list_lookup_insert_ne in Hnew.
    + rewrite lookup_app_r in Hnew by (rewrite length_insert; lia).
      by apply (Htimers _ Ht (tid - length (<[tid0:=(wake env pc0 (enter (engine c))).2]> (tasks c)))).
Qed.

(** X24.  In every run of the event loop and for every activation of the
    phased executor (the marks below are raised by [executeSequenceInPhases]
    and [executeMuyuSequence] only).  When the anchor of the periodic phase
    is recorded, the first phase is over and no periodic cue has been
    dispatched; if the activation played a start cue, its blocking playback
    has ended or was aborted by a stop.  When periodic cue [i] is dispatched,
    the anchor has been recorded, the cues dispatched before are exactly
    0, ..., i-1 in this order, and a start cue that the activation played
    has ended.  The first phase is recorded as ended only behind the start of
    the blocking playback.  The anchor is the reading of the clock in the
    turn in which the first phase ended, and the engine holds it at the end
    of that turn.  Whenever the activation is left in a new wait for cue
    [i], the wait is [max(0, delay_i - (now - anchor))] for the anchor that
    the engine holds: the time at which the sequence was started does not
    enter. *)
Theorem phases_in_order (loaded : gset string) (inputs : list (Action * Env)) (tid : nat) :
  let c := run inputs (initial loaded) in
  let events := eventsOf tid (trace c) in
  (∀ pre t post, events = pre ++ AnchorRecorded t :: post →
     dispatched pre = []
     ∧ ∃ how, StartCueSettled how ∈ pre
         ∧ ((∃ key, AudioPlay key false ∈ pre) → how = Ended ∨ how = Interrupted))
  ∧ (∀ pre i post, events = pre ++ Dispatch i :: post →
       dispatched pre = seq 0 i
       ∧ (∃ t, AnchorRecorded t ∈ pre)
       ∧ (StartCueSettled Ended ∈ pre ∨ StartCueSettled NoStartCue ∈ pre)
       ∧ ((∃ key, AudioPlay key false ∈ pre) → StartCueSettled Ended ∈ pre))
  ∧ (∀ pre post, events = pre ++ StartCueSettled Ended :: post →
       ∃ key, AudioPlay key false ∈ pre)
  ∧ (∀ action env new t,
       trace (step c (action, env)) = trace c ++ new →
       (tid, AnchorRecorded t) ∈ new →
       t = anchorNow env
       ∧ (∃ how, (tid, StartCueSettled how) ∈ new)
       ∧ muyuStartTime (engine (step c (action, env))) = Some t)
  ∧ (∀ action env muyuEvents i startTime waitTime,
       tasks (step c (action, env)) !! tid = Some (MuyuPoll muyuEvents i startTime waitTime) →
       tasks c !! tid ≠ Some (MuyuPoll muyuEvents i startTime waitTime) →
       ∃ event, muyuEvents !! i = Some event
         ∧ startTime = waitStart env i
         ∧ waitTime
           = Js.max 0 (delay event
                       - (headNow env i
                          - Js.to_number (muyuStartTime (engine (step c (action, env))))))%float).
Proof.
  cbv zeta. destruct (marks_in_order loaded inputs tid) as (Hanchor & Hcue & Hended).
  split; [exact Hanchor|]. split; [exact Hcue|]. split; [exact Hended|]. split.
  - intros action env new t. apply anchor_of_step.
  - intros action env muyuEvents i startTime waitTime Hnew Hold.
    apply (wait_of_step (run inputs (initial loaded)) action env tid
             (MuyuPoll muyuEvents i startTime waitTime)); [|done..].
    apply Inv_run, Inv_initial.
Qed.

(** ** Loading a text *)

Lemma dropWhile_suffix {A : Type} (p : A → bool) (l : list A) :
  ∃ pre, l = pre ++ dropWhile p l ∧ Forall (fun x => p x = true) pre.
Proof.
  induction l as [|x l IH]; [by exists []|].
  simpl. destruct (p x) eqn:Hp.
  - destruct IH as (pre & Heq & Hall). exists (x :: pre). split.
    + simpl. by f_equal.
    + by constructor.
  - by exists [].
Qed.

Lemma dropWhile_all {A : Type} (p : A → bool) (l : list A) :
  Forall (fun x => p x = true) l → dropWhile p l = [].
Proof. induction 1 as [|x l Hx _ IH]; [done|]. simpl. by rewrite Hx. Qed.

Lemma dropWhile_head {A : Type} (p : A → bool) (x : A) (l : list A) :
  p x = false → dropWhile p (x :: l) = x :: l.
Proof. intros Hp. simpl. by rewrite Hp. Qed.

Lemma dropWhile_subseteq {A : Type} (p : A → bool) (l : list A) : dropWhile p l ⊆ l.
Proof.
  induction l as [|x l IH]; [done|]. simpl. destruct (p x); [|done]. set_solver.
Qed.

Lemma trim_subseteq (s : list N) : JsString.trim s ⊆ s.
Proof.
  unfold JsString.trim. intros c Hc. rewrite elem_of_reverse in Hc.
  apply dropWhile_subseteq in Hc. rewrite elem_of_reverse in Hc.
  by apply dropWhile_subseteq in Hc.
Qed.

Lemma trim_blank (s : list N) :
  Forall (fun c => JsString.isWhiteSpace c = true) s → JsString.trim s = [].
Proof. intros Hall. unfold JsString.trim. by rewrite (dropWhile_all _ s Hall). Qed.

Lemma split_no_separator (sep : N) (s piece : list N) :
  piece ∈ JsString.split sep s → sep ∉ piece.
Proof.
  revert piece. induction s as [|c s IH]; intros piece Hin.
  - simpl in Hin. apply list_elem_of_singleton in Hin as ->. apply not_elem_of_nil.
  - simpl in Hin. destruct (N.eqb_spec c sep) as [->|Hne].
    + apply elem_of_cons in Hin as [->|Hin]; [apply not_elem_of_nil|by apply IH].
    + destruct (JsString.split sep s) as [|p ps] eqn:Hsplit.
      * apply list_elem_of_singleton in Hin as ->. set_solver.
      * apply elem_of_cons in Hin as [->|Hin].
        -- assert (sep ∉ p) by (apply IH; by left). set_solver.
        -- apply IH. by right.
Qed.

Lemma split_subseteq (sep : N) (s piece : list N) :
  piece ∈ JsString.split sep s → piece ⊆ s.
Proof.
  revert piece. induction s as [|c s IH]; intros piece Hin.
  - simpl in Hin. by apply list_elem_of_singleton in Hin as ->.
  - simpl in Hin. destruct (c =? sep)%N.
    + apply elem_of_cons in Hin as [->|Hin]; [set_solver|].
      specialize (IH piece Hin). set_solver.
    + destruct (JsString.split sep s) as [|p ps] eqn:Hsplit.
      * apply list_elem_of_singleton in Hin as ->. set_solver.
      * apply elem_of_cons in Hin as [->|Hin].
        -- assert (p ⊆ s) by (apply IH; by left). set_solver.
        -- assert (piece ⊆ s) by (apply IH; by right). set_solver.
Qed.

Lemma replaceCR_free (s : list N) : JsString.carriageReturn ∉ JsString.replaceCR s.
Proof.
  unfold JsString.replaceCR. intros Hin. apply list_elem_of_fmap in Hin as (c & Heq & _).
  destruct (N.eqb_spec c JsString.carriageReturn); [done|congruence].
Qed.

(** What the lines that [parseTextToLines] keeps are made of. *)
Lemma originalLines_units (currentText line : list N) :
  line ∈ originalLines currentText →
  line ≠ []
  ∧ ∀ c, c ∈ line →
      punctuationUnit c = false ∧ c ≠ JsString.lineFeed ∧ c ≠ JsString.carriageReturn.
Proof.
  unfold originalLines. intros Hin.
  apply list_elem_of_In, List.filter_In in Hin as [Hin Hne].
  split; [by destruct line|].
  apply List.in_map_iff in Hin as (trimmed & <- & Hin).
  apply List.filter_In in Hin as [Hin _].
  apply List.in_map_iff in Hin as (piece & <- & Hin).
  apply list_elem_of_In in Hin.
  intros c Hc. apply list_elem_of_In, List.filter_In in Hc as [Hc Hpunct].
  apply list_elem_of_In, trim_subseteq in Hc.
  split; [by destruct (punctuationUnit c)|]. split.
  - intros ->. by apply (split_no_separator _ _ _ Hin).
  - intros ->. apply (split_subseteq _ _ _ Hin) in Hc.
    by apply replaceCR_free in Hc.
Qed.

Lemma pushCharacter_fold (lineIndex : nat) (lineChars chars : list CharData) (charIndex : nat)
    (lineText : list N) :
  foldl (pushCharacter lineIndex) (lineChars, chars, charIndex) lineText
  = (lineChars
       ++ imap (fun i ch => {| char := ch; index := charIndex + i; lineIndex := lineIndex;
                               positionInLine := length lineChars + i;
                               isPunctuation := false; isSpace := false |}) lineText,
     chars
       ++ imap (fun i ch => {| char := ch; index := charIndex + i; lineIndex := lineIndex;
                               positionInLine := length lineChars + i;
                               isPunctuation := false; isSpace := false |}) lineText,
     charIndex + length lineText).
Proof.
  revert lineChars chars charIndex.
  induction lineText as [|ch lineText IH]; intros lineChars chars charIndex.
  - simpl. by rewrite !app_nil_r, Nat.add_0_r.
  - cbn [foldl pushCharacter]. rewrite IH. cbn [imap length].
    rewrite length_app, !Nat.add_0_r, <- !app_assoc. cbn [length app].
    match goal with
    | |- (_ ++ _ :: imap ?f _, _, _) = (_ ++ _ :: imap ?g _, _, _) =>
        assert (imap f lineText = imap g lineText) as ->
          by (apply imap_ext; intros i c _; simpl; f_equal; lia)
    end.
    f_equal. lia.
Qed.

Lemma pushLine_fold (lines : list Line.t) (chars : list CharData) (charIndex : nat)
    (texts : list (list N)) :
  foldl pushLine (lines, chars, charIndex) texts
  = (lines ++ linesFrom (length lines) charIndex texts,
     chars ++ concat (map Line.characters (linesFrom (length lines) charIndex texts)),
     charIndex + length (concat texts)).
Proof.
  revert lines chars charIndex.
  induction texts as [|lineText texts IH]; intros lines chars charIndex.
  - simpl. by rewrite !app_nil_r, Nat.add_0_r.
  - cbn [foldl pushLine]. rewrite pushCharacter_fold. cbn [app length Nat.add].
    rewrite IH. rewrite length_app. cbn [length linesFrom map concat].
    rewrite length_app, <- !app_assoc. cbn [app].
    replace (length lines + 1) with (S (length lines)) by lia.
    unfold lineOf, lineCharacters. cbn [Line.characters].
    by rewrite Nat.add_assoc.
Qed.

Lemma parseTextToLines_linesFrom (m : LyricsTextManager) :
  lines (parseTextToLines m) = linesFrom 0 0 (originalLines (currentText m))
  ∧ characters (base (parseTextToLines m))
    = concat (map Line.characters (linesFrom 0 0 (originalLines (currentText m)))).
Proof.
  unfold parseTextToLines. destruct (currentText m) as [|c0 text] eqn:Htext; [done|].
  destruct (originalLines (c0 :: text)) as [|l0 ls] eqn:Hlines; [done|].
  rewrite (pushLine_fold [] [] 0 (l0 :: ls)). done.
Qed.

Lemma lineCharacters_lookup (lineIndex charIndex : nat) (lineText : list N) (p : nat)
    (c : CharData) :
  lineCharacters lineIndex charIndex lineText !! p = Some c ↔
  ∃ ch, lineText !! p = Some ch
        ∧ c = {| char := ch; index := charIndex + p; lineIndex := lineIndex;
                 positionInLine := p; isPunctuation := false; isSpace := false |}.
Proof.
  unfold lineCharacters. rewrite list_lookup_imap.
  destruct (lineText !! p) as [ch|]; simpl; split.
  - intros [= <-]. by exists ch.
  - by intros (ch' & [= <-] & ->).
  - done.
  - by intros (ch' & [=] & _).
Qed.

Lemma lineCharacters_length (lineIndex charIndex : nat) (lineText : list N) :
  length (lineCharacters lineIndex charIndex lineText) = length lineText.
Proof. apply length_imap. Qed.

Lemma lineCharacters_char (lineIndex charIndex : nat) (lineText : list N) :
  map char (lineCharacters lineIndex charIndex lineText) = lineText.
Proof.
  apply list_eq. intros p. rewrite list_lookup_fmap.
  destruct (lineText !! p) as [ch|] eqn:Hch.
  - assert (lineCharacters lineIndex charIndex lineText !! p
            = Some {| char := ch; index := charIndex + p; lineIndex := lineIndex;
                      positionInLine := p; isPunctuation := false; isSpace := false |})
      as -> by (apply lineCharacters_lookup; by exists ch).
    done.
  - destruct (lineCharacters lineIndex charIndex lineText !! p) as [c|] eqn:Hc; [|done].
    apply lineCharacters_lookup in Hc as (ch & Hch' & _). congruence.
Qed.

Lemma lineOf_bounds (lineIndex charIndex : nat) (lineText : list N) :
  lineText ≠ [] →
  Line.startCharIndex (lineOf lineIndex charIndex lineText) = charIndex
  ∧ Line.endCharIndex (lineOf lineIndex charIndex lineText)
    = charIndex + length lineText - 1.
Proof.
  intros Hne. unfold lineOf. cbn [Line.startCharIndex Line.endCharIndex]. split.
  - destruct lineText as [|ch rest]; [done|]. simpl. lia.
  - rewrite last_lookup, lineCharacters_length.
    destruct (lookup_lt_is_Some_2 lineText (pred (length lineText))) as [ch Hch].
    { destruct lineText; [done|]. simpl. lia. }
    assert (lineCharacters lineIndex charIndex lineText !! pred (length lineText)
            = Some {| char := ch; index := charIndex + pred (length lineText);
                      lineIndex := lineIndex; positionInLine := pred (length lineText);
                      isPunctuation := false; isSpace := false |})
      as -> by (apply lineCharacters_lookup; by exists ch).
    cbn [from_option index]. destruct lineText; [done|]. cbn [length]. lia.
Qed.

Lemma linesFrom_text (lineIndex charIndex : nat) (texts : list (list N)) :
  map Line.text (linesFrom lineIndex charIndex texts) = texts.
Proof.
  revert lineIndex charIndex. induction texts as [|t texts IH]; intros L n; [done|].
  simpl. by rewrite IH.
Qed.

Lemma linesFrom_lookup (lineIndex charIndex : nat) (texts : list (list N)) (l : nat) :
  linesFrom lineIndex charIndex texts !! l
  = lineOf (lineIndex + l) (charIndex + length (concat (take l texts))) <$> texts !! l.
Proof.
  revert lineIndex charIndex l. induction texts as [|t texts IH]; intros L n l.
  - by destruct l.
  - destruct l as [|l]; simpl.
    + by rewrite !Nat.add_0_r.
    + rewrite IH, length_app. do 2 f_equal; lia.
Qed.

Lemma linesFrom_characters_length (lineIndex charIndex : nat) (texts : list (list N)) :
  length (concat (map Line.characters (linesFrom lineIndex charIndex texts)))
  = length (concat texts).
Proof.
  revert lineIndex charIndex. induction texts as [|t texts IH]; intros L n; [done|].
  simpl. by rewrite !length_app, lineCharacters_length, IH.
Qed.

(** Character [k] of the lines from [firstLine] and [firstChar] on. *)
Lemma linesFrom_character (firstLine firstChar : nat) (texts : list (list N)) (k : nat)
    (c : CharData) :
  concat (map Line.characters (linesFrom firstLine firstChar texts)) !! k = Some c →
  index c = firstChar + k ∧ isPunctuation c = false ∧ isSpace c = false
  ∧ ∃ l lineText,
      texts !! l = Some lineText
      ∧ lineIndex c = firstLine + l
      ∧ lineText !! positionInLine c = Some (char c)
      ∧ lineCharacters (firstLine + l) (firstChar + length (concat (take l texts))) lineText
          !! positionInLine c = Some c
      ∧ firstChar + length (concat (take l texts)) + positionInLine c = firstChar + k.
Proof.
  revert firstLine firstChar k. induction texts as [|t texts IH]; intros L n k Hc.
  - simpl in Hc. by rewrite lookup_nil in Hc.
  - cbn [linesFrom map concat] in Hc. cbn [lineOf Line.characters] in Hc.
    destruct (decide (k < length t)) as [Hlt|Hge].
    + rewrite lookup_app_l in Hc by (by rewrite lineCharacters_length).
      pose proof Hc as Hc'. apply lineCharacters_lookup in Hc' as (ch & Hch & ->).
      simpl. split; [done|]. split; [done|]. split; [done|].
      exists 0, t. simpl. rewrite !Nat.add_0_r. by repeat split.
    + rewrite lookup_app_r in Hc by (rewrite lineCharacters_length; lia).
      rewrite lineCharacters_length in Hc.
      apply IH in Hc as (Hi & Hp & Hs & l & lineText & Hl & HL & Hch & Hline & Hsum).
      split; [lia|]. split; [done|]. split; [done|].
      exists (S l), lineText. cbn [take concat lookup]. rewrite length_app.
      split; [done|]. split; [lia|]. split; [done|].
      split; [|lia].
      replace (L + S l) with (S L + l) by lia.
      by replace (n + (length t + length (concat (take l texts))))
        with (n + length t + length (concat (take l texts))) by lia.
Qed.

Lemma parseTextToLines_text (m : LyricsTextManager) :
  currentText (parseTextToLines m) = currentText m.
Proof.
  unfold parseTextToLines. destruct (currentText m) as [|c0 text] eqn:Htext; [done|].
  destruct (originalLines (c0 :: text)) as [|l0 ls]; [done|].
  by destruct (foldl pushLine ([], [], 0) (l0 :: ls)) as [[? ?] ?].
Qed.

Lemma parseTextToLines_characters_flags (m : LyricsTextManager) (k : nat) (c : CharData) :
  characters (base (parseTextToLines m)) !! k = Some c →
  isPunctuation c = false ∧ isSpace c = false.
Proof.
  destruct (parseTextToLines_linesFrom m) as [_ ->]. intros Hc.
  by apply linesFrom_character in Hc as (_ & Hp & Hs & _).
Qed.

Lemma parseTextToLines_characters_index (m : LyricsTextManager) (k : nat) (c : CharData) :
  characters (base (parseTextToLines m)) !! k = Some c → index c = k.
Proof.
  destruct (parseTextToLines_linesFrom m) as [_ ->]. intros Hc.
  by apply linesFrom_character in Hc as (Hi & _).
Qed.

(** X1.  Every character that [parseTextToLines] stores carries its own
    position in [characters] as its [index], is flagged neither as
    punctuation nor as space, is no punctuation mark for [isPunctuation] and
    no line break, and sits in the line [lineIndex] at the position
    [positionInLine], the line's [startCharIndex] being the index of its
    first character. *)
Theorem parseTextToLines_characters (m : LyricsTextManager) (k : nat) (c : CharData) :
  characters (base (parseTextToLines m)) !! k = Some c →
  index c = k
  ∧ isPunctuation c = false ∧ isSpace c = false
  ∧ isPunctuationChar [char c] = false
  ∧ char c ≠ JsString.lineFeed ∧ char c ≠ JsString.carriageReturn
  ∧ ∃ line,
      lines (parseTextToLines m) !! lineIndex c = Some line
      ∧ Line.characters line !! positionInLine c = Some c
      ∧ Line.text line !! positionInLine c = Some (char c)
      ∧ Line.startCharIndex line + positionInLine c = k.
Proof.
  destruct (parseTextToLines_linesFrom m) as [-> ->]. intros Hc.
  apply linesFrom_character in Hc
    as (Hi & Hp & Hs & l & lineText & Hl & HL & Hch & Hline & Hsum).
  simpl in *.
  assert (Hunits : lineText ∈ originalLines (currentText m))
    by (by eapply list_elem_of_lookup_2).
  apply originalLines_units in Hunits as [Hne Hunits].
  destruct (Hunits (char c)) as (Hpunct & Hlf & Hcr);
    [by eapply list_elem_of_lookup_2|].
  split; [done|]. split; [done|]. split; [done|].
  split; [unfold isPunctuationChar; simpl; by rewrite Hpunct|].
  split; [done|]. split; [done|].
  exists (lineOf l (length (concat (take l (originalLines (currentText m))))) lineText).
  rewrite HL, linesFrom_lookup, Hl. split; [done|]. split; [done|].
  split; [done|].
  destruct (lineOf_bounds l (length (concat (take l (originalLines (currentText m)))))
              lineText Hne) as [-> _].
  lia.
Qed.

Lemma parseTextToLines_characters_example :
  characters (base (parseTextToLines twoLines)) !! 3
  = Some {| char := 32; index := 3; lineIndex := 1; positionInLine := 1;
            isPunctuation := false; isSpace := false |}
  ∧ ∃ line, lines (parseTextToLines twoLines) !! 1 = Some line
            ∧ Line.startCharIndex line + 1 = 3.
Proof.
  split; [reflexivity|].
  destruct (parseTextToLines_characters twoLines 3
              {| char := 32; index := 3; lineIndex := 1; positionInLine := 1;
                 isPunctuation := false; isSpace := false |} eq_refl)
    as (_ & _ & _ & _ & _ & _ & line & Hline & _ & _ & Hstart).
  by exists line.
Defined.

Lemma linesFrom_char (firstLine firstChar : nat) (texts : list (list N)) :
  map char (concat (map Line.characters (linesFrom firstLine firstChar texts)))
  = concat texts.
Proof.
  revert firstLine firstChar. induction texts as [|t texts IH]; intros L n; [done|].
  cbn [linesFrom map concat lineOf Line.characters].
  by rewrite map_app, lineCharacters_char, IH.
Qed.

Lemma parseTextToLines_layout (m : LyricsTextManager) :
  let m' := parseTextToLines m in
  map Line.text (lines m') = originalLines (currentText m)
  ∧ concat (map Line.characters (lines m')) = characters (base m')
  ∧ length (characters (base m')) = length (concat (originalLines (currentText m)))
  ∧ ∀ l line, lines m' !! l = Some line →
      Line.text line ≠ []
      ∧ map char (Line.characters line) = Line.text line
      ∧ Line.startCharIndex line
        = length (concat (take l (originalLines (currentText m))))
      ∧ Line.endCharIndex line = Line.startCharIndex line + length (Line.text line) - 1
      ∧ ∀ p c, Line.characters line !! p = Some c →
          lineIndex c = l ∧ positionInLine c = p
          ∧ index c = Line.startCharIndex line + p
          ∧ characters (base m') !! (Line.startCharIndex line + p) = Some c.
Proof.
  cbv zeta. destruct (parseTextToLines_linesFrom m) as [Hlines Hchars].
  rewrite Hlines, Hchars. split; [apply linesFrom_text|]. split; [done|].
  split; [apply linesFrom_characters_length|].
  intros l line Hline. rewrite linesFrom_lookup in Hline.
  destruct (originalLines (currentText m) !! l) as [lineText|] eqn:Hl; [|done].
  simpl in Hline. injection Hline as <-.
  assert (Hne : lineText ≠ []).
  { eapply originalLines_units, list_elem_of_lookup_2, Hl. }
  destruct (lineOf_bounds l (length (concat (take l (originalLines (currentText m)))))
              lineText Hne) as [Hstart Hend].
  rewrite Hstart, Hend. cbn [lineOf Line.text Line.characters].
  split; [done|]. split; [apply lineCharacters_char|]. split; [done|]. split; [done|].
  intros p c Hc. pose proof Hc as Hc'.
  apply lineCharacters_lookup in Hc' as (ch & Hch & ->). simpl.
  split; [done|]. split; [done|]. split; [done|].
  rewrite <- Hc. clear Hc.
  (* the characters of the whole text, cut at line [l] *)
  pose proof (take_drop_middle _ _ _ Hl) as Hcut.
  set (texts := originalLines (currentText m)) in *.
  assert (Hsplit : ∀ firstLine firstChar pre post,
            linesFrom firstLine firstChar (pre ++ post)
            = linesFrom firstLine firstChar pre
              ++ linesFrom (firstLine + length pre) (firstChar + length (concat pre)) post).
  { intros L n pre. revert L n. induction pre as [|t pre IH]; intros L n post.
    - simpl. by rewrite !Nat.add_0_r.
    - simpl. rewrite IH, length_app.
      replace (L + S (length pre)) with (S L + length pre) by lia.
      by replace (n + (length t + length (concat pre)))
        with (n + length t + length (concat pre)) by lia. }
  assert (linesFrom 0 0 texts
          = linesFrom 0 0 (take l texts ++ lineText :: drop (S l) texts)) as ->
    by (by rewrite Hcut).
  rewrite Hsplit, map_app, concat_app.
  rewrite lookup_app_r; rewrite linesFrom_characters_length; [|lia].
  replace (length (concat (take l texts)) + p - length (concat (take l texts))) with p
    by lia.
  cbn [linesFrom map concat lineOf Line.characters].
  rewrite lookup_app_l.
  - rewrite length_take_le by (apply lookup_lt_Some in Hl; lia). done.
  - rewrite lineCharacters_length. by eapply lookup_lt_Some.
Qed.

Lemma originalLines_pieces (currentText : list N) :
  originalLines currentText
  = List.filter JsString.nonEmpty
      (map (fun piece => List.filter (fun c => negb (punctuationUnit c)) (JsString.trim piece))
         (JsString.split JsString.lineFeed
            (JsString.replaceCR (JsString.replaceCRLF currentText)))).
Proof.
  unfold originalLines.
  induction (JsString.split JsString.lineFeed
               (JsString.replaceCR (JsString.replaceCRLF currentText))) as [|piece pieces IH];
    [done|].
  cbn [map List.filter]. destruct (JsString.trim piece) as [|c trimmed] eqn:Htrim.
  - cbn [JsString.nonEmpty length Nat.eqb negb List.filter]. apply IH.
  - cbn [JsString.nonEmpty length Nat.eqb negb map List.filter]. rewrite IH. done.
Qed.

(** X2.  The lines that [parseTextToLines] stores are, in order, the pieces
    of the text between its line breaks, each trimmed and then freed of its
    punctuation marks, the empty results left out.  So a stored line is not
    empty and holds no punctuation mark and no line break; white space that
    stood beside a removed mark stays.  The characters of the lines, put
    together, are [characters], and they spell the stored lines; within line
    [l] the characters carry the line index [l] and their position in the
    line, and [startCharIndex] and [endCharIndex] are the indices of the first
    and the last character of the line. *)
Theorem parseTextToLines_lines (m : LyricsTextManager) :
  let m' := parseTextToLines m in
  let stored := map Line.text (lines m') in
  stored
  = List.filter JsString.nonEmpty
      (map (fun piece => List.filter (fun c => negb (punctuationUnit c)) (JsString.trim piece))
         (JsString.split JsString.lineFeed
            (JsString.replaceCR (JsString.replaceCRLF (currentText m)))))
  ∧ concat (map Line.characters (lines m')) = characters (base m')
  ∧ map char (characters (base m')) = concat stored
  ∧ ∀ l line, lines m' !! l = Some line →
      Line.text line ≠ []
      ∧ (∀ c, c ∈ Line.text line →
           punctuationUnit c = false
           ∧ c ≠ JsString.lineFeed ∧ c ≠ JsString.carriageReturn)
      ∧ map char (Line.characters line) = Line.text line
      ∧ Line.startCharIndex line = length (concat (take l stored))
      ∧ Line.endCharIndex line = Line.startCharIndex line + length (Line.text line) - 1
      ∧ ∀ p c, Line.characters line !! p = Some c →
          lineIndex c = l ∧ positionInLine c = p
          ∧ index c = Line.startCharIndex line + p
          ∧ characters (base m') !! (Line.startCharIndex line + p) = Some c.
Proof.
  cbv zeta. destruct (parseTextToLines_layout m) as (Htexts & Hconcat & _ & Hlines).
  cbv zeta in *. rewrite Htexts.
  split; [apply originalLines_pieces|]. split; [done|]. split.
  - destruct (parseTextToLines_linesFrom m) as [_ ->]. apply linesFrom_char.
  - intros l line Hline.
    destruct (Hlines l line Hline) as (Hne & Hchar & Hstart & Hend & Hchars).
    split; [done|]. split; [|done].
    apply (originalLines_units (currentText m)). rewrite <- Htexts.
    apply list_elem_of_fmap. exists line. split; [done|].
    by apply list_elem_of_lookup_2 in Hline.
Qed.

Example space_beside_a_mark_is_kept :
  map Line.text
    (lines (parseTextToLines
              {| base := sampleManager; currentText := [0x3002; 32; 0x4e94]%N; lines := [] |}))
  = [[32; 0x4e94]%N].
Proof. reflexivity. Qed.

Lemma replaceCRLF_id (s : list N) :
  JsString.carriageReturn ∉ s → JsString.replaceCRLF s = s.
Proof.
  induction s as [|c s IH]; intros Hfree; [done|].
  cbn [JsString.replaceCRLF]. destruct s as [|d s']; [done|].
  destruct (N.eqb_spec c JsString.carriageReturn) as [->|Hne]; [set_solver|].
  simpl. f_equal. apply IH. set_solver.
Qed.

Lemma replaceCR_id (s : list N) :
  JsString.carriageReturn ∉ s → JsString.replaceCR s = s.
Proof.
  unfold JsString.replaceCR. induction s as [|c s IH]; intros Hfree; [done|].
  simpl. destruct (N.eqb_spec c JsString.carriageReturn) as [->|Hne]; [set_solver|].
  f_equal. apply IH. set_solver.
Qed.

Lemma split_piece (sep : N) (piece rest : list N) :
  sep ∉ piece →
  JsString.split sep (piece ++ sep :: rest) = piece :: JsString.split sep rest.
Proof.
  induction piece as [|c piece IH]; intros Hfree.
  - simpl. by rewrite N.eqb_refl.
  - simpl. destruct (N.eqb_spec c sep) as [->|Hne]; [set_solver|].
    rewrite IH by set_solver. done.
Qed.

Lemma split_last (sep : N) (piece : list N) :
  sep ∉ piece → JsString.split sep piece = [piece].
Proof.
  induction piece as [|c piece IH]; intros Hfree; [done|].
  simpl. destruct (N.eqb_spec c sep) as [->|Hne]; [set_solver|].
  rewrite IH by set_solver. done.
Qed.

Lemma split_joinLines (texts : list (list N)) :
  texts ≠ [] →
  Forall (fun lineText => JsString.lineFeed ∉ lineText) texts →
  JsString.split JsString.lineFeed (joinLines texts) = texts.
Proof.
  induction texts as [|t texts IH]; intros Hne Hfree; [done|].
  apply Forall_cons in Hfree as [Ht Hfree].
  destruct texts as [|t' texts'].
  - simpl. by apply split_last.
  - cbn [joinLines]. rewrite split_piece by done. f_equal. by apply IH.
Qed.

Lemma trim_id (s : list N) :
  (∃ first, head s = Some first ∧ JsString.isWhiteSpace first = false) →
  (∃ final, last s = Some final ∧ JsString.isWhiteSpace final = false) →
  JsString.trim s = s.
Proof.
  intros (first & Hfirst & Hf) (final & Hfinal & Hl). unfold JsString.trim.
  destruct s as [|c s]; [done|]. injection Hfirst as ->.
  rewrite (dropWhile_head _ _ _ Hf).
  destruct (reverse (first :: s)) as [|r rs] eqn:Hrev.
  { apply (f_equal length) in Hrev. rewrite length_reverse in Hrev. done. }
  assert (r = final) as ->.
  { rewrite <- head_reverse, Hrev in Hfinal. by injection Hfinal. }
  rewrite (dropWhile_head _ _ _ Hl), <- Hrev. apply reverse_involutive.
Qed.

Lemma filter_id {A : Type} (p : A → bool) (l : list A) :
  Forall (fun x => p x = true) l → List.filter p l = l.
Proof. induction 1 as [|x l Hx _ IH]; [done|]. simpl. by rewrite Hx, IH. Qed.

Lemma joinLines_units (texts : list (list N)) (c : N) :
  c ∈ joinLines texts → c = JsString.lineFeed ∨ ∃ lineText, lineText ∈ texts ∧ c ∈ lineText.
Proof.
  induction texts as [|t texts IH]; intros Hc.
  - by apply elem_of_nil in Hc.
  - destruct texts as [|t' texts'].
    + right. exists t. split; [by left|done].
    + cbn [joinLines] in Hc. apply elem_of_app in Hc as [Hc|Hc].
      * right. exists t. split; [by left|done].
      * apply elem_of_cons in Hc as [->|Hc]; [by left|].
        destruct (IH Hc) as [->|(lineText & Hin & Hc')]; [by left|].
        right. exists lineText. split; [by right|done].
Qed.

Lemma originalLines_clean (texts : list (list N)) :
  Forall cleanLine texts → originalLines (joinLines texts) = texts.
Proof.
  intros Hclean. destruct texts as [|t0 texts0] eqn:Htexts; [done|].
  rewrite <- Htexts in *. assert (Hne : texts ≠ []) by (by rewrite Htexts).
  clear Htexts. unfold originalLines.
  assert (Hcr : JsString.carriageReturn ∉ joinLines texts).
  { intros Hin. apply joinLines_units in Hin as [[=]|(lineText & Hin & Hc)].
    rewrite Forall_forall in Hclean. destruct (Hclean _ Hin) as (_ & _ & Hunits).
    by destruct (Hunits _ Hc) as (_ & _ & Hcr). }
  rewrite replaceCRLF_id, replaceCR_id by done.
  rewrite split_joinLines; [|done|].
  2:{ eapply Forall_impl; [exact Hclean|]. intros lineText (_ & _ & Hunits) Hin.
      by destruct (Hunits _ Hin) as (_ & Hlf & _). }
  assert (map JsString.trim texts = texts) as ->.
  { apply list_eq. intros i. rewrite list_lookup_fmap.
    destruct (texts !! i) as [lineText|] eqn:Hi; [|done]. simpl. f_equal.
    rewrite Forall_forall in Hclean.
    destruct (Hclean lineText) as (Hfirst & Hfinal & _); [by eapply list_elem_of_lookup_2|].
    by apply trim_id. }
  assert (Hnonempty : Forall (fun lineText => JsString.nonEmpty lineText = true) texts).
  { eapply Forall_impl; [exact Hclean|]. intros lineText ((first & Hfirst & _) & _).
    by destruct lineText. }
  rewrite (filter_id _ _ Hnonempty).
  assert (map (List.filter (fun c => negb (punctuationUnit c))) texts = texts) as ->.
  { apply list_eq. intros i. rewrite list_lookup_fmap.
    destruct (texts !! i) as [lineText|] eqn:Hi; [|done]. simpl. f_equal.
    apply filter_id. rewrite Forall_forall in Hclean.
    destruct (Hclean lineText) as (_ & _ & Hunits); [by eapply list_elem_of_lookup_2|].
    apply Forall_forall. intros c Hc. by destruct (Hunits c Hc) as (-> & _). }
  by apply filter_id.
Qed.

(** X3.  A text made of lines joined by line feeds, each line without line
    break and punctuation and without white space at its ends, is loaded as
    it is: the stored lines are these lines, and the stored characters are
    their code units in order, white space inside a line included. *)
Theorem parseTextToLines_clean (m : LyricsTextManager) (texts : list (list N)) :
  Forall cleanLine texts →
  currentText m = joinLines texts →
  map Line.text (lines (parseTextToLines m)) = texts
  ∧ map char (characters (base (parseTextToLines m))) = concat texts.
Proof.
  intros Hclean Htext. destruct (parseTextToLines_linesFrom m) as [-> ->].
  rewrite Htext, (originalLines_clean texts Hclean).
  split; [apply linesFrom_text|apply linesFrom_char].
Qed.

Lemma parseTextToLines_clean_example :
  map char (characters (base (parseTextToLines twoLines)))
  = [0x4f5b; 0x8bf4; 97; 32; 98]%N.
Proof.
  assert (Hclean : Forall cleanLine [[0x4f5b; 0x8bf4]; [97; 32; 98]]%N).
  { apply Forall_cons_2; [|apply Forall_cons_2; [|apply Forall_nil_2]].
    - split; [by eexists|]. split; [by eexists|]. intros c Hc.
      repeat (apply elem_of_cons in Hc as [->|Hc]); try done. by apply elem_of_nil in Hc.
    - split; [by eexists|]. split; [by eexists|]. intros c Hc.
      repeat (apply elem_of_cons in Hc as [->|Hc]); try done. by apply elem_of_nil in Hc. }
  exact (proj2 (parseTextToLines_clean twoLines _ Hclean eq_refl)).
Defined.

Lemma trim_length_blank (t : list N) :
  Forall (fun c => JsString.isWhiteSpace c = true) t →
  Nat.eqb (length t) 0 || Nat.eqb (length (JsString.trim t)) 0 = true.
Proof. intros Hblank. rewrite (trim_blank t Hblank). apply orb_true_r. Qed.

(** X4.  A text of white space only is not loaded: [loadText] keeps the
    text, the lines and the characters that the manager held before, and with
    a lines container it replaces what is shown by the three test lines,
    which have no character spans. *)
Theorem loadText_blank (m : LyricsTextManager) (t : list N) :
  Forall (fun c => JsString.isWhiteSpace c = true) t →
  let m' := loadText (Some t) m in
  currentText m' = currentText m
  ∧ lines m' = lines m
  ∧ characters (base m') = characters (base m)
  ∧ currentCharIndex (base m') = currentCharIndex (base m)
  ∧ (is_Some (linesContainer (base m)) →
     charElements (base m') = ∅ ∧ length (lineElements (base m')) = 3)
  ∧ (linesContainer (base m) = None → base m' = base m).
Proof.
  intros Hblank. cbv zeta. unfold loadText. rewrite (trim_length_blank t Hblank).
  unfold showTestContent.
  destruct (linesContainer (base m)) as [offset|] eqn:Hc; simpl;
    repeat split; try done; by intros [? [=]].
Qed.

Lemma loadText_blank_example :
  characters (base (loadText (Some [32; 10; 9]%N) (parseTextToLines twoLines)))
  = characters (base (parseTextToLines twoLines)).
Proof.
  refine (proj1 (proj2 (proj2 (loadText_blank (parseTextToLines twoLines) [32; 10; 9]%N _)))).
  by repeat constructor.
Defined.

(** ** The cues of a loaded text *)

Lemma muyuSequence_all (getCharacterData : option (nat → option CharData)) (b : float)
    (remaining i muyuIndex : nat) :
  (∀ j, i ≤ j < i + remaining →
     receivesCue (match getCharacterData with Some get => get j | None => None end) = true) →
  muyuSequence getCharacterData b remaining i muyuIndex
  = map (fun r => muyuCue (muyuIndex + r) b (i + r)) (seq 0 remaining).
Proof.
  revert i muyuIndex. induction remaining as [|remaining IH]; intros i muyuIndex Hall; [done|].
  cbn [muyuSequence]. rewrite Hall by lia. cbn [seq map]. rewrite !Nat.add_0_r. f_equal.
  rewrite IH by (intros j Hj; apply Hall; lia).
  rewrite <- seq_shift, map_map. apply map_ext. intros r. f_equal; lia.
Qed.

(** X5.  For a text that [parseTextToLines] has loaded, the built sequence
    has, behind the start cue, one cue for every character, white space
    inside a line included: cue [r] carries character [r] and the delay
    [r * (1000 / speed)]. *)
Theorem parsed_text_cues (m : LyricsTextManager) (speed : float) :
  let chars := characters (base (parseTextToLines m)) in
  createPlaybackSequence (Some (characterLookup chars)) speed (length chars)
  = startBowl :: map (fun r => muyuCue r (1000 / speed) r) (seq 0 (length chars)).
Proof.
  cbv zeta. unfold createPlaybackSequence. f_equal.
  rewrite muyuSequence_all; [done|].
  intros j Hj. unfold characterLookup.
  destruct (lookup_lt_is_Some_2 (characters (base (parseTextToLines m))) j ltac:(lia))
    as [c Hc].
  rewrite Hc. apply parseTextToLines_characters_flags in Hc as [Hp Hs].
  unfold receivesCue. by rewrite Hp, Hs.
Qed.

(** X6.  While the engine has no [getCharacterData] (no [startPlayback]
    came before, as when the export builds its sequence first), the built
    sequence has one cue for every position below [textLength], whatever the
    text is. *)
Theorem createPlaybackSequence_without_lookup (speed : float) (textLength : nat) :
  createPlaybackSequence None speed textLength
  = startBowl :: map (fun r => muyuCue r (1000 / speed) r) (seq 0 textLength).
Proof.
  unfold createPlaybackSequence. f_equal. by rewrite muyuSequence_all.
Qed.

(** ** Rendering *)

Lemma appendSpan_fold (chars : list CharData) :
  (∀ k c, chars !! k = Some c → index c = k) →
  ∀ k, foldl appendSpan ∅ chars !! k = spanClasses <$> chars !! k.
Proof.
  induction chars as [|c chars IH] using rev_ind; intros Hindex k.
  - simpl. by rewrite lookup_empty.
  - rewrite foldl_app. cbn [foldl]. unfold appendSpan.
    assert (Hc : index c = length chars).
    { apply Hindex. by rewrite lookup_app_r, Nat.sub_diag by lia. }
    assert (Hprefix : ∀ j, foldl appendSpan ∅ chars !! j = spanClasses <$> chars !! j).
    { apply IH. intros j c' Hj. apply Hindex. by apply lookup_app_l_Some. }
    rewrite Hprefix, Hc, lookup_ge_None_2 by lia. simpl.
    destruct (decide (k = length chars)) as [->|Hne].
    + by rewrite lookup_insert_eq, lookup_app_r, Nat.sub_diag by lia.
    + rewrite lookup_insert_ne, Hprefix by done.
      destruct (decide (k < length chars)).
      * by rewrite lookup_app_l by done.
      * rewrite !lookup_ge_None_2; [done|rewrite length_app; simpl; lia|lia].
Qed.

Lemma renderLyrics_shape (p : LyricsTextManager) :
  characters (base (renderLyrics p)) = characters (base p)
  ∧ charElements (base (renderLyrics p))
    = foldl appendSpan ∅ (concat (map Line.characters (lines p)))
  ∧ is_Some (linesContainer (base (renderLyrics p)))
  ∧ length (lineElements (base (renderLyrics p))) = Nat.max 1 (length (lines p))
  ∧ lines (renderLyrics p) = lines p
  ∧ currentText (renderLyrics p) = currentText p
  ∧ currentCharIndex (base (renderLyrics p)) = currentCharIndex (base p)
  ∧ currentLineIndex (base (renderLyrics p)) = currentLineIndex (base p).
Proof.
  unfold renderLyrics.
  destruct (lines p) as [|l0 ls] eqn:Hlines,
    (linesContainer (base p)) as [offset|] eqn:Hcont;
    simpl; rewrite ?Hcont, ?length_imap, ?length_map; simpl;
    repeat split; try done; try (by eexists); lia.
Qed.

Lemma renderLyrics_parsed (m : LyricsTextManager) :
  let m' := renderLyrics (parseTextToLines m) in
  rendered (base m')
  ∧ characters (base m') = characters (base (parseTextToLines m))
  ∧ (∀ k, charElements (base m') !! k
          = (fun _ => {[ "lyrics-character"%string ]}) <$> characters (base m') !! k)
  ∧ is_Some (linesContainer (base m'))
  ∧ length (lineElements (base m')) = Nat.max 1 (length (lines (parseTextToLines m))).
Proof.
  cbv zeta.
  assert (concat (map Line.characters (lines (parseTextToLines m)))
          = characters (base (parseTextToLines m))) as Hconcat.
  { destruct (parseTextToLines_linesFrom m) as [Hlines Hpchars]. by rewrite Hlines, Hpchars. }
  destruct (renderLyrics_shape (parseTextToLines m)) as (Hchars & Hels & Hcont & Hlen & _).
  rewrite Hconcat in Hels.
  assert (Hspans : ∀ k, charElements (base (renderLyrics (parseTextToLines m))) !! k
                        = (fun _ => {[ "lyrics-character"%string ]} : gset string)
                            <$> characters (base (parseTextToLines m)) !! k).
  { intros k. rewrite Hels, appendSpan_fold
      by (intros j c Hc; by apply (parseTextToLines_characters_index m)).
    destruct (characters (base (parseTextToLines m)) !! k) as [c|] eqn:Hc; [|done].
    apply (parseTextToLines_characters_flags m) in Hc as [Hp Hs].
    simpl. unfold spanClasses. rewrite Hp, Hs. by f_equal. }
  rewrite Hchars. repeat split; try done.
  intros i Hi. rewrite Hspans. rewrite Hchars in Hi.
  destruct (lookup_lt_is_Some_2 _ _ Hi) as [c ->]. by eexists.
Qed.

(** X7.  After [parseTextToLines] and [renderLyrics] every loaded character
    has its span, and no others exist; each span carries the class
    [lyrics-character] only, so no mark of an earlier text is left; the lines
    container exists; and there is one line element for each line (and the
    line of the notice when the text has no line). *)
Theorem renderLyrics_rendered (m : LyricsTextManager) :
  let m' := renderLyrics (parseTextToLines m) in
  rendered (base m')
  ∧ characters (base m') = characters (base (parseTextToLines m))
  ∧ (∀ k, charElements (base m') !! k
          = (fun _ => {[ "lyrics-character"%string ]}) <$> characters (base m') !! k)
  ∧ is_Some (linesContainer (base m'))
  ∧ length (lineElements (base m')) = Nat.max 1 (length (lines (parseTextToLines m))).
Proof. apply renderLyrics_parsed. Qed.

(** ** The marks of a rendered text *)

Lemma highlightCharacter_cases (charIndex : Z) (m : TextManager) :
  highlightCharacter charIndex m = m
  ∨ ∃ n c, charIndex = Z.of_nat n ∧ isHighlightEnabled m = true
           ∧ characters m !! n = Some c.
Proof.
  unfold highlightCharacter.
  destruct (isHighlightEnabled m); [|by left]. simpl.
  destruct (Z.ltb_spec charIndex 0); [by left|]. simpl.
  destruct (Z.leb_spec (Z.of_nat (length (characters m))) charIndex); [by left|].
  right. destruct (lookup_lt_is_Some_2 (characters m) (Z.to_nat charIndex) ltac:(lia))
    as [c Hc].
  exists (Z.to_nat charIndex), c. split; [lia|done].
Qed.

Lemma highlightCharacter_lines (m : TextManager) (n : nat) (c : CharData) :
  isHighlightEnabled m = true →
  characters m !! n = Some c →
  let m' := highlightCharacter (Z.of_nat n) m in
  config m' = config m
  ∧ lineElements m'
    = imap (lineState (lineIndex c)) (classRemove "highlighted" <$> lineElements m)
  ∧ linesContainer m'
    = (if decide (lineIndex c = currentLineIndex m) then linesContainer m
       else (fun _ => (Z.max 0 (Z.of_nat (lineIndex c) - currentLinePosition (config m))
                       * lineHeight (config m))%Z) <$> linesContainer m).
Proof.
  intros Hen Hc. pose proof (lookup_lt_Some _ _ _ Hc) as Hlt.
  unfold highlightCharacter. rewrite Hen. simpl.
  assert ((Z.of_nat n <? 0)%Z = false) as -> by lia.
  assert ((Z.of_nat (length (characters m)) <=? Z.of_nat n)%Z = false) as -> by lia.
  simpl. rewrite Nat2Z.id, Hc.
  case_decide as Hline; simpl.
  - rewrite Hline. by repeat split.
  - unfold scrollToCurrentLine. simpl. destruct (linesContainer m); simpl; by repeat split.
Qed.

Lemma alike_refl (m : TextManager) : alike m m.
Proof.
  unfold alike. repeat split; try done.
  - intros i. by destruct (charElements m !! i); constructor.
  - by apply Forall_Forall2_diag, Forall_forall.
Qed.

Lemma alike_trans (m1 m2 m3 : TextManager) : alike m1 m2 → alike m2 m3 → alike m1 m3.
Proof.
  intros (Hc & Hf & Hk & He & Hl) (Hc' & Hf' & Hk' & He' & Hl'). unfold alike.
  split; [congruence|]. split; [congruence|]. split; [by rewrite Hk'|]. split.
  - intros i. specialize (He i). specialize (He' i).
    destruct He as [a b Hab|]; inversion He' as [b' c Hbc|]; subst; constructor.
    congruence.
  - eapply Forall2_trans; [|exact Hl|exact Hl']. simpl. intros a b c ? ?. congruence.
Qed.

Lemma alike_intro (m m' : TextManager) (f g : nat → gset string → gset string) :
  characters m' = characters m →
  config m' = config m →
  (is_Some (linesContainer m') ↔ is_Some (linesContainer m)) →
  (∀ i, charElements m' !! i = f i <$> charElements m !! i) →
  (∀ i classes, f i classes ∖ spanMarks = classes ∖ spanMarks) →
  (∀ i, lineElements m' !! i = g i <$> lineElements m !! i) →
  (∀ i classes, g i classes ∖ lineMarks = classes ∖ lineMarks) →
  alike m m'.
Proof.
  intros Hc Hf Hk He Hfm Hl Hgm. unfold alike. repeat split; try done; try apply Hk.
  - intros i. rewrite He. destruct (charElements m !! i); constructor. apply Hfm.
  - assert (Heq : lineElements m' = imap g (lineElements m))
      by (apply list_eq; intros i; by rewrite Hl, list_lookup_imap).
    rewrite Heq. apply Forall2_same_length_lookup_2; [by rewrite length_imap|].
    intros i a b Ha Hb. rewrite list_lookup_imap, Ha in Hb. injection Hb as <-.
    apply Hgm.
Qed.

Lemma lineState_marks (current i : nat) (classes : gset string) :
  lineState current i classes ∖ lineMarks = classes ∖ lineMarks.
Proof.
  unfold lineState, lineMarks, classAdd, classRemove. repeat case_decide; set_solver.
Qed.

Lemma classRemove_lineMarks (c : string) (classes : gset string) :
  c ∈ lineMarks → classRemove c classes ∖ lineMarks = classes ∖ lineMarks.
Proof. unfold classRemove. set_solver. Qed.

Lemma classRemove_spanMarks (c : string) (classes : gset string) :
  c ∈ spanMarks → classRemove c classes ∖ spanMarks = classes ∖ spanMarks.
Proof. unfold classRemove. set_solver. Qed.

Lemma highlightedClasses_marks (n i : nat) (classes : gset string) :
  highlightedClasses n i classes ∖ spanMarks = classes ∖ spanMarks.
Proof.
  unfold highlightedClasses, spanMarks, classAdd, classRemove.
  repeat case_decide; set_solver.
Qed.

Lemma alike_clearHighlight (m : TextManager) : alike m (clearHighlight m).
Proof.
  apply (alike_intro _ _ (fun _ => classRemove "highlighted")
           (fun _ => classRemove "highlighted")); try done.
  - intros i. simpl. by rewrite lookup_fmap.
  - intros _ classes. apply classRemove_spanMarks. unfold spanMarks. set_solver.
  - intros i. simpl. by rewrite list_lookup_fmap.
  - intros _ classes. apply classRemove_lineMarks. unfold lineMarks. set_solver.
Qed.

Lemma alike_updateLineStates (m : TextManager) : alike m (updateLineStates m).
Proof.
  apply (alike_intro _ _ (fun _ classes => classes) (lineState (currentLineIndex m)));
    try done.
  - intros i. simpl. by destruct (charElements m !! i).
  - intros i. simpl. by rewrite list_lookup_imap.
  - intros i classes. apply lineState_marks.
Qed.

Lemma alike_scrollToCurrentLine (m : TextManager) : alike m (scrollToCurrentLine m).
Proof.
  apply (alike_intro _ _ (fun _ classes => classes) (fun _ classes => classes)).
  all: unfold scrollToCurrentLine; destruct (linesContainer m) eqn:Hcont; simpl;
    try done; try (by rewrite Hcont).
  all: try (intros i; by destruct (charElements m !! i)).
  all: try (intros i; by destruct (lineElements m !! i)).
Qed.

Lemma alike_resetPositionLater (m : TextManager) : alike m (resetPositionLater m).
Proof.
  apply (alike_intro _ _ (fun _ classes => classes) (fun _ classes => classes)).
  all: unfold resetPositionLater; destruct (linesContainer m) eqn:Hcont; simpl;
    try done; try (by rewrite Hcont).
  all: try (intros i; by destruct (charElements m !! i)).
  all: try (intros i; by destruct (lineElements m !! i)).
  all: split; by eexists.
Qed.

Lemma resetPosition_elements (m : TextManager) :
  characters (resetPosition m) = characters m
  ∧ config (resetPosition m) = config m
  ∧ isHighlightEnabled (resetPosition m) = isHighlightEnabled m
  ∧ scrolled (resetPosition m) = scrolled m
  ∧ currentCharIndex (resetPosition m) = 0
  ∧ currentLineIndex (resetPosition m) = 0
  ∧ linesContainer (resetPosition m) = (fun _ => 0%Z) <$> linesContainer m
  ∧ charElements (resetPosition m)
    = (fun classes => classRemove "completed" (classRemove "highlighted" classes))
        <$> charElements m
  ∧ lineElements (resetPosition m)
    = imap (fun i classes =>
              lineState 0 i (classRemove "completed" (classRemove "highlighted" classes)))
        (lineElements m).
Proof.
  unfold resetPosition. destruct (linesContainer m) as [offset|] eqn:Hcont; simpl;
    rewrite Hcont; simpl; repeat split; try done.
  all: try (by rewrite <- map_fmap_compose).
  all: rewrite <- list_fmap_compose; apply list_eq; intros i;
    rewrite !list_lookup_imap, list_lookup_fmap; by destruct (lineElements m !! i).
Qed.

Lemma reset_classes_unmarked (old : gset string) :
  "highlighted"%string ∉ classRemove "completed" (classRemove "highlighted" old)
  ∧ "completed"%string ∉ classRemove "completed" (classRemove "highlighted" old).
Proof.
  unfold classRemove. split; intros Hin; apply elem_of_difference in Hin as [Hin Hne].
  - apply elem_of_difference in Hin as [_ Hne']. apply Hne'. by apply elem_of_singleton.
  - apply Hne. by apply elem_of_singleton.
Qed.

Lemma reset_classes_spanMarks (classes : gset string) :
  classRemove "completed" (classRemove "highlighted" classes) = classes ∖ spanMarks.
Proof. unfold classRemove, spanMarks. set_solver. Qed.

Lemma lineState_first (i : nat) (classes : gset string) :
  ("current"%string ∈ lineState 0 i classes ↔ i = 0)
  ∧ ("next"%string ∈ lineState 0 i classes ↔ i = 1)
  ∧ "prev"%string ∉ lineState 0 i classes.
Proof.
  unfold lineState, classAdd, classRemove. cbv zeta.
  destruct (decide (i = 0)) as [->|Hi0]; [|destruct (decide (i = 0 + 1)) as [->|Hi1];
    [|destruct (decide (S i = 0)) as [?|_]; [lia|]]];
    rewrite ?elem_of_union, ?elem_of_difference, ?elem_of_singleton;
    (split; [|split]); try (intros [[[_ _] H] _]; by apply H).
  all: try (split; [done|intros _]); try (split; [|lia]).
  all: try (intros [[[[_ H] _] _]|H]; done).
  all: try (intros [[[_ H] _] _]; done).
  all: try (by right).
  all: intuition (discriminate || lia || idtac).
Qed.

Lemma resetPosition_unmarked (m : TextManager) (i : nat) :
  ¬ hasClass "highlighted" (resetPosition m) i ∧ ¬ hasClass "completed" (resetPosition m) i.
Proof.
  destruct (resetPosition_elements m) as (_ & _ & _ & _ & _ & _ & _ & He & _).
  split; intros (classes & Hi & Hin); rewrite He, lookup_fmap in Hi;
    destruct (charElements m !! i) as [old|]; try done; injection Hi as <-;
    by apply (reset_classes_unmarked old) in Hin.
Qed.

Lemma alike_resetPosition (m : TextManager) : alike m (resetPosition m).
Proof.
  destruct (resetPosition_elements m)
    as (Hc & Hf & _ & _ & _ & _ & Hk & He & Hl).
  apply (alike_intro _ _
           (fun _ classes => classRemove "completed" (classRemove "highlighted" classes))
           (fun i classes =>
              lineState 0 i (classRemove "completed" (classRemove "highlighted" classes))));
    try done.
  - rewrite Hk. destruct (linesContainer m); simpl; split; intros [? ?]; by eexists.
  - intros i. by rewrite He, lookup_fmap.
  - intros _ classes. unfold classRemove, spanMarks. set_solver.
  - intros i. by rewrite Hl, list_lookup_imap.
  - intros i classes. rewrite lineState_marks. unfold classRemove, lineMarks. set_solver.
Qed.

Lemma alike_highlightCharacter (charIndex : Z) (m : TextManager) :
  alike m (highlightCharacter charIndex m).
Proof.
  destruct (highlightCharacter_cases charIndex m) as [->|(n & c & -> & Hen & Hc)];
    [apply alike_refl|].
  destruct (highlightCharacter_unfold m n c Hen Hc) as (Hchars & _ & _ & _ & _ & Hels).
  destruct (highlightCharacter_lines m n c Hen Hc) as (Hconfig & Hlines & Hcont).
  cbv zeta in *.
  apply (alike_intro _ _ (highlightedClasses n)
           (fun i classes => lineState (lineIndex c) i (classRemove "highlighted" classes)));
    try done.
  - rewrite Hcont. case_decide; [done|].
    destruct (linesContainer m); simpl; split; intros [? ?]; by eexists.
  - intros i classes. apply highlightedClasses_marks.
  - intros i. rewrite Hlines, list_lookup_imap, list_lookup_fmap.
    by destruct (lineElements m !! i).
  - intros i classes. rewrite lineState_marks. unfold classRemove, lineMarks. set_solver.
Qed.

Lemma alike_mark (m : TextManager) (call : Marking) : alike m (mark m call).
Proof.
  destruct call as [z|z| | | |[|]| |]; simpl.
  - apply alike_highlightCharacter.
  - unfold jumpToPosition. destruct (_ && _); [apply alike_highlightCharacter|apply alike_refl].
  - apply alike_clearHighlight.
  - apply alike_resetPosition.
  - apply alike_resetPositionLater.
  - unfold setHighlightEnabled. apply (alike_trans _ m); [apply alike_refl|].
    apply (alike_intro _ _ (fun _ classes => classes) (fun _ classes => classes));
      try done; intros i; simpl.
    + by destruct (charElements m !! i).
    + by destruct (lineElements m !! i).
  - unfold setHighlightEnabled.
    apply (alike_intro _ _ (fun _ => classRemove "highlighted")
             (fun _ => classRemove "highlighted")); try done.
    + intros i. simpl. by rewrite lookup_fmap.
    + intros _ classes. apply classRemove_spanMarks. unfold spanMarks. set_solver.
    + intros i. simpl. by rewrite list_lookup_fmap.
    + intros _ classes. apply classRemove_lineMarks. unfold lineMarks. set_solver.
  - apply alike_scrollToCurrentLine.
  - apply alike_updateLineStates.
Qed.

Lemma alike_marks (calls : list Marking) (m : TextManager) : alike m (foldl mark m calls).
Proof.
  revert m. induction calls as [|call calls IH]; intros m; [apply alike_refl|].
  simpl. eapply alike_trans; [apply alike_mark|apply IH].
Qed.

Lemma not_highlighted_removed (m m' : TextManager) (f : gset string → gset string) :
  charElements m' = f <$> charElements m →
  (∀ classes, "highlighted"%string ∉ f classes) →
  ∀ i, ¬ hasClass "highlighted" m' i.
Proof.
  intros Hels Hf i (classes & Hi & Hin). rewrite Hels, lookup_fmap in Hi.
  destruct (charElements m !! i) as [old|]; [|done]. injection Hi as <-.
  by apply (Hf old).
Qed.

Lemma oneHighlight_same (m m' : TextManager) :
  charElements m' = charElements m → currentCharIndex m' = currentCharIndex m →
  oneHighlight m → oneHighlight m'.
Proof. unfold oneHighlight, hasClass. intros -> ->. done. Qed.

Lemma oneHighlight_highlightCharacter (charIndex : Z) (m : TextManager) :
  oneHighlight m → oneHighlight (highlightCharacter charIndex m).
Proof.
  intros Hone.
  destruct (highlightCharacter_cases charIndex m) as [->|(n & c & -> & Hen & Hc)]; [done|].
  destruct (highlightCharacter_unfold m n c Hen Hc) as (_ & _ & Hcur & _ & _ & Hels).
  cbv zeta in *. intros i (classes & Hi & Hin). rewrite Hcur. rewrite Hels in Hi.
  destruct (charElements m !! i) as [old|]; [|done]. injection Hi as <-.
  by apply highlightedClasses_highlighted in Hin.
Qed.

Lemma oneHighlight_mark (m : TextManager) (call : Marking) :
  oneHighlight m → oneHighlight (mark m call).
Proof.
  intros Hone. destruct call as [z|z| | | |[|]| |]; simpl.
  - by apply oneHighlight_highlightCharacter.
  - unfold jumpToPosition. destruct (_ && _); [|done].
    by apply oneHighlight_highlightCharacter.
  - intros i Hi. exfalso. revert Hi.
    apply (not_highlighted_removed m _ (classRemove "highlighted")); [done|].
    intros classes. unfold classRemove. set_solver.
  - intros i Hi. exfalso. revert Hi.
    destruct (resetPosition_elements m) as (_ & _ & _ & _ & _ & _ & _ & Hels & _).
    apply (not_highlighted_removed m _ _ Hels).
    intros classes. unfold classRemove. set_solver.
  - apply (oneHighlight_same m); [| |done];
      unfold resetPositionLater; by destruct (linesContainer m).
  - by apply (oneHighlight_same m).
  - intros i Hi. exfalso. revert Hi.
    apply (not_highlighted_removed m _ (classRemove "highlighted")); [done|].
    intros classes. unfold classRemove. set_solver.
  - apply (oneHighlight_same m); [| |done];
      unfold scrollToCurrentLine; by destruct (linesContainer m).
  - by apply (oneHighlight_same m).
Qed.

(** X8.  Starting from a text with at most the current character
    highlighted (a freshly rendered text has none), every sequence of calls
    of [highlightCharacter], [jumpToPosition], [clearHighlight],
    [resetPosition] with its timer, [setHighlightEnabled],
    [scrollToCurrentLine] and [updateLineStates], with whatever arguments,
    keeps this so; the calls leave the characters and the configuration
    alone, create and remove no span and no line element, and change no
    class of a span or a line other than the marks. *)
Theorem marking_invariants (m : TextManager) (calls : list Marking) :
  oneHighlight m →
  let m' := foldl mark m calls in
  oneHighlight m'
  ∧ characters m' = characters m
  ∧ config m' = config m
  ∧ (∀ i, is_Some (charElements m' !! i) ↔ is_Some (charElements m !! i))
  ∧ length (lineElements m') = length (lineElements m)
  ∧ (rendered m → rendered m')
  ∧ (∀ i old new, charElements m !! i = Some old → charElements m' !! i = Some new →
       new ∖ spanMarks = old ∖ spanMarks)
  ∧ (∀ i old new, lineElements m !! i = Some old → lineElements m' !! i = Some new →
       new ∖ lineMarks = old ∖ lineMarks).
Proof.
  intros Hone. cbv zeta.
  assert (Hkept : oneHighlight (foldl mark m calls)).
  { revert m Hone. induction calls as [|call calls IH]; intros m Hone; [done|].
    simpl. apply IH. by apply oneHighlight_mark. }
  destruct (alike_marks calls m) as (Hchars & Hconfig & _ & Hels & Hlines).
  assert (Hdom : ∀ i, is_Some (charElements (foldl mark m calls) !! i)
                      ↔ is_Some (charElements m !! i)).
  { intros i. destruct (Hels i); split; intros [? ?]; done || by eexists. }
  split; [done|]. split; [done|]. split; [done|]. split; [done|].
  split; [symmetry; by eapply Forall2_length|]. split; [|split].
  - intros Hrendered i Hi. apply Hdom, Hrendered. by rewrite <- Hchars.
  - intros i old new Hold Hnew. specialize (Hels i). rewrite Hold, Hnew in Hels.
    by inversion Hels.
  - intros i old new Hold Hnew.
    exact (Forall2_lookup_lr _ _ _ _ _ _ Hlines Hold Hnew).
Qed.

Lemma marking_invariants_example :
  oneHighlight (foldl mark sampleManager [Highlight 2; Reset; Jump 1; EnableHighlight false]).
Proof.
  refine (proj1 (marking_invariants sampleManager
                   [Highlight 2; Reset; Jump 1; EnableHighlight false] _)).
  intros i (classes & Hi & Hin). simpl in Hi.
  destruct i as [|[|[|i]]]; simplify_map_eq; set_solver.
Defined.

Lemma lineState_reset (current i : nat) (a b : gset string) :
  b ∖ lineMarks = a ∖ lineMarks →
  lineState current i (classRemove "completed" (classRemove "highlighted" b))
  = lineState current i (classRemove "completed" (classRemove "highlighted" a)).
Proof.
  intros Hab. unfold lineState. cbv zeta.
  assert (∀ X : gset string,
            classRemove "prev" (classRemove "next" (classRemove "current"
              (classRemove "completed" (classRemove "highlighted" X))))
            = X ∖ lineMarks) as Hcleared.
  { intros X. unfold classRemove, lineMarks. set_solver. }
  by rewrite !Hcleared, Hab.
Qed.

(** X9.  [resetPosition] undoes every sequence of marking calls: behind it
    the spans and the line elements carry the classes that a reset of the
    state before these calls gives them, no span is highlighted or
    completed, the position is character 0 in line 0, line 0 is the current
    line, and an existing lines container is moved back to the offset 0. *)
Theorem resetPosition_undoes (m : TextManager) (calls : list Marking) :
  let m' := resetPosition (foldl mark m calls) in
  charElements m' = charElements (resetPosition m)
  ∧ lineElements m' = lineElements (resetPosition m)
  ∧ currentCharIndex m' = 0 ∧ currentLineIndex m' = 0
  ∧ (∀ i, ¬ hasClass "highlighted" m' i ∧ ¬ hasClass "completed" m' i)
  ∧ (∀ i classes, lineElements m' !! i = Some classes →
       ("current"%string ∈ classes ↔ i = 0) ∧ ("next"%string ∈ classes ↔ i = 1)
       ∧ "prev"%string ∉ classes)
  ∧ linesContainer m' = (fun _ => 0%Z) <$> linesContainer m.
Proof.
  cbv zeta. set (m1 := foldl mark m calls).
  destruct (alike_marks calls m) as (_ & _ & Hcont & Hels & Hlines). fold m1 in Hcont, Hels, Hlines.
  destruct (resetPosition_elements m1) as (_ & _ & _ & _ & Hchar & Hline & Hk & He & Hl).
  destruct (resetPosition_elements m) as (_ & _ & _ & _ & _ & _ & Hk0 & He0 & Hl0).
  split; [|split; [|split; [done|split; [done|split; [|split]]]]].
  - rewrite He, He0. apply map_eq. intros i. rewrite !lookup_fmap.
    destruct (Hels i) as [a b Hab|]; [|done]. simpl. f_equal.
    by rewrite !reset_classes_spanMarks, Hab.
  - rewrite Hl, Hl0. apply list_eq. intros i. rewrite !list_lookup_imap.
    destruct (lineElements m !! i) as [a|] eqn:Ha.
    + destruct (Forall2_lookup_l _ _ _ _ _ Hlines Ha) as (b & -> & Hab). simpl. f_equal.
      by apply lineState_reset.
    + rewrite (lookup_ge_None_2 (lineElements m1)); [done|].
      rewrite <- (Forall2_length _ _ _ Hlines). by apply lookup_ge_None.
  - intros i. apply resetPosition_unmarked.
  - intros i classes Hi. rewrite Hl, list_lookup_imap in Hi.
    destruct (lineElements m1 !! i) as [old|]; [|done]. injection Hi as <-.
    apply lineState_first.
  - rewrite Hk. destruct (linesContainer m1), (linesContainer m); try done;
      destruct Hcont as [H1 H2]; (by destruct H1) || (by destruct H2).
Qed.

(** X10.  With highlighting enabled and for a valid character index [n],
    [highlightCharacter(n)] leaves as many line elements as there were and
    marks them anew: the line of character [n] is the current line and the
    only one, the line behind it the only next line, the line before it the
    only previous line, and no line element keeps a highlight.  The lines
    container stays where it is when the line is the one that was current;
    otherwise an existing container is moved to the offset
    [max(0, line - currentLinePosition) * lineHeight]. *)
Theorem highlightCharacter_lines_marked (m : TextManager) (n : nat) :
  isHighlightEnabled m = true →
  n < length (characters m) →
  let m' := highlightCharacter (Z.of_nat n) m in
  ∃ c, characters m !! n = Some c
    ∧ length (lineElements m') = length (lineElements m)
    ∧ (∀ i classes, lineElements m' !! i = Some classes →
         ("current"%string ∈ classes ↔ i = lineIndex c)
         ∧ ("next"%string ∈ classes ↔ i = lineIndex c + 1)
         ∧ ("prev"%string ∈ classes ↔ S i = lineIndex c)
         ∧ "highlighted"%string ∉ classes)
    ∧ (lineIndex c = currentLineIndex m → linesContainer m' = linesContainer m)
    ∧ (lineIndex c ≠ currentLineIndex m →
       linesContainer m'
       = (fun _ => (Z.max 0 (Z.of_nat (lineIndex c) - currentLinePosition (config m))
                    * lineHeight (config m))%Z) <$> linesContainer m).
Proof.
  intros Hen Hlt. destruct (lookup_lt_is_Some_2 _ _ Hlt) as [c Hc].
  destruct (highlightCharacter_lines m n c Hen Hc) as (_ & Hlines & Hcont).
  cbv zeta in *. exists c. split; [done|].
  split; [by rewrite Hlines, length_imap, length_fmap|]. split; [|split].
  - intros i classes Hi. rewrite Hlines, list_lookup_imap, list_lookup_fmap in Hi.
    destruct (lineElements m !! i) as [old|]; [|done]. injection Hi as <-.
    unfold lineState, classAdd, classRemove.
    repeat case_decide; subst; set_solver by lia.
  - intros Hsame. rewrite Hcont. by destruct (decide _).
  - intros Hother. rewrite Hcont. by destruct (decide _).
Qed.

Lemma highlightCharacter_lines_marked_example :
  linesContainer (highlightCharacter 2 (setCurrentLineIndex 7 sampleManager)) = Some 0%Z.
Proof.
  destruct (highlightCharacter_lines_marked (setCurrentLineIndex 7 sampleManager) 2
              eq_refl ltac:(simpl; lia)) as (c & Hc & _ & _ & _ & Hmoved).
  injection Hc as <-. exact (Hmoved ltac:(done)).
Defined.

(** X11.  [setHighlightEnabled(false)] takes the highlight from every span
    and keeps the completed marks, the current position and the lines
    container; from then on [highlightCharacter] and [jumpToPosition] change
    nothing, whatever their argument, until highlighting is enabled again. *)
Theorem highlight_switched_off (m : TextManager) :
  let m' := setHighlightEnabled false m in
  (∀ i, ¬ hasClass "highlighted" m' i)
  ∧ (∀ i, hasClass "completed" m' i ↔ hasClass "completed" m i)
  ∧ currentCharIndex m' = currentCharIndex m
  ∧ currentLineIndex m' = currentLineIndex m
  ∧ linesContainer m' = linesContainer m
  ∧ (∀ calls, Forall (fun call => ∃ z, call = Highlight z ∨ call = Jump z) calls →
       foldl mark m' calls = m').
Proof.
  cbv zeta. split; [|split; [|split; [done|split; [done|split; [done|]]]]].
  - apply (not_highlighted_removed m _ (classRemove "highlighted")); [done|].
    intros classes. unfold classRemove. set_solver.
  - intros i. unfold hasClass. simpl. rewrite lookup_fmap. split.
    + intros (classes & Hi & Hin). destruct (charElements m !! i) as [old|]; [|done].
      injection Hi as <-. exists old. split; [done|]. unfold classRemove in Hin. set_solver.
    + intros (old & -> & Hin). exists (classRemove "highlighted" old). split; [done|].
      unfold classRemove. set_solver.
  - intros calls Hcalls. induction Hcalls as [|call calls (z & [->| ->]) _ IH]; [done| |].
    + by cbn [foldl mark].
    + cbn [foldl mark]. unfold jumpToPosition.
      destruct (_ && _); [by cbn [foldl mark] in IH|done].
Qed.

(** ** A text from loading to display *)

Lemma trim_nonblank (t : list N) :
  Exists (fun c => JsString.isWhiteSpace c = false) t → JsString.trim t ≠ [].
Proof.
  intros Hex. apply Exists_exists in Hex as (c & Hc & Hws).
  assert (Hkept : ∀ l : list N, c ∈ l → c ∈ dropWhile JsString.isWhiteSpace l).
  { intros l Hin. destruct (dropWhile_suffix JsString.isWhiteSpace l) as (pre & Heq & Hall).
    rewrite Heq in Hin. apply elem_of_app in Hin as [Hin|Hin]; [|done].
    rewrite Forall_forall in Hall. specialize (Hall c Hin). congruence. }
  unfold JsString.trim. intros Hnil.
  assert (c ∈ reverse (dropWhile JsString.isWhiteSpace
                         (reverse (dropWhile JsString.isWhiteSpace t)))) as Hin.
  { rewrite elem_of_reverse. apply Hkept. rewrite elem_of_reverse. by apply Hkept. }
  rewrite Hnil in Hin. by apply elem_of_nil in Hin.
Qed.

Lemma loadText_nonblank (m : LyricsTextManager) (t : list N) :
  Exists (fun c => JsString.isWhiteSpace c = false) t →
  loadText (Some t) m
  = parseTextToLines {| base := base m; currentText := t; lines := lines m |}.
Proof.
  intros Hex. unfold loadText.
  assert (Nat.eqb (length t) 0 || Nat.eqb (length (JsString.trim t)) 0 = false) as ->;
    [|done].
  pose proof (trim_nonblank t Hex) as Htrim.
  destruct t as [|c0 t']; [by apply Exists_nil in Hex|].
  by destruct (JsString.trim (c0 :: t')).
Qed.

Lemma loadTextLater_parsed (start : LyricsTextManager) :
  let parsed := parseTextToLines start in
  let m' := loadTextLater parsed in
  currentText m' = currentText start
  ∧ lines m' = lines parsed
  ∧ characters (base m') = characters (base parsed)
  ∧ rendered (base m')
  ∧ (∀ i, ¬ hasClass "highlighted" (base m') i ∧ ¬ hasClass "completed" (base m') i)
  ∧ currentCharIndex (base m') = 0 ∧ currentLineIndex (base m') = 0
  ∧ getCurrentCharacter (base m') = head (characters (base parsed))
  ∧ linesContainer (base m') = Some 0%Z.
Proof.
  cbv zeta.
  pose proof (parseTextToLines_text start) as Hparsed.
  destruct (renderLyrics_shape (parseTextToLines start))
    as (Hchars & _ & [offset Hcont] & _ & Hlines & Htext & _).
  pose proof (renderLyrics_parsed start) as (Hrendered & _ & _).
  cbv zeta in Hrendered.
  remember (parseTextToLines start) as p eqn:Hp. clear Hp.
  unfold loadTextLater. cbv zeta.
  remember (renderLyrics p) as r eqn:Hr. clear Hr.
  destruct (resetPosition_elements (base r))
    as (Hc & _ & _ & _ & Hchar & Hline & Hk & He & _).
  cbn [base currentText lines setBase].
  split; [by rewrite Htext|]. split; [exact Hlines|]. split; [by rewrite Hc|].
  split; [|split; [|split; [exact Hchar|split; [exact Hline|]]]].
  - intros i Hi. rewrite Hc in Hi. rewrite He, lookup_fmap.
    destruct (Hrendered i Hi) as [classes ->]. by eexists.
  - intros i. apply resetPosition_unmarked.
  - split; [|by rewrite Hk, Hcont].
    unfold getCurrentCharacter. rewrite Hchar, Hc, Hchars.
    by destruct (characters (base p)).
Qed.

(** X12.  A text with a code unit that is no white space is loaded: behind
    [loadText] and its timer the manager holds the parsed characters of this
    text, every one of them with a span that carries no mark; the position
    is character 0 in line 0, [getCurrentCharacter] is the first character,
    and the lines container exists at the offset 0. *)
Theorem loadText_shown (m : LyricsTextManager) (t : list N) :
  Exists (fun c => JsString.isWhiteSpace c = false) t →
  let parsed := parseTextToLines {| base := base m; currentText := t; lines := lines m |} in
  let m' := loadTextLater (loadText (Some t) m) in
  currentText m' = t
  ∧ lines m' = lines parsed
  ∧ characters (base m') = characters (base parsed)
  ∧ rendered (base m')
  ∧ (∀ i, ¬ hasClass "highlighted" (base m') i ∧ ¬ hasClass "completed" (base m') i)
  ∧ currentCharIndex (base m') = 0 ∧ currentLineIndex (base m') = 0
  ∧ getCurrentCharacter (base m') = head (characters (base parsed))
  ∧ linesContainer (base m') = Some 0%Z.
Proof.
  intros Hex. cbv zeta. rewrite (loadText_nonblank m t Hex).
  apply (loadTextLater_parsed {| base := base m; currentText := t; lines := lines m |}).
Qed.

Lemma loadText_shown_example :
  map char (characters (base (loadTextLater (loadText (Some [97; 32; 98]%N) twoLines))))
  = [97; 32; 98]%N.
Proof.
  destruct (loadText_shown twoLines [97; 32; 98]%N ltac:(by left))
    as (_ & _ & Hchars & _).
  cbv zeta in Hchars. rewrite Hchars. reflexivity.
Defined.

Lemma highlightCharacter_empty (z : Z) (m : TextManager) :
  characters m = [] → highlightCharacter z m = m ∧ jumpToPosition z m = m.
Proof.
  intros Hnone.
  assert (Hsame : highlightCharacter z m = m).
  { unfold highlightCharacter. rewrite Hnone. simpl.
    destruct (isHighlightEnabled m); [|done]. simpl.
    destruct (Z.ltb_spec z 0); [done|]. simpl.
    destruct (Z.leb_spec (Z.of_nat 0) z); [done|lia]. }
  split; [done|]. unfold jumpToPosition. rewrite Hsame. by destruct (_ && _).
Qed.

(** X13.  [clear()] empties the manager: no text, no line, no character,
    position 0, and with a lines container no span and no line element.
    Behind it [getCurrentCharacter] is null, [highlightCharacter] and
    [jumpToPosition] change nothing whatever their argument, and the engine
    rejects [startPlayback] on the manager with the error of the empty text,
    playing nothing. *)
Theorem clear_empties (m : LyricsTextManager) (env : Env) (w : World) :
  let m' := clear m in
  currentText m' = [] ∧ lines m' = [] ∧ characters (base m') = []
  ∧ currentCharIndex (base m') = 0 ∧ currentLineIndex (base m') = 0
  ∧ (is_Some (linesContainer (base m)) →
     charElements (base m') = ∅ ∧ lineElements (base m') = [])
  ∧ getCurrentCharacter (base m') = None
  ∧ (∀ z, highlightCharacter z (base m') = base m' ∧ jumpToPosition z (base m') = base m')
  ∧ call env (StartPlayback (Some (characters (base m')))) w
    = (emit (Thrown EmptyText) (emit (ErrorRaised EmptyText) w), Finished).
Proof.
  cbv zeta.
  assert (Hnone : characters (base (clear m)) = []).
  { unfold clear. by destruct (linesContainer (base m)) eqn:Hcont; simpl; rewrite Hcont. }
  rewrite Hnone.
  split; [done|]. split; [done|]. split; [done|].
  split; [unfold clear; simpl; by destruct (linesContainer (base m))|].
  split; [unfold clear; simpl; by destruct (linesContainer (base m))|].
  split; [intros [offset Hcont]; unfold clear; simpl; by rewrite Hcont|].
  split; [unfold getCurrentCharacter; by rewrite Hnone|].
  split; [intros z; by apply highlightCharacter_empty|done].
Qed.

(** ** The line breakers *)

Lemma substring_chunk (sentence : list N) (maxLength i : nat) :
  i < length sentence →
  JsString.substring i (i + maxLength) sentence = take maxLength (drop i sentence).
Proof.
  intros Hi. unfold JsString.substring. cbv zeta.
  rewrite (Nat.min_l i) by lia.
  destruct (Nat.le_gt_cases (i + maxLength) (length sentence)) as [Hle|Hgt].
  - rewrite (Nat.min_l (i + maxLength)), Nat.max_r, Nat.min_l by lia. f_equal. lia.
  - rewrite (Nat.min_r (i + maxLength)), Nat.max_r, Nat.min_l by lia.
    rewrite !take_ge; [done|rewrite length_drop; lia..].
Qed.

Lemma forceBreakFrom_chunks (fuel : nat) (sentence : list N) (maxLength i : nat)
    (chunks : list (list N)) :
  0 < maxLength → length sentence - i < fuel →
  ∃ added,
    forceBreakFrom fuel sentence maxLength i chunks = Some (chunks ++ added)
    ∧ concat added = drop i sentence
    ∧ (∀ k chunk, added !! k = Some chunk →
         chunk = take maxLength (drop (i + k * maxLength) sentence)
         ∧ i + k * maxLength < length sentence).
Proof.
  intros Hmax. revert i chunks. induction fuel as [|fuel IH]; intros i chunks Hfuel; [lia|].
  cbn [forceBreakFrom]. destruct (Nat.ltb_spec i (length sentence)) as [Hi|Hi].
  - destruct (IH (i + maxLength)
                (chunks ++ [JsString.substring i (i + maxLength) sentence]) ltac:(lia))
      as (added & -> & Hconcat & Hchunks).
    rewrite substring_chunk by done.
    exists (take maxLength (drop i sentence) :: added). split; [by rewrite <- app_assoc|].
    split.
    + simpl. rewrite Hconcat, <- drop_drop. apply take_drop.
    + intros [|k] chunk Hk; simpl in Hk.
      * injection Hk as <-. by rewrite Nat.add_0_r.
      * destruct (Hchunks k chunk Hk) as [-> Hlt].
        replace (i + S k * maxLength) with (i + maxLength + k * maxLength) by lia. done.
  - exists []. rewrite app_nil_r. split; [done|]. split; [|done].
    simpl. by rewrite drop_ge by lia.
Qed.

Lemma forceBreakFrom_zero (fuel : nat) (sentence : list N) (i : nat)
    (chunks : list (list N)) :
  i < length sentence → forceBreakFrom fuel sentence 0 i chunks = None.
Proof.
  intros Hi. revert chunks. induction fuel as [|fuel IH]; intros chunks; [done|].
  cbn [forceBreakFrom]. destruct (Nat.ltb_spec i (length sentence)); [|lia].
  rewrite Nat.add_0_r. apply IH.
Qed.

Lemma fixedLengthFrom_kept (fuel : nat) (text : list N) (maxLength i : nat)
    (chunks : list (list N)) :
  fixedLengthFrom fuel text maxLength i (List.filter notBlank chunks)
  = List.filter notBlank <$> forceBreakFrom fuel text maxLength i chunks.
Proof.
  revert i chunks. induction fuel as [|fuel IH]; intros i chunks; [done|].
  cbn [forceBreakFrom fixedLengthFrom]. destruct (Nat.ltb i (length text)); [|done].
  cbv zeta. rewrite <- IH. f_equal. rewrite List.filter_app. cbn [List.filter].
  fold (notBlank (JsString.substring i (i + maxLength) text)).
  destruct (notBlank _); [done|by rewrite app_nil_r].
Qed.

Lemma forceBreakLongSentence_chunks_lemma (fuel : nat) (sentence : list N)
    (maxLength : nat) :
  0 < maxLength → length sentence < fuel →
  ∃ chunks,
    forceBreakLongSentence fuel sentence maxLength = Some chunks
    ∧ concat chunks = sentence
    ∧ ∀ k chunk, chunks !! k = Some chunk →
        chunk = take maxLength (drop (k * maxLength) sentence)
        ∧ 0 < length chunk ≤ maxLength.
Proof.
  intros Hmax Hfuel.
  destruct (forceBreakFrom_chunks fuel sentence maxLength 0 [] Hmax ltac:(lia))
    as (chunks & Hrun & Hconcat & Hchunks).
  exists chunks. split; [done|]. split; [done|].
  intros k chunk Hk. destruct (Hchunks k chunk Hk) as [-> Hlt]. simpl in *.
  split; [done|]. rewrite length_take, length_drop. lia.
Qed.

Lemma fixedLengthFrom_filter (fuel : nat) (text : list N) (maxLength i : nat)
    (chunks : list (list N)) :
  chunks = [] →
  fixedLengthFrom fuel text maxLength i []
  = List.filter notBlank <$> forceBreakFrom fuel text maxLength i chunks.
Proof. intros ->. apply (fixedLengthFrom_kept fuel text maxLength i []). Qed.

(** X14.  For a positive [maxLength], [forceBreakLongSentence] ends after at
    most as many rounds as the sentence has code units, and cuts the
    sentence into consecutive chunks: chunk [k] holds the code units from
    [k * maxLength] on, at least one and at most [maxLength] of them, and the
    chunks put together are the sentence. *)
Theorem forceBreakLongSentence_chunks (fuel : nat) (sentence : list N) (maxLength : nat) :
  0 < maxLength → length sentence < fuel →
  ∃ chunks,
    forceBreakLongSentence fuel sentence maxLength = Some chunks
    ∧ concat chunks = sentence
    ∧ ∀ k chunk, chunks !! k = Some chunk →
        chunk = take maxLength (drop (k * maxLength) sentence)
        ∧ 0 < length chunk ≤ maxLength.
Proof. apply forceBreakLongSentence_chunks_lemma. Qed.

Lemma forceBreakLongSentence_chunks_example :
  ∃ chunks,
    forceBreakLongSentence 6 [97; 98; 99; 100; 101]%N 2 = Some chunks
    ∧ concat chunks = [97; 98; 99; 100; 101]%N
    ∧ ∀ k chunk, chunks !! k = Some chunk →
        chunk = take 2 (drop (k * 2) [97; 98; 99; 100; 101]%N)
        ∧ 0 < length chunk ≤ 2.
Proof. apply (forceBreakLongSentence_chunks 6 [97; 98; 99; 100; 101]%N 2); simpl; lia. Defined.

(** X15.  With [maxLength] 0 neither line breaker returns on a text that is
    not empty: the loop index never moves, whatever the number of rounds. *)
Theorem line_breakers_hang_on_zero (fuel : nat) (text : list N) :
  text ≠ [] →
  forceBreakLongSentence fuel text 0 = None ∧ fixedLengthLineBreak fuel text 0 = None.
Proof.
  intros Htext.
  assert (forceBreakFrom fuel text 0 0 [] = None) as Hhang.
  { apply forceBreakFrom_zero. destruct text; [done|]. simpl. lia. }
  split; [done|]. unfold fixedLengthLineBreak.
  by rewrite (fixedLengthFrom_filter fuel text 0 0 [] eq_refl), Hhang.
Qed.

Lemma line_breakers_hang_on_zero_example :
  forceBreakLongSentence 1000 [97]%N 0 = None ∧ fixedLengthLineBreak 1000 [97]%N 0 = None.
Proof. by apply line_breakers_hang_on_zero. Defined.

(** X16.  For a positive [maxLength], [fixedLengthLineBreak] returns the
    chunks of [forceBreakLongSentence] that hold more than white space, and
    the text itself as the one line when there is no such chunk; so it never
    returns an empty list, and a text without white space comes back cut
    into all of its chunks. *)
Theorem fixedLengthLineBreak_lines (fuel : nat) (text : list N) (maxLength : nat) :
  0 < maxLength → length text < fuel →
  ∃ chunks lines,
    forceBreakLongSentence fuel text maxLength = Some chunks
    ∧ fixedLengthLineBreak fuel text maxLength = Some lines
    ∧ lines ≠ []
    ∧ (List.filter notBlank chunks ≠ [] → lines = List.filter notBlank chunks)
    ∧ (List.filter notBlank chunks = [] → lines = [text])
    ∧ (text ≠ [] → Forall (fun c => JsString.isWhiteSpace c = false) text →
       lines = chunks).
Proof.
  intros Hmax Hfuel.
  destruct (forceBreakLongSentence_chunks_lemma fuel text maxLength Hmax Hfuel)
    as (chunks & Hrun & Hconcat & Hchunks).
  exists chunks. unfold fixedLengthLineBreak.
  rewrite (fixedLengthFrom_filter fuel text maxLength 0 [] eq_refl).
  change (forceBreakFrom fuel text maxLength 0 []) with
    (forceBreakLongSentence fuel text maxLength).
  rewrite Hrun. cbn [fmap option_fmap option_map mbind option_bind].
  eexists. split; [done|]. split; [done|].
  assert (text ≠ [] → Forall (fun c => JsString.isWhiteSpace c = false) text →
          List.filter notBlank chunks = chunks ∧ chunks ≠ []) as Hall.
  { intros Htext Hws. split.
    - apply filter_id. apply Forall_forall. intros chunk Hin.
      apply list_elem_of_lookup in Hin as [k Hk].
      destruct (Hchunks k chunk Hk) as [Hchunk Hlen].
      unfold notBlank, JsString.nonEmpty.
      destruct (JsString.trim chunk) eqn:Htrim; [|done].
      exfalso. revert Htrim. apply trim_nonblank.
      destruct chunk as [|c chunk]; [simpl in Hlen; lia|].
      apply Exists_cons_hd. rewrite Forall_forall in Hws. apply Hws.
      assert (c ∈ take maxLength (drop (k * maxLength) text)) as Hc
        by (rewrite <- Hchunk; by left).
      by apply subseteq_take, subseteq_drop in Hc.
    - intros ->. by rewrite <- Hconcat in Htext. }
  destruct (List.filter notBlank chunks) as [|line kept] eqn:Hkept.
  - cbn [length Nat.ltb Nat.leb]. split; [done|]. split; [done|]. split; [done|].
    intros Htext Hws. destruct (Hall Htext Hws) as [<- Hne]. done.
  - cbn [length Nat.ltb Nat.leb]. split; [done|]. split; [done|]. split; [done|].
    intros Htext Hws. by destruct (Hall Htext Hws) as [-> Hne].
Qed.

Lemma fixedLengthLineBreak_lines_example :
  ∃ lines, fixedLengthLineBreak 6 [97; 98; 32; 32; 101]%N 2 = Some lines ∧ lines ≠ [].
Proof.
  destruct (fixedLengthLineBreak_lines 6 [97; 98; 32; 32; 101]%N 2)
    as (chunks & lines & _ & Hlines & Hne & _); [lia|simpl; lia|].
  by exists lines.
Defined.

(** ** Stopping *)

Lemma stopPlayback_stopped (w : World) :
  stopped (eng (stopPlayback w))
  ∧ spawned (stopPlayback w) = spawned w
  ∧ (∃ added, out (stopPlayback w) = out w ++ added
              ∧ Forall (fun ev => goesOn ev = false) added)
  ∧ playbackSpeed (eng (stopPlayback w)) = playbackSpeed (eng w)
  ∧ isLooping (eng (stopPlayback w)) = isLooping (eng w)
  ∧ textManager (eng (stopPlayback w)) = textManager (eng w)
  ∧ audioFiles (eng (stopPlayback w)) = audioFiles (eng w)
  ∧ muyuStartTime (eng (stopPlayback w)) = muyuStartTime (eng w).
Proof.
  unfold stopPlayback, notifyPlayStateChange, stopped.
  destruct (textManager (eng w)) eqn:Hmanager; simpl; rewrite ?Hmanager; simpl.
  - repeat split; try done. eexists. rewrite <- !app_assoc. split; [done|].
    by repeat constructor.
  - repeat split; try done. eexists. rewrite <- !app_assoc. split; [done|].
    by repeat constructor.
Qed.

Lemma failPlayback_stopped (err : JsError) (w : World) :
  stopped (eng (failPlayback err w))
  ∧ spawned (failPlayback err w) = spawned w
  ∧ ∃ added, out (failPlayback err w) = out w ++ added
             ∧ Forall (fun ev => goesOn ev = false) added.
Proof.
  unfold failPlayback.
  destruct (stopPlayback_stopped (handleError err w)) as (Hst & Hsp & (added & Hout & Hq) & _).
  split; [done|]. split; [done|].
  exists (ErrorRaised err :: added). split.
  - rewrite Hout. simpl. by rewrite <- app_assoc.
  - by constructor.
Qed.

Lemma notifySequenceProgress_stopped (i : nat) (event : PlayEvent) (w : World) :
  currentSequence (eng w) = None →
  ∃ added, notifySequenceProgress i event w = (raise added w, Throw TypeError)
           ∧ Forall (fun ev => goesOn ev = false) added.
Proof.
  intros Hnone. unfold notifySequenceProgress.
  destruct (characterIndex event) as [c|], (textManager (eng w)); simpl; rewrite Hnone.
  - exists [HighlightCharacter c]. split; [done|]. by repeat constructor.
  - exists []. by rewrite raise_nil.
  - exists []. by rewrite raise_nil.
  - exists []. by rewrite raise_nil.
Qed.

Ltac settled :=
  split; [first [assumption | done]|];
  split; [first [assumption | done]|];
  split; [done|];
  split; [first [assumption | by constructor]|first [assumption | done]].

(** A timer or an audio event that finds the engine stopped. *)
Lemma wake_stopped (env : Env) (pc : Pc) (e : Engine) :
  stopped e → pc ≠ RestartTimer →
  stopped (eng (wake env pc (enter e)).1)
  ∧ spawned (wake env pc (enter e)).1 = []
  ∧ (wake env pc (enter e)).2 ≠ RestartTimer
  ∧ Forall (fun ev => goesOn ev = false) (out (wake env pc (enter e)).1)
  ∧ textManager (eng (wake env pc (enter e)).1) = textManager e.
Proof.
  intros (Hplaying & Hpaused & Hseq & Hindex) Hpc.
  assert (Hfail : ∀ err w, eng w = e → spawned w = [] →
            Forall (fun ev => goesOn ev = false) (out w) →
            stopped (eng (failPlayback err w)) ∧ spawned (failPlayback err w) = []
            ∧ Forall (fun ev => goesOn ev = false) (out (failPlayback err w))
            ∧ textManager (eng (failPlayback err w)) = textManager e).
  { intros err w He Hsp Hout.
    destruct (failPlayback_stopped err w) as (Hst & Hsp' & added & Hout' & Hq).
    split; [done|]. split; [congruence|]. split.
    - rewrite Hout'. by apply Forall_app.
    - unfold failPlayback.
      destruct (stopPlayback_stopped (handleError err w)) as (_ & _ & _ & _ & _ & -> & _).
      simpl. by rewrite He. }
  assert (Hstop : stopped e) by done.
  destruct pc as [key|key|muyuEvents i startTime delay|currentEvent startTime delay
                 |currentEvent|currentEvent| |]; cbn [wake].
  - destruct (settle env) as [err|]; [|settled].
    unfold playAudioCatch. simpl. rewrite Hplaying, andb_true_r.
    destruct (isAbort err); simpl.
    + unfold muyuPhase. simpl. rewrite Hseq.
      destruct (Hfail TypeError (emit (StartCueSettled Interrupted) (enter e))
                  eq_refl eq_refl ltac:(by repeat constructor)) as (H1 & H2 & H3 & H4).
      settled.
    + destruct (Hfail err (handleError err (enter e))
                  eq_refl eq_refl ltac:(by repeat constructor)) as (H1 & H2 & H3 & H4).
      settled.
  - simpl. unfold muyuPhase. simpl. rewrite Hseq.
    destruct (Hfail TypeError (emit (StartCueSettled Ended) (enter e))
                eq_refl eq_refl ltac:(by repeat constructor)) as (H1 & H2 & H3 & H4).
    settled.
  - simpl. unfold checkAndWait. rewrite Hplaying. simpl.
    destruct (drop i muyuEvents) as [|event rest]; [settled|].
    unfold muyuAfterWait. simpl. rewrite Hplaying. simpl. settled.
  - simpl. unfold checkAndWait. rewrite Hplaying. simpl.
    unfold seqAfterWait. simpl. rewrite Hplaying. simpl. settled.
  - destruct (settle env) as [err|]; [|settled].
    unfold playAudioCatch. cbn [eng enter]. rewrite Hplaying, andb_true_r.
    destruct (isAbort err); [cbv beta iota|simpl].
    + unfold seqAdvance. cbn [eng enter].
      destruct (notifySequenceProgress_stopped (sequenceIndex e) currentEvent (enter e) Hseq)
        as (added & -> & Hq).
      destruct (Hfail TypeError (raise added (enter e)) eq_refl eq_refl Hq)
        as (H1 & H2 & H3 & H4).
      simpl. settled.
    + destruct (Hfail err (handleError err (enter e))
                  eq_refl eq_refl ltac:(by repeat constructor)) as (H1 & H2 & H3 & H4).
      settled.
  - unfold seqAdvance. cbn [eng enter].
    destruct (notifySequenceProgress_stopped (sequenceIndex e) currentEvent (enter e) Hseq)
      as (added & -> & Hq).
    destruct (Hfail TypeError (raise added (enter e)) eq_refl eq_refl Hq)
      as (H1 & H2 & H3 & H4).
    simpl. settled.
  - done.
  - settled.
Qed.

Lemma run_stopped (schedule : list (nat * Env)) (c : Config) :
  stopped (engine c) →
  (∀ tid, tasks c !! tid ≠ Some RestartTimer) →
  stopped (engine (run (wakesOf schedule) c))
  ∧ (∀ tid, tasks (run (wakesOf schedule) c) !! tid ≠ Some RestartTimer)
  ∧ length (tasks (run (wakesOf schedule) c)) = length (tasks c)
  ∧ textManager (engine (run (wakesOf schedule) c)) = textManager (engine c)
  ∧ ∃ extra, trace (run (wakesOf schedule) c) = trace c ++ extra
             ∧ ∀ tid ev, (tid, ev) ∈ extra → goesOn ev = false.
Proof.
  revert c. induction schedule as [|[tid env] schedule IH]; intros c Hstopped Htimers.
  - simpl. split; [done|]. split; [done|]. split; [done|]. split; [done|].
    exists []. rewrite app_nil_r. split; [done|].
    intros tid ev Hin. by apply elem_of_nil in Hin.
  - change (run (wakesOf ((tid, env) :: schedule)) c)
      with (run (wakesOf schedule) (step c (Wake tid, env))).
    destruct (tasks c !! tid) as [pc|] eqn:Hpc.
    + rewrite (step_wake_events c tid env pc Hpc).
      destruct (wake_stopped env pc (engine c) Hstopped) as (Hst & Hsp & Hpc' & Hq & Htm).
      { intros ->. by apply (Htimers tid). }
      set (c1 := {| engine := _; tasks := _; trace := _ |}).
      destruct (IH c1) as (Hst2 & Htimers2 & Hlen2 & Htm2 & extra & Htrace & Hextra).
      { done. }
      { intros tid'. unfold c1. cbn [tasks]. rewrite Hsp, app_nil_r.
        destruct (decide (tid = tid')) as [<-|Hne].
        - rewrite list_lookup_insert_eq by (by eapply lookup_lt_Some). congruence.
        - rewrite list_lookup_insert_ne by done. apply Htimers. }
      split; [done|]. split; [done|].
      split; [rewrite Hlen2; unfold c1; cbn [tasks];
              by rewrite Hsp, app_nil_r, length_insert|].
      split; [by rewrite Htm2|].
      exists (tag tid (out (wake env pc (enter (engine c))).1) ++ extra).
      split; [rewrite Htrace; unfold c1; cbn [trace]; by rewrite app_assoc|].
      intros tid' ev Hin. apply elem_of_app in Hin as [Hin|Hin]; [|by eapply Hextra].
      apply elem_of_tag_inv in Hin. rewrite Forall_forall in Hq. by apply Hq.
    + assert (step c (Wake tid, env) = c) as -> by (simpl; by rewrite Hpc).
      by apply IH.
Qed.

(** X17.  [stopPlayback], [resetPlayback] and [dispose] leave the engine
    stopped, with its speed, its repeat mode and its text manager as they
    were.  Unless a restart timer is pending, it then stays stopped under
    every schedule of timers and audio events of the suspended calls: they
    start no sound, dispatch no cue, report no progress and no completion,
    and create no timer. *)
Theorem stop_cancels (c : Config) (api : Api) (env : Env) (schedule : list (nat * Env)) :
  api = StopPlayback ∨ api = ResetPlayback ∨ api = Dispose →
  RestartTimer ∉ tasks c →
  let c1 := step c (Call api, env) in
  let c2 := run (wakesOf schedule) c1 in
  stopped (engine c1)
  ∧ playbackSpeed (engine c1) = playbackSpeed (engine c)
  ∧ isLooping (engine c1) = isLooping (engine c)
  ∧ textManager (engine c1) = textManager (engine c)
  ∧ stopped (engine c2)
  ∧ length (tasks c2) = length (tasks c1)
  ∧ ∃ extra, trace c2 = trace c1 ++ extra
             ∧ ∀ tid ev, (tid, ev) ∈ extra → goesOn ev = false.
Proof.
  intros Hapi Htimers. cbv zeta.
  destruct (stopPlayback_stopped (enter (engine c)))
    as (Hst & Hsp & _ & Hspeed & Hloop & Hmanager & _).
  assert (Hfirst :
    stopped (engine (step c (Call api, env)))
    ∧ playbackSpeed (engine (step c (Call api, env))) = playbackSpeed (engine c)
    ∧ isLooping (engine (step c (Call api, env))) = isLooping (engine c)
    ∧ textManager (engine (step c (Call api, env))) = textManager (engine c)
    ∧ tasks (step c (Call api, env)) = tasks c ++ [Finished]).
  { rewrite step_call_events. cbn [engine tasks].
    destruct Hst as (H1 & H2 & H3 & H4).
    change (eng (enter (engine c))) with (engine c) in *.
    destruct Hapi as [->|[->| ->]]; cbn [call fst snd].
    - rewrite Hsp. by repeat split.
    - unfold resetPlayback.
      destruct (textManager (eng (stopPlayback (enter (engine c))))) eqn:Hm;
        cbn [emit eng spawned]; rewrite Hsp; repeat split; try done; congruence.
    - unfold dispose. cbn [update eng spawned]. rewrite Hsp. by repeat split. }
  destruct Hfirst as (Hst1 & Hspeed1 & Hloop1 & Hmanager1 & Htasks1).
  destruct (run_stopped schedule (step c (Call api, env)) Hst1)
    as (Hst2 & _ & Hlen2 & _ & Hextra).
  { intros tid. rewrite Htasks1. intros Hin. apply Htimers.
    apply lookup_app_Some in Hin as [Hin|[_ Hin]].
    - by eapply list_elem_of_lookup_2.
    - by destruct (tid - length (tasks c)) as [|[|?]]. }
  split; [done|]. split; [done|]. split; [done|]. split; [done|]. split; [done|].
  split; [done|]. exact Hextra.
Qed.

Lemma stop_cancels_example :
  stopped (engine (run (wakesOf [(0, quietEnv 4000); (0, quietEnv 5000)])
                     (step (run waitingForCue1 (initial bothFiles))
                        (Call StopPlayback, quietEnv 3500)))).
Proof.
  refine (proj1 (proj2 (proj2 (proj2 (proj2
            (stop_cancels (run waitingForCue1 (initial bothFiles)) StopPlayback
               (quietEnv 3500) [(0, quietEnv 4000); (0, quietEnv 5000)]
               (or_introl eq_refl) _)))))).
  vm_compute. intros Hin. repeat (apply elem_of_cons in Hin as [Hin|Hin]; [done|]).
  by apply elem_of_nil in Hin.
Defined.

Lemma createPlaybackSequenceOf_bowl (e : Engine) (textLength : nat) :
  List.find isStartBowl (createPlaybackSequenceOf e textLength) = Some startBowl.
Proof. done. Qed.

(** The engine as [startPlaybackSequence] sets it up. *)
Lemma wake_restart (env : Env) (w : World) (first : CharData) (rest : list CharData)
    (fate : option JsError) :
  isPlaying (eng w) = false →
  textManager (eng w) = Some (first :: rest) →
  "bowl"%string ∈ audioFiles (eng w) →
  playStart env = PlayStarted fate →
  ∃ w', wake env RestartTimer w = (w', BowlAwaitPlay "bowl")
    ∧ out w' = out w ++ [PlayStateChange true false; AudioPlay "bowl" false]
    ∧ spawned w' = spawned w
    ∧ isPlaying (eng w') = true
    ∧ isPaused (eng w') = false
    ∧ currentSequence (eng w')
      = Some (createPlaybackSequenceOf (eng w) (length (first :: rest)))
    ∧ textManager (eng w') = textManager (eng w).
Proof.
  intros Hplaying Hmanager Hloaded Hplay. cbn [wake]. rewrite Hmanager.
  unfold startPlayback, startPlaybackSequence. simpl. rewrite Hplaying.
  unfold executeSequenceInPhases. simpl.
  unfold playAudioStart. simpl.
  destruct (decide ("bowl"%string ∈ audioFiles (eng w))); [|done].
  rewrite Hplay. eexists. split; [done|]. simpl. rewrite <- app_assoc.
  repeat split; try done.
  unfold createPlaybackSequenceOf. simpl. by rewrite Hmanager.
Qed.

(** X18.  [stopPlayback] does not cancel the timer of the restart: when the
    timer that a completed loop in repeat mode has set runs behind a stop,
    with a text manager that holds a text and the start cue loaded, it
    starts a playback, and the engine plays again. *)
Theorem restart_outlives_stop (c : Config) (tid : nat) (env0 env : Env) (first : CharData)
    (rest : list CharData) (fate : option JsError) :
  tasks c !! tid = Some RestartTimer →
  textManager (engine c) = Some (first :: rest) →
  "bowl"%string ∈ audioFiles (engine c) →
  playStart env = PlayStarted fate →
  let c1 := step c (Call StopPlayback, env0) in
  let c2 := step c1 (Wake tid, env) in
  stopped (engine c1)
  ∧ tasks c1 !! tid = Some RestartTimer
  ∧ isPlaying (engine c2) = true
  ∧ currentSequence (engine c2)
    = Some (createPlaybackSequenceOf (engine c1) (length (first :: rest)))
  ∧ tasks c2 !! tid = Some (BowlAwaitPlay "bowl")
  ∧ trace c2 = trace c1 ++ [(tid, PlayStateChange true false); (tid, AudioPlay "bowl" false)].
Proof.
  intros Hpc Hmanager Hloaded Hplay. cbv zeta.
  destruct (stopPlayback_stopped (enter (engine c)))
    as ((H1 & H2 & H3 & H4) & Hsp & _ & _ & _ & Hmanager' & Hfiles & _).
  change (eng (enter (engine c))) with (engine c) in *.
  rewrite (step_call_events c StopPlayback env0). cbn [call fst snd].
  set (c1 := {| engine := _; tasks := _; trace := _ |}).
  assert (Hpc1 : tasks c1 !! tid = Some RestartTimer).
  { unfold c1. cbn [tasks]. by apply lookup_app_l_Some. }
  rewrite (step_wake_events c1 tid env RestartTimer Hpc1).
  destruct (wake_restart env (enter (engine c1)) first rest fate)
    as (w' & -> & Hout & Hspawned & Hplaying' & _ & Hseq & _).
  { done. }
  { unfold c1. cbn [engine eng enter]. by rewrite Hmanager'. }
  { unfold c1. cbn [engine eng enter]. by rewrite Hfiles. }
  { done. }
  cbn [fst snd engine tasks trace].
  split; [done|]. split; [done|]. split; [done|]. split; [done|]. split.
  - rewrite Hspawned. simpl. rewrite app_nil_r.
    apply list_lookup_insert_eq. by eapply lookup_lt_Some.
  - by rewrite Hout.
Qed.

Lemma restart_outlives_stop_example :
  isPlaying (engine (step (step loopCompleted (Call StopPlayback, quietEnv 5500))
                       (Wake 2, quietEnv 6000))) = true.
Proof.
  destruct (restart_outlives_stop loopCompleted 2 (quietEnv 5500) (quietEnv 6000)
              (sampleChar 0 0) [sampleChar 1 0; sampleChar 2 1] None)
    as (_ & _ & Hplaying & _).
  - vm_compute. reflexivity.
  - vm_compute. reflexivity.
  - apply (bool_decide_unpack _). vm_compute. reflexivity.
  - reflexivity.
  - exact Hplaying.
Defined.

(** ** Starting *)

(** X19.  While the engine plays, [startPlaybackSequence] and
    [startPlayback] start nothing: they warn on the console and leave the
    flags, the sequence and its index, the anchor and the speed as they are,
    raise no error and set no timer.  [startPlayback] with a text has by then
    replaced the text manager of the engine, so the highlights of the
    running sequence go to the new manager. *)
Theorem start_while_playing (c : Config) (env : Env) (api : Api) :
  isPlaying (engine c) = true →
  (∃ sequence, api = StartPlaybackSequence sequence)
  ∨ (∃ first rest, api = StartPlayback (Some (first :: rest))) →
  let c' := step c (Call api, env) in
  tasks c' = tasks c ++ [Finished]
  ∧ trace c' = trace c ++ [(length (tasks c), ConsoleWarn AlreadyPlaying)]
  ∧ isPlaying (engine c') = true
  ∧ isPaused (engine c') = isPaused (engine c)
  ∧ currentSequence (engine c') = currentSequence (engine c)
  ∧ sequenceIndex (engine c') = sequenceIndex (engine c)
  ∧ muyuStartTime (engine c') = muyuStartTime (engine c)
  ∧ playbackSpeed (engine c') = playbackSpeed (engine c)
  ∧ textManager (engine c')
    = match api with
      | StartPlayback manager => manager
      | _ => textManager (engine c)
      end.
Proof.
  intros Hplaying Hapi. cbv zeta. rewrite step_call_events.
  destruct Hapi as [[sequence ->]|(first & rest & ->)]; cbn [call].
  - unfold startPlaybackSequence. cbn [eng enter]. rewrite Hplaying. by repeat split.
  - unfold startPlayback, startPlaybackSequence. cbn [eng enter update setTextManager isPlaying].
    rewrite Hplaying. by repeat split.
Qed.

Lemma start_while_playing_example :
  currentSequence (engine (step (run waitingForCue1 (initial bothFiles))
                             (Call (StartPlayback (Some [sampleChar 0 0])), quietEnv 3500)))
  = currentSequence (engine (run waitingForCue1 (initial bothFiles))).
Proof.
  destruct (start_while_playing (run waitingForCue1 (initial bothFiles)) (quietEnv 3500)
              (StartPlayback (Some [sampleChar 0 0])) eq_refl
              (or_intror (ex_intro _ _ (ex_intro _ _ eq_refl))))
    as (_ & _ & _ & _ & Hseq & _).
  exact Hseq.
Defined.

Lemma startPlaybackSequence_missing (env : Env) (sequence : list PlayEvent) (w : World)
    (bowlEvent : PlayEvent) :
  isPlaying (eng w) = false →
  List.find isStartBowl sequence = Some bowlEvent →
  type bowlEvent ∉ audioFiles (eng w) →
  startPlaybackSequence env sequence w
  = (failPlayback (AudioNotFound (type bowlEvent))
       (handleError (AudioNotFound (type bowlEvent))
          (notifyPlayStateChange true
             (update (fun e =>
                setSequenceStartTime (callNow env)
                  (setPaused false (setPlaying true (setSequenceIndex 0
                     (setSequence (Some sequence) e))))) w))),
     Finished).
Proof.
  intros Hplaying Hfind Hmissing. unfold startPlaybackSequence. rewrite Hplaying.
  unfold executeSequenceInPhases.
  cbn [eng update notifyPlayStateChange emit currentSequence setSequenceStartTime
       setPaused setPlaying setSequenceIndex setSequence].
  rewrite Hfind. unfold playAudioStart.
  cbn [eng update notifyPlayStateChange emit isPlaying audioFiles setSequenceStartTime
       setPaused setPlaying setSequenceIndex setSequence negb].
  by destruct (decide (type bowlEvent ∈ audioFiles (eng w))).
Qed.

(** X20.  With the file of the start cue missing (it failed to load, or
    [dispose] has dropped the files), [startPlayback] on an idle engine
    plays nothing: [onError] is called twice with the error of the missing
    file, once by [playAudio] and once by [startPlaybackSequence], the
    playback is stopped again, and the call returns without an exception,
    leaving no timer and no pending wait. *)
Theorem start_without_start_cue (c : Config) (env : Env) (first : CharData)
    (rest : list CharData) :
  isPlaying (engine c) = false →
  "bowl"%string ∉ audioFiles (engine c) →
  let c' := step c (Call (StartPlayback (Some (first :: rest))), env) in
  tasks c' = tasks c ++ [Finished]
  ∧ stopped (engine c')
  ∧ textManager (engine c') = Some (first :: rest)
  ∧ trace c'
    = trace c
      ++ tag (length (tasks c))
           [PlayStateChange true false;
            ErrorRaised (AudioNotFound "bowl"); ErrorRaised (AudioNotFound "bowl");
            AudioHalted; ResetPosition; PlayStateChange false false].
Proof.
  intros Hplaying Hmissing. cbv zeta. rewrite step_call_events. cbn [call].
  unfold startPlayback.
  set (w1 := update (setTextManager (first :: rest)) (enter (engine c))).
  set (sequence := createPlaybackSequenceOf (eng w1) (length (first :: rest))).
  rewrite (startPlaybackSequence_missing env sequence w1 startBowl);
    [|done|apply createPlaybackSequenceOf_bowl|done].
  cbn [fst snd]. unfold failPlayback, stopPlayback, handleError, notifyPlayStateChange.
  cbn [eng out spawned emit update w1 enter textManager setTextManager setSequenceStartTime
       setPaused setPlaying setSequenceIndex setSequence isPaused app tag map type startBowl
       engine tasks trace currentSequence sequenceIndex isPlaying].
  split; [done|]. split; [done|]. split; [done|]. done.
Qed.

Lemma start_without_start_cue_example :
  stopped (engine (step (step (initial bothFiles) (Call Dispose, quietEnv 500))
                     (Call (StartPlayback (Some sampleText)), quietEnv 1000))).
Proof.
  refine (proj1 (proj2 (start_without_start_cue
                          (step (initial bothFiles) (Call Dispose, quietEnv 500))
                          (quietEnv 1000) (sampleChar 0 0)
                          [sampleChar 1 0; sampleChar 2 1] _ _))).
  - vm_compute. reflexivity.
  - vm_compute. intros Hin. discriminate Hin.
Defined.


(** ** Pausing *)

Lemma wake_paused (env : Env) (pc : Pc) (w : World) :
  isPoll pc = true → isPlaying (eng w) = true → isPaused (eng w) = true →
  wake env pc w = (w, pc).
Proof.
  intros Hpoll Hplaying Hpaused.
  destruct pc; try done; cbn [wake]; unfold checkAndWait; by rewrite Hplaying, Hpaused.
Qed.

(** X21.  [pausePlayback] on a playing engine sets the paused flag and
    tells the host.  While the engine is paused, every timer of the wait of
    an executor only sets its next timer: the activation stays in its wait
    for the same cue, no event is raised, and the engine, the anchor
    included, is left as the pause left it. *)
Theorem pause_holds_the_wait (c : Config) (tid : nat) (pc : Pc) (env0 : Env)
    (envs : list Env) :
  tasks c !! tid = Some pc →
  isPoll pc = true →
  isPlaying (engine c) = true →
  isPaused (engine c) = false →
  let c1 := step c (Call PausePlayback, env0) in
  let c2 := run (wakes tid envs) c1 in
  isPlaying (engine c1) = true ∧ isPaused (engine c1) = true
  ∧ muyuStartTime (engine c1) = muyuStartTime (engine c)
  ∧ currentSequence (engine c1) = currentSequence (engine c)
  ∧ trace c1 = trace c ++ [(length (tasks c), PlayStateChange false true)]
  ∧ tasks c1 = tasks c ++ [Finished]
  ∧ c2 = c1.
Proof.
  intros Hpc Hpoll Hplaying Hpaused. cbv zeta.
  rewrite step_call_events. cbn [call fst snd]. unfold pausePlayback.
  cbn [eng enter]. rewrite Hplaying, Hpaused.
  cbn [andb negb notifyPlayStateChange update emit eng out spawned setPaused isPaused
       isPlaying muyuStartTime currentSequence app tag map enter].
  split; [done|]. split; [done|]. split; [done|]. split; [done|]. split; [done|].
  split; [done|].
  set (c1 := {| engine := _; tasks := _; trace := _ |}).
  assert (Hpc1 : tasks c1 !! tid = Some pc) by (by apply lookup_app_l_Some).
  assert (Hstep : ∀ env, step c1 (Wake tid, env) = c1).
  { intros env. rewrite (step_wake_events c1 tid env pc Hpc1).
    rewrite (wake_paused env pc (enter (engine c1)) Hpoll); [|done|done].
    cbn [fst snd eng out spawned enter tag map]. rewrite !app_nil_r.
    rewrite list_insert_id by done. by destruct c1. }
  induction envs as [|env envs IH]; [done|].
  change (run (wakes tid (env :: envs)) c1) with (run (wakes tid envs) (step c1 (Wake tid, env))).
  by rewrite Hstep.
Qed.

Lemma pause_holds_the_wait_example :
  run (wakes 0 [quietEnv 3400; quietEnv 4000; quietEnv 9000])
    (step (run waitingForCue1 (initial bothFiles)) (Call PausePlayback, quietEnv 3300))
  = step (run waitingForCue1 (initial bothFiles)) (Call PausePlayback, quietEnv 3300).
Proof.
  assert (Hpc : tasks (run waitingForCue1 (initial bothFiles)) !! 0
                = Some (MuyuPoll (List.filter isMuyu sampleSequence) 1 3000 1000))
    by (vm_compute; reflexivity).
  refine (proj2 (proj2 (proj2 (proj2 (proj2 (proj2
            (pause_holds_the_wait (run waitingForCue1 (initial bothFiles)) 0 _
               (quietEnv 3300) [quietEnv 3400; quietEnv 4000; quietEnv 9000]
               Hpc eq_refl _ _))))))).
  - vm_compute. reflexivity.
  - vm_compute. reflexivity.
Defined.

(** ** The sequence index under the phased executor *)

Ltac timers lemma := refine (proj2 (_ : quietly _ _)); apply lemma.

Lemma keepsIndex_refl (w : World) : keepsIndex w w.
Proof. split; [by right|done]. Qed.

Lemma keepsIndex_trans (w1 w2 w3 : World) :
  keepsIndex w1 w2 → keepsIndex w2 w3 → keepsIndex w1 w3.
Proof.
  intros [[H1|H1] T1] [[H2|H2] T2]; (split; [|by auto]).
  - by left.
  - left. congruence.
  - by left.
  - right. congruence.
Qed.

Lemma keepsIndex_emit (ev : Event) (w : World) : keepsIndex w (emit ev w).
Proof. split; [by right|done]. Qed.

Lemma keepsIndex_stopPlayback (w : World) : keepsIndex w (stopPlayback w).
Proof.
  split; [|timers quietly_stopPlayback].
  left. unfold stopPlayback. by destruct (textManager _).
Qed.

Lemma keepsIndex_failPlayback (err : JsError) (w : World) : keepsIndex w (failPlayback err w).
Proof.
  unfold failPlayback. eapply keepsIndex_trans; [apply keepsIndex_emit|].
  apply keepsIndex_stopPlayback.
Qed.

Lemma keepsIndex_completePlayback (w : World) : keepsIndex w (completePlayback w).
Proof.
  split; [|timers quietly_completePlayback].
  right. unfold completePlayback. by destruct (isLooping (eng w)), (textManager (eng w)).
Qed.

Lemma keepsIndex_notifySequenceProgress (i : nat) (event : PlayEvent) (w : World) :
  keepsIndex w (notifySequenceProgress i event w).1.
Proof.
  split; [|timers quietly_notifySequenceProgress].
  right. unfold notifySequenceProgress.
  by destruct (characterIndex event), (textManager (eng w)); simpl;
    destruct (currentSequence _).
Qed.

Lemma keepsIndex_playAudioNoWait (o : PlayOutcome) (key : string) (w : World) :
  keepsIndex w (playAudioNoWait o key w).1.
Proof.
  split; [|timers quietly_playAudioNoWait].
  right. unfold playAudioNoWait, playAudioCatch.
  destruct (negb _); [done|]. destruct (decide _); [|done].
  destruct o as [err|[err|]]; try done. by destruct (_ && _).
Qed.

Lemma keepsIndex_muyuAfterWait (env : Env) (i : nat) (event : PlayEvent) (w : World) :
  keepsIndex w (muyuAfterWait env i event w).1.
Proof.
  unfold muyuAfterWait. destruct (_ || _); [apply keepsIndex_refl|].
  pose proof (keepsIndex_playAudioNoWait (plays env i) (type event) (emit (Dispatch i) w))
    as Hplay.
  destruct (playAudioNoWait _ _ _) as [w1 [|err]]; simpl in Hplay.
  - pose proof (keepsIndex_notifySequenceProgress i event w1) as Hnotify.
    destruct (notifySequenceProgress i event w1) as [w2 [|err]]; simpl in Hnotify.
    + simpl. eapply keepsIndex_trans; [apply (keepsIndex_emit (Dispatch i))|].
      by eapply keepsIndex_trans.
    + unfold muyuCatch. destruct (_ && _); simpl;
        (eapply keepsIndex_trans; [apply (keepsIndex_emit (Dispatch i))|]);
        by eapply keepsIndex_trans.
  - unfold muyuCatch. destruct (_ && _); simpl;
      (eapply keepsIndex_trans; [apply (keepsIndex_emit (Dispatch i))|]); done.
Qed.

Lemma keepsIndex_executeMuyuFrom (env : Env) (muyuEvents rest : list PlayEvent) (i : nat)
    (w : World) :
  keepsIndex w (executeMuyuFrom env muyuEvents rest i w).1
  ∧ phasedPc (executeMuyuFrom env muyuEvents rest i w).2 = true.
Proof.
  revert i w. induction rest as [|event rest IH]; intros i w.
  - simpl. split; [apply keepsIndex_completePlayback|done].
  - cbn [executeMuyuFrom]. destruct (_ || _); [split; [apply keepsIndex_refl|done]|].
    cbv zeta. destruct (_ && _); [split; [apply keepsIndex_refl|done]|].
    pose proof (keepsIndex_muyuAfterWait env i event w) as Hiter.
    destruct (muyuAfterWait env i event w) as [w1 [|]]; simpl in Hiter.
    + destruct (IH (S i) w1) as [Hrest Hpc]. split; [by eapply keepsIndex_trans|done].
    + done.
Qed.

Lemma keepsIndex_muyuPhase (env : Env) (w : World) :
  keepsIndex w (muyuPhase env w).1 ∧ phasedPc (muyuPhase env w).2 = true.
Proof.
  unfold muyuPhase. destruct (currentSequence (eng w)) as [sequence|];
    [|split; [apply keepsIndex_failPlayback|done]].
  destruct (List.filter isMuyu sequence) as [|ev0 events];
    [split; [apply keepsIndex_refl|done]|].
  unfold executeMuyuSequence.
  destruct (keepsIndex_executeMuyuFrom env (ev0 :: events) (ev0 :: events) 0
              (emit (AnchorRecorded (anchorNow env))
                 (update (setMuyuStartTime (anchorNow env)) w))) as [Hrun Hpc].
  split; [|done]. eapply keepsIndex_trans; [|exact Hrun].
  split; [by right|done].
Qed.

Lemma keepsIndex_playAudioStart (o : PlayOutcome) (key : string) (w : World) :
  keepsIndex w (playAudioStart o key w).1.
Proof.
  unfold playAudioStart, playAudioCatch.
  destruct (negb _); [apply keepsIndex_refl|]. destruct (decide _);
    [|apply keepsIndex_emit].
  destruct o as [err|fate]; [|apply keepsIndex_emit].
  destruct (_ && _); [apply keepsIndex_refl|apply keepsIndex_emit].
Qed.

Lemma keepsIndex_executeSequenceInPhases (env : Env) (w : World) :
  keepsIndex w (executeSequenceInPhases env w).1
  ∧ phasedPc (executeSequenceInPhases env w).2 = true.
Proof.
  unfold executeSequenceInPhases. destruct (currentSequence (eng w)) as [sequence|];
    [|split; [apply keepsIndex_failPlayback|done]].
  destruct (List.find isStartBowl sequence) as [bowlEvent|].
  - pose proof (keepsIndex_playAudioStart (playStart env) (type bowlEvent) w) as Hplay.
    destruct (playAudioStart _ _ _) as [w1 [[|err]|]]; simpl in Hplay.
    + destruct (keepsIndex_muyuPhase env (emit (StartCueSettled Skipped) w1)) as [H1 H2].
      split; [|done]. eapply keepsIndex_trans; [exact Hplay|].
      eapply keepsIndex_trans; [apply keepsIndex_emit|exact H1].
    + split; [|done]. eapply keepsIndex_trans; [exact Hplay|apply keepsIndex_failPlayback].
    + done.
  - destruct (keepsIndex_muyuPhase env (emit (StartCueSettled NoStartCue) w)) as [H1 H2].
    split; [|done]. eapply keepsIndex_trans; [apply keepsIndex_emit|exact H1].
Qed.

Lemma keepsIndex_startPlaybackSequence (env : Env) (sequence : list PlayEvent) (w : World) :
  keepsIndex w (startPlaybackSequence env sequence w).1
  ∧ phasedPc (startPlaybackSequence env sequence w).2 = true.
Proof.
  unfold startPlaybackSequence. destruct (isPlaying (eng w));
    [split; [apply keepsIndex_emit|done]|].
  match goal with
  | |- keepsIndex _ (executeSequenceInPhases env ?w1).1 ∧ _ =>
      destruct (keepsIndex_executeSequenceInPhases env w1) as [H1 H2]
  end.
  split; [|done]. eapply keepsIndex_trans; [|exact H1]. split; [by left|done].
Qed.

Lemma keepsIndex_startPlayback (env : Env) (manager : option (list CharData)) (w : World) :
  keepsIndex w (startPlayback env manager w).1.1
  ∧ phasedPc (startPlayback env manager w).1.2 = true.
Proof.
  unfold startPlayback. destruct manager as [[|first rest]|];
    try (split; [apply keepsIndex_emit|done]).
  match goal with
  | |- keepsIndex _ (startPlaybackSequence env ?sequence ?w1, _).1.1 ∧ _ =>
      destruct (keepsIndex_startPlaybackSequence env sequence w1) as [H1 H2]
  end.
  split; [|done]. eapply keepsIndex_trans; [|exact H1]. split; [by right|done].
Qed.

Lemma keepsIndex_call (env : Env) (api : Api) (w : World) :
  phasedCall api = true →
  keepsIndex w (call env api w).1 ∧ phasedPc (call env api w).2 = true.
Proof.
  intros Hapi. destruct api; try done; cbn [call].
  - destruct (keepsIndex_startPlayback env manager w) as [H1 H2].
    destruct (startPlayback env manager w) as [[w1 pc] [|err]]; simpl in *.
    + done.
    + split; [|done]. eapply keepsIndex_trans; [exact H1|apply keepsIndex_emit].
  - apply keepsIndex_startPlaybackSequence.
  - split; [|done]. unfold pausePlayback. destruct (_ && _); [|apply keepsIndex_refl].
    split; [by right|done].
  - split; [apply keepsIndex_stopPlayback|done].
  - split; [|done]. unfold resetPlayback.
    destruct (textManager _);
      [|apply keepsIndex_stopPlayback].
    eapply keepsIndex_trans; [apply keepsIndex_stopPlayback|].
    eapply keepsIndex_trans; apply keepsIndex_emit.
  - split; [|done]. split; [by right|done].
  - split; [|done]. split; [|timers quietly_setPlaybackSpeed].
    right. unfold setPlaybackSpeed, adjustPlaybackSpeed, update. cbn [eng].
    by repeat case_match.
  - split; [|done]. unfold dispose.
    eapply keepsIndex_trans; [apply keepsIndex_stopPlayback|]. split; [by right|done].
Qed.

Lemma keepsIndex_wake (env : Env) (pc : Pc) (w : World) :
  phasedPc pc = true →
  keepsIndex w (wake env pc w).1 ∧ phasedPc (wake env pc w).2 = true.
Proof.
  intros Hpc. destruct pc; try done; cbn [wake].
  - destruct (settle env) as [err|]; [|split; [apply keepsIndex_refl|done]].
    unfold playAudioCatch. destruct (_ && _).
    + destruct (keepsIndex_muyuPhase env (emit (StartCueSettled Interrupted) w)) as [H1 H2].
      split; [|done]. eapply keepsIndex_trans; [apply keepsIndex_emit|exact H1].
    + split; [|done]. eapply keepsIndex_trans; [apply keepsIndex_emit|].
      apply keepsIndex_failPlayback.
  - destruct (keepsIndex_muyuPhase env (emit (StartCueSettled Ended) w)) as [H1 H2].
    split; [|done]. eapply keepsIndex_trans; [apply keepsIndex_emit|exact H1].
  - destruct (checkAndWait _ _ _ _); [|split; [apply keepsIndex_refl|done]].
    destruct (drop i muyuEvents) as [|event rest]; [split; [apply keepsIndex_refl|done]|].
    pose proof (keepsIndex_muyuAfterWait env i event w) as Hiter.
    destruct (muyuAfterWait env i event w) as [w1 [|]]; simpl in Hiter; [|done].
    destruct (keepsIndex_executeMuyuFrom env muyuEvents rest (S i) w1) as [H1 H2].
    split; [by eapply keepsIndex_trans|done].
  - destruct (keepsIndex_startPlayback env (textManager (eng w)) w) as [H1 H2].
    destruct (startPlayback env (textManager (eng w)) w) as [[w1 pc] [|err]]; simpl in *.
    + done.
    + split; [|done]. eapply keepsIndex_trans; [exact H1|apply keepsIndex_failPlayback].
  - split; [apply keepsIndex_refl|done].
Qed.

(** X22.  While only the phased executor runs (every call but
    [resumePlayback] and [togglePlayback], every timer and audio event),
    [sequenceIndex] stays 0 and no activation waits inside the older
    executor: the index that [resumePlayback] resumes from is never
    advanced. *)
Theorem sequenceIndex_stays_zero (c : Config) (inputs : list (Action * Env)) :
  sequenceIndex (engine c) = 0 →
  Forall (fun pc => phasedPc pc = true) (tasks c) →
  Forall (fun input => phasedAction input.1 = true) inputs →
  sequenceIndex (engine (run inputs c)) = 0
  ∧ Forall (fun pc => phasedPc pc = true) (tasks (run inputs c)).
Proof.
  revert c. induction inputs as [|[action env] inputs IH]; intros c Hindex Htasks Hinputs;
    [done|].
  apply Forall_cons in Hinputs as [Haction Hinputs].
  change (run ((action, env) :: inputs) c) with (run inputs (step c (action, env))).
  assert (∀ w pc, keepsIndex (enter (engine c)) w → phasedPc pc = true →
            sequenceIndex (eng w) = 0
            ∧ Forall (fun pc => phasedPc pc = true) (pc :: spawned w)) as Hstep.
  { intros w pc [[Hw|Hw] Htimers] Hpc; (split; [by rewrite ?Hw|]);
      (apply Forall_cons_2; [done|]);
      (eapply Forall_impl; [apply Htimers; by apply Forall_nil_2|]);
      by intros ? ->. }
  destruct action as [api|tid]; cbn [step].
  - destruct (keepsIndex_call env api (enter (engine c)) Haction) as [Hkeeps Hpc].
    destruct (call env api (enter (engine c))) as [w pc]. simpl in Hkeeps, Hpc.
    destruct (Hstep w pc Hkeeps Hpc) as [Hw Hnew].
    apply IH; [done| |done]. cbn [tasks]. by apply Forall_app.
  - destruct (tasks c !! tid) as [pc|] eqn:Htid; [|by apply IH].
    assert (phasedPc pc = true) as Hphased.
    { rewrite Forall_lookup in Htasks. by apply (Htasks tid). }
    destruct (keepsIndex_wake env pc (enter (engine c)) Hphased) as [Hkeeps Hpc].
    destruct (wake env pc (enter (engine c))) as [w pc']. simpl in Hkeeps, Hpc.
    destruct (Hstep w pc' Hkeeps Hpc) as [Hw Hnew].
    apply Forall_cons in Hnew as [_ Hnew].
    apply IH; [done| |done]. cbn [tasks]. apply Forall_app. split; [|done].
    by apply Forall_insert.
Qed.

Lemma sequenceIndex_stays_zero_example :
  sequenceIndex (engine (run (wakes 0 (drop 1 quietWakes))
                           (run waitingForCue1 (initial bothFiles)))) = 0.
Proof.
  rewrite <- run_app.
  apply (sequenceIndex_stays_zero (initial bothFiles)
           (waitingForCue1 ++ wakes 0 (drop 1 quietWakes))).
  - reflexivity.
  - apply Forall_nil_2.
  - by repeat constructor.
Defined.

(** ** A cue file that was not loaded *)

Lemma Cueless_emit (ev : Event) (w : World) :
  shown ev = false → Cueless w → Cueless (emit ev w).
Proof.
  intros Hev (He & Hout & Htimers). split; [done|]. split; [|done].
  cbn [emit out]. apply Forall_app. split; [done|]. by apply Forall_singleton.
Qed.

Lemma Cueless_update (f : Engine → Engine) (w : World) :
  (cueless (eng w) → cueless (f (eng w))) → Cueless w → Cueless (update f w).
Proof. intros Hf (He & Hout & Htimers). split; [by apply Hf|done]. Qed.

Lemma Cueless_stopPlayback (w : World) : Cueless w → Cueless (stopPlayback w).
Proof.
  intros Hw. unfold stopPlayback, notifyPlayStateChange. cbv zeta.
  apply Cueless_emit; [done|].
  assert (Cueless (emit AudioHalted
            (update (fun e => setSequenceIndex 0 (setSequence None
                                (setPaused false (setPlaying false e)))) w))) as Hhalted.
  { apply Cueless_emit; [done|]. apply Cueless_update; [|done].
    intros [Hfile _]. split; [done|]. by intros sequence [=]. }
  destruct (textManager _); [by apply Cueless_emit|done].
Qed.

Lemma Cueless_failPlayback (err : JsError) (w : World) :
  Cueless w → Cueless (failPlayback err w).
Proof. intros Hw. apply Cueless_stopPlayback. by apply Cueless_emit. Qed.

Lemma Cueless_completePlayback (w : World) : Cueless w → Cueless (completePlayback w).
Proof.
  intros Hw. unfold completePlayback.
  assert (Cueless (notifySequenceComplete (notifyPlayStateChange false
            (update (fun e => setPaused false (setPlaying false e)) w)))) as Hover.
  { apply Cueless_emit; [done|]. apply Cueless_emit; [done|].
    apply Cueless_update; [|done]. by intros [Hfile Hsequence]. }
  destruct (isLooping (eng w)); [|done]. destruct (textManager (eng w)); [|done].
  destruct (Cueless_emit (RestartScheduled 1000) (emit ResetPosition w) eq_refl
              (Cueless_emit ResetPosition w eq_refl Hw)) as (He & Hout & Htimers).
  split; [done|]. split; [done|].
  unfold timersOnly, spawn. cbn [spawned]. apply Forall_app. split; [done|].
  by apply Forall_singleton.
Qed.

Lemma Cueless_muyuAfterWait (env : Env) (i : nat) (event : PlayEvent) (w : World) :
  type event = "muyu"%string → Cueless w → Cueless (muyuAfterWait env i event w).1.
Proof.
  intros Htype Hw. unfold muyuAfterWait.
  destruct (negb (isPlaying (eng w)) || isPaused (eng w)) eqn:Hguard; [done|].
  apply orb_false_iff in Hguard as [Hplaying _].
  unfold playAudioNoWait. cbn [emit eng]. rewrite Hplaying, Htype.
  destruct (decide _) as [Hin|_]; [by destruct Hw as [[Hfile _] _]|].
  unfold muyuCatch. cbn [isAbort andb].
  by apply Cueless_emit, Cueless_emit.
Qed.

Lemma Cueless_executeMuyuFrom (env : Env) (muyuEvents rest : list PlayEvent) (i : nat)
    (w : World) :
  Forall (fun event => type event = "muyu"%string) muyuEvents →
  Forall (fun event => type event = "muyu"%string) rest →
  Cueless w →
  Cueless (executeMuyuFrom env muyuEvents rest i w).1
  ∧ cuelessPc (executeMuyuFrom env muyuEvents rest i w).2.
Proof.
  intros Hall. revert i w. induction rest as [|event rest IH]; intros i w Hrest Hw.
  - simpl. split; [by apply Cueless_completePlayback|done].
  - apply Forall_cons in Hrest as [Htype Hrest].
    cbn [executeMuyuFrom]. destruct (_ || _); [done|].
    cbv zeta. destruct (_ && _); [done|].
    pose proof (Cueless_muyuAfterWait env i event w Htype Hw) as Hiter.
    destruct (muyuAfterWait env i event w) as [w1 [|]]; simpl in Hiter; [|done].
    by apply IH.
Qed.

Lemma Cueless_muyuPhase (env : Env) (w : World) :
  Cueless w → Cueless (muyuPhase env w).1 ∧ cuelessPc (muyuPhase env w).2.
Proof.
  intros Hw. unfold muyuPhase.
  destruct (currentSequence (eng w)) as [sequence|] eqn:Hsequence;
    [|split; [by apply Cueless_failPlayback|done]].
  assert (Forall (fun event => type event = "muyu"%string) (List.filter isMuyu sequence))
    as Htyped.
  { destruct Hw as [[_ Htyped] _]. specialize (Htyped sequence Hsequence).
    apply Forall_forall. intros event Hin. apply list_elem_of_In, filter_In in Hin as [Hin Hm].
    rewrite Forall_forall in Htyped. apply Htyped; [|done]. by apply list_elem_of_In. }
  destruct (List.filter isMuyu sequence) as [|ev0 events]; [done|].
  apply Cueless_executeMuyuFrom; [done..|].
  apply Cueless_emit; [done|]. apply Cueless_update; [|done].
  by intros [Hfile Hseq].
Qed.

Lemma Cueless_playAudioStart (o : PlayOutcome) (key : string) (w : World) :
  Cueless w → Cueless (playAudioStart o key w).1.
Proof.
  intros Hw. unfold playAudioStart, playAudioCatch.
  destruct (negb _); [done|]. destruct (decide _); [|by apply Cueless_emit].
  destruct o as [err|fate]; [|by apply Cueless_emit].
  destruct (_ && _); [done|by apply Cueless_emit].
Qed.

Lemma Cueless_executeSequenceInPhases (env : Env) (w : World) :
  Cueless w →
  Cueless (executeSequenceInPhases env w).1 ∧ cuelessPc (executeSequenceInPhases env w).2.
Proof.
  intros Hw. unfold executeSequenceInPhases.
  destruct (currentSequence (eng w)) as [sequence|];
    [|split; [by apply Cueless_failPlayback|done]].
  destruct (List.find isStartBowl sequence) as [bowlEvent|].
  - pose proof (Cueless_playAudioStart (playStart env) (type bowlEvent) w Hw) as Hplay.
    destruct (playAudioStart _ _ _) as [w1 [[|err]|]]; simpl in Hplay.
    + apply Cueless_muyuPhase. by apply Cueless_emit.
    + split; [by apply Cueless_failPlayback|done].
    + done.
  - apply Cueless_muyuPhase. by apply Cueless_emit.
Qed.

Lemma Cueless_startPlaybackSequence (env : Env) (sequence : list PlayEvent) (w : World) :
  Forall muyuTyped sequence → Cueless w →
  Cueless (startPlaybackSequence env sequence w).1
  ∧ cuelessPc (startPlaybackSequence env sequence w).2.
Proof.
  intros Hsequence Hw. unfold startPlaybackSequence.
  destruct (isPlaying (eng w)); [split; [by apply Cueless_emit|done]|].
  apply Cueless_executeSequenceInPhases. apply Cueless_emit; [done|].
  apply Cueless_update; [|done]. intros [Hfile _]. split; [done|].
  intros ? [= <-]. done.
Qed.

Lemma muyuSequence_typed (get : option (nat → option CharData)) (b : float)
    (remaining i muyuIndex : nat) :
  Forall muyuTyped (muyuSequence get b remaining i muyuIndex).
Proof.
  revert i muyuIndex. induction remaining as [|remaining IH]; intros i muyuIndex;
    [apply Forall_nil_2|].
  cbn [muyuSequence]. cbv zeta. destruct (receivesCue _); [|apply IH].
  apply Forall_cons_2; [done|apply IH].
Qed.

Lemma Cueless_startPlayback (env : Env) (manager : option (list CharData)) (w : World) :
  Cueless w →
  Cueless (startPlayback env manager w).1.1 ∧ cuelessPc (startPlayback env manager w).1.2.
Proof.
  intros Hw. unfold startPlayback. destruct manager as [[|first rest]|];
    try (split; [by apply Cueless_emit|done]).
  apply Cueless_startPlaybackSequence.
  - unfold createPlaybackSequenceOf, createPlaybackSequence.
    apply Forall_cons_2; [done|apply muyuSequence_typed].
  - apply Cueless_update; [|done]. by intros [Hfile Hseq].
Qed.

Lemma Cueless_call (env : Env) (api : Api) (w : World) :
  textAction (Call api) = true → Cueless w →
  Cueless (call env api w).1 ∧ cuelessPc (call env api w).2.
Proof.
  intros Hapi Hw. destruct api; try done; cbn [call].
  - destruct (Cueless_startPlayback env manager w Hw) as [H1 H2].
    destruct (startPlayback env manager w) as [[w1 pc] [|err]]; simpl in *; [done|].
    split; [by apply Cueless_emit|done].
  - split; [|done]. unfold pausePlayback. destruct (_ && _); [|done].
    apply Cueless_emit; [done|]. apply Cueless_update; [|done]. by intros [Hfile Hseq].
  - split; [by apply Cueless_stopPlayback|done].
  - split; [|done]. unfold resetPlayback. cbv zeta.
    pose proof (Cueless_stopPlayback w Hw) as Hstop.
    destruct (textManager _); [|done]. by apply Cueless_emit, Cueless_emit.
  - split; [|done]. unfold setPlaybackSpeed. destruct (_ || _); [by apply Cueless_emit|].
    cbv zeta.
    assert (Cueless (update (setSpeed speed) w)) as Hspeed.
    { apply Cueless_update; [|done]. by intros [Hfile Hseq]. }
    destruct (isPlaying _); [|done]. apply Cueless_update; [|done].
    intros [Hfile Hseq]. unfold adjustPlaybackSpeed. by repeat case_match.
  - split; [|done]. unfold dispose. apply Cueless_update; [|by apply Cueless_stopPlayback].
    intros [Hfile Hseq]. split; [|done]. cbn [clearAudioFiles audioFiles]. set_solver.
Qed.

Lemma Cueless_wake (env : Env) (pc : Pc) (w : World) :
  cuelessPc pc → Cueless w →
  Cueless (wake env pc w).1 ∧ cuelessPc (wake env pc w).2.
Proof.
  intros Hpc Hw. destruct pc; try done; cbn [wake].
  - destruct (settle env) as [err|]; [|done].
    unfold playAudioCatch. destruct (_ && _).
    + apply Cueless_muyuPhase. by apply Cueless_emit.
    + split; [|done]. by apply Cueless_failPlayback, Cueless_emit.
  - apply Cueless_muyuPhase. by apply Cueless_emit.
  - destruct (checkAndWait _ _ _ _); [|done].
    destruct (drop i muyuEvents) as [|event rest] eqn:Hdrop; [done|].
    assert (Forall (fun event => type event = "muyu"%string) (event :: rest)) as Hrest.
    { rewrite <- Hdrop. by apply Forall_drop. }
    apply Forall_cons in Hrest as [Htype Hrest].
    pose proof (Cueless_muyuAfterWait env i event w Htype Hw) as Hiter.
    destruct (muyuAfterWait env i event w) as [w1 [|]]; simpl in Hiter; [|done].
    by apply Cueless_executeMuyuFrom.
  - destruct (Cueless_startPlayback env (textManager (eng w)) w Hw) as [H1 H2].
    destruct (startPlayback env (textManager (eng w)) w) as [[w1 pc] [|err]]; simpl in *;
      [done|].
    split; [by apply Cueless_failPlayback|done].
Qed.

(** X23.  While the file of the periodic cue is not loaded, nothing of a
    cue reaches the reader: whatever the host calls (but [resumePlayback],
    [togglePlayback] and a sequence of its own) and whenever the timers
    fire, no periodic sound is played, no character is highlighted and no
    progress is notified. *)
Theorem missing_cue_file_shows_nothing (loaded : gset string)
    (inputs : list (Action * Env)) :
  "muyu"%string ∉ loaded →
  Forall (fun input => textAction input.1 = true) inputs →
  Forall (fun entry => shown entry.2 = false) (trace (run inputs (initial loaded))).
Proof.
  intros Hfile Hinputs.
  assert (∀ c, cueless (engine c) → Forall cuelessPc (tasks c) →
            Forall (fun entry => shown entry.2 = false) (trace c) →
            Forall (fun entry => shown entry.2 = false) (trace (run inputs c))) as Hrun.
  { induction inputs as [|[action env] inputs IH]; intros c He Htasks Htrace; [done|].
    apply Forall_cons in Hinputs as [Haction Hinputs].
    change (run ((action, env) :: inputs) c) with (run inputs (step c (action, env))).
    assert (Cueless (enter (engine c))) as Henter.
    { split; [done|]. split; apply Forall_nil_2. }
    assert (∀ w tid, Cueless w →
              cueless (eng w) ∧ Forall cuelessPc (spawned w)
              ∧ Forall (fun entry => shown entry.2 = false) (trace c ++ tag tid (out w)))
      as Hstep.
    { intros w tid (He' & Hout & Htimers). split; [done|]. split.
      - eapply Forall_impl; [exact Htimers|]. by intros ? ->.
      - apply Forall_app. split; [done|]. unfold tag. by apply Forall_fmap. }
    destruct action as [api|tid]; cbn [step].
    - destruct (Cueless_call env api (enter (engine c)) Haction Henter) as [Hw Hpc].
      destruct (call env api (enter (engine c))) as [w pc]. simpl in Hw, Hpc.
      destruct (Hstep w (length (tasks c)) Hw) as (He' & Hspawned & Htrace').
      apply IH; [done|done| |done]. cbn [tasks]. apply Forall_app. split; [done|].
      by apply Forall_cons_2.
    - destruct (tasks c !! tid) as [pc|] eqn:Htid; [|by apply IH].
      assert (cuelessPc pc) as Hcueless.
      { rewrite Forall_lookup in Htasks. by apply (Htasks tid). }
      destruct (Cueless_wake env pc (enter (engine c)) Hcueless Henter) as [Hw Hpc].
      destruct (wake env pc (enter (engine c))) as [w pc']. simpl in Hw, Hpc.
      destruct (Hstep w tid Hw) as (He' & Hspawned & Htrace').
      apply IH; [done|done| |done]. cbn [tasks]. apply Forall_app. split; [|done].
      by apply Forall_insert. }
  apply Hrun; [|apply Forall_nil_2..]. split; [done|]. by intros sequence [=].
Qed.

Lemma missing_cue_file_shows_nothing_example :
  Forall (fun entry => shown entry.2 = false)
    (trace (run (waitingForCue1 ++ wakes 0 (drop 1 quietWakes))
              (initial {[ "bowl"%string ]}))).
Proof.
  apply (missing_cue_file_shows_nothing {[ "bowl"%string ]}
           (waitingForCue1 ++ wakes 0 (drop 1 quietWakes))).
  - vm_compute. intros Hin. discriminate Hin.
  - by repeat constructor.
Defined.
